(** * Substitution matrices of [biotite.sequence.align.matrix]

    A shallow embedding of the [SubstitutionMatrix] class of
    [src/biotite/sequence/align/matrix.py]: its constructor (from a dense
    table and from a pairing dictionary), its queries, its text rendering
    [__str__], the NCBI text parser [dict_from_str] and the positional
    transformation [as_positional], together with the parts of the Python
    and NumPy runtime those methods call. *)

From Stdlib Require Import ZArith Zpow_facts Ascii String List Lia Bool.
From stdpp Require Import base option list gmap strings.

Local Open Scope Z_scope.

(** ** Exceptions and fallible computations *)

(** The [ValueError]s the module can raise, by origin. *)
Variant value_error : Type :=
  | BadShape          (* "Matrix has shape ..., but ... is required" *)
  | ScoresTooLarge    (* "Score values are too large. ..." *)
  | Inhomogeneous     (* np.array on rows of different lengths *)
  | InvalidLiteral    (* int() on a token that is no integer literal *)
  | CannotReshape.    (* ndarray.reshape to a shape of another size *)

(** A Python string, as the list of its characters (the code points below
    256). *)
Abbreviation str := (list ascii).

(** Symbols of an alphabet are arbitrary Python objects; the module's
    documentation uses strings and integers. *)
Inductive symbol : Type :=
  | Str (s : str)
  | Int (z : Z).

Inductive exn : Type :=
  | ValueError (why : value_error)
  | TypeError
  | KeyError (sym1 sym2 : symbol)
  | IndexError
  | OverflowError
  | AlphabetError.

Inductive result (A : Type) : Type :=
  | Ok (a : A)
  | Raise (e : exn).
Arguments Ok {A} a.
Arguments Raise {A} e.

Definition bind {A B : Type} (r : result A) (k : A -> result B) : result B :=
  match r with
  | Ok a => k a
  | Raise e => Raise e
  end.

Notation "'let*' x ':=' r 'in' k" := (bind r (fun x => k))
  (at level 10, x pattern, r at level 100, k at level 200).

(** A [for] loop over [l] that threads the state [s] and stops at the first
    exception. *)
Fixpoint for_each {A S : Type} (l : list A) (body : S -> A -> result S) (s : S)
  : result S :=
  match l with
  | [] => Ok s
  | x :: l' => let* s' := body s x in for_each l' body s'
  end.

(** A list comprehension whose element expression may raise. *)
Fixpoint comprehension {A B : Type} (f : A -> result B) (l : list A)
  : result (list B) :=
  match l with
  | [] => Ok []
  | x :: l' => let* y := f x in let* ys := comprehension f l' in Ok (y :: ys)
  end.

Definition is_ok {A : Type} (r : result A) : bool :=
  match r with Ok _ => true | Raise _ => false end.

(** [range(n)] *)
Definition range (n : nat) : list nat := seq 0 n.

(** ** Python strings *)

(** [str.isspace] on one character, for the code points below 256:
    TAB, LF, VT, FF, CR, FS, GS, RS, US, SPACE, NEL and NBSP. *)
Definition isspace (c : ascii) : bool :=
  let n := N_of_ascii c in
  ((9 <=? n) && (n <=? 13) || (28 <=? n) && (n <=? 32)
   || (n =? 133) || (n =? 160))%N.

Definition space : ascii := " "%char.
Definition newline : ascii := ascii_of_N 10.
Definition hash : ascii := "#"%char.

(** [s.lstrip()], [s.rstrip()] and [s.strip()] *)
Fixpoint lstrip (s : str) : str :=
  match s with
  | [] => []
  | c :: s' => if isspace c then lstrip s' else s
  end.

Definition rstrip (s : str) : str := rev (lstrip (rev s)).

Definition strip (s : str) : str := rstrip (lstrip s).

(** [s.split()]: the maximal runs of characters that are not whitespace. *)
Fixpoint split_ws (s : str) : list str :=
  match s with
  | [] => []
  | c :: s' =>
      if isspace c then split_ws s'
      else match s' with
           | [] => [[c]]
           | d :: _ =>
               if isspace d then [c] :: split_ws s'
               else match split_ws s' with
                    | t :: ts => (c :: t) :: ts
                    | [] => [[c]]
                    end
           end
  end.

(** [s.split(sep)] for a separator of one character: never empty. *)
Fixpoint split_on (sep : ascii) (s : str) : list str :=
  match s with
  | [] => [[]]
  | c :: s' =>
      if decide (c = sep) then [] :: split_on sep s'
      else match split_on sep s' with
           | t :: ts => (c :: t) :: ts
           | [] => [[c]]
           end
  end.

(** The format specification [>w]: right-aligned in a field of width [w],
    padded with spaces, never truncated. *)
Definition rjust (width : nat) (s : str) : str :=
  replicate (width - length s) space ++ s.

(** [s[:-1]] *)
Definition drop_last (s : str) : str := take (length s - 1) s.

(** Decimal rendering of an integer, as [str(int)] and the format type [d]
    produce it. *)
Definition digit_char (d : N) : ascii := ascii_of_N (48 + d).

Fixpoint digits_fuel (fuel : nat) (n : N) (acc : str) : str :=
  match fuel with
  | O => acc
  | S fuel' =>
      let acc' := digit_char (n mod 10) :: acc in
      if (n <? 10)%N then acc' else digits_fuel fuel' (n / 10) acc'
  end.

Definition format_nat (n : N) : str := digits_fuel (S (N.size_nat n)) n [].

Definition format_int (z : Z) : str :=
  if z <? 0 then "-"%char :: format_nat (Z.abs_N z) else format_nat (Z.abs_N z).

(** [str(symbol)] *)
Definition py_str (sym : symbol) : str :=
  match sym with
  | Str s => s
  | Int z => format_int z
  end.

(** [int(s)] for a string [s], base 10: surrounding whitespace is ignored,
    then an optional sign and decimal digits, where single underscores may
    separate digits. *)
Definition is_digit (c : ascii) : bool :=
  let n := N_of_ascii c in ((48 <=? n) && (n <=? 57))%N.

Definition digit_val (c : ascii) : Z := Z.of_N (N_of_ascii c) - 48.

Fixpoint int_digits (acc : Z) (s : str) : option Z :=
  match s with
  | [] => Some acc
  | c :: s' =>
      if is_digit c then int_digits (10 * acc + digit_val c) s'
      else if decide (c = "_"%char) then
        match s' with
        | d :: s'' =>
            if is_digit d then int_digits (10 * acc + digit_val d) s'' else None
        | [] => None
        end
      else None
  end.

Definition int_unsigned (s : str) : option Z :=
  match s with
  | d :: s' => if is_digit d then int_digits (digit_val d) s' else None
  | [] => None
  end.

Definition py_int (s : str) : option Z :=
  match strip s with
  | c :: s' =>
      if decide (c = "-"%char) then Z.opp <$> int_unsigned s'
      else if decide (c = "+"%char) then int_unsigned s'
      else int_unsigned (c :: s')
  | [] => None
  end.

Definition of_string (s : string) : str := list_ascii_of_string s.

(** ** Python lists and dictionaries *)

(** [l[i]] for an index that is not negative. *)
Definition list_getitem {A : Type} (l : list A) (i : nat) : result A :=
  match l !! i with
  | Some x => Ok x
  | None => Raise IndexError
  end.

Instance symbol_eq_dec : EqDecision symbol.
Proof. solve_decision. Defined.

Instance symbol_countable : Countable symbol.
Proof.
  refine (inj_countable'
            (fun sym => match sym with Str s => inl s | Int z => inr z end)
            (fun x => match x with inl s => Str s | inr z => Int z end) _).
  intros []; reflexivity.
Defined.

(** The "matrix dictionary": pairing tuples to scores. *)
Abbreviation matrix_dict_t := (gmap (symbol * symbol) Z).

(** [d[sym1, sym2]] *)
Definition dict_getitem (d : matrix_dict_t) (sym1 sym2 : symbol) : result Z :=
  match d !! (sym1, sym2) with
  | Some v => Ok v
  | None => Raise (KeyError sym1 sym2)
  end.

(** ** NumPy arrays *)

Variant dtype : Type :=
  | int8 | int16 | int32 | int64
  | uint8 | uint16 | uint32 | uint64
  | bool_ | float32 | float64.

(** [np.issubdtype(dt, np.integer)] *)
Definition is_integer (dt : dtype) : bool :=
  match dt with
  | bool_ | float32 | float64 => false
  | _ => true
  end.

(** An array is its element type, its shape and its elements in row-major
    order.  Only integer arrays have their elements read; the constructor
    rejects the others before it looks at them. *)
Record ndarray : Type := mk_ndarray {
  dtype_of : dtype;
  shape : list nat;
  data : list Z
}.

Definition INT32_MAX : Z := 2147483647.
Definition INT32_MIN : Z := -2147483648.
Definition INT64_MAX : Z := 9223372036854775807.
Definition INT64_MIN : Z := -9223372036854775808.

(** The table [f i j] for [i < m], [j < n], row by row. *)
Definition tabulate2 {A : Type} (m n : nat) (f : nat -> nat -> A) : list A :=
  flat_map (fun i => map (f i) (range n)) (range m).

Definition item (a : ndarray) (k : nat) : Z := default 0 (data a !! k).

(** [np.zeros((m, n), dtype=dt)] *)
Definition np_zeros (m n : nat) (dt : dtype) : ndarray :=
  {| dtype_of := dt; shape := [m; n]; data := replicate (m * n) 0 |}.

(** Conversion between integer types keeps the low 32 bits (two's
    complement), as C casts do. *)
Definition wrap_int32 (z : Z) : Z := (z + 2 ^ 31) mod 2 ^ 32 - 2 ^ 31.

(** [a.astype(np.int32)] on an integer array *)
Definition astype_int32 (a : ndarray) : ndarray :=
  {| dtype_of := int32; shape := shape a; data := map wrap_int32 (data a) |}.

(** [np.any(a == v)] *)
Definition np_any_eq (a : ndarray) (v : Z) : bool :=
  existsb (Z.eqb v) (data a).

(** [np.transpose(a)] of an array of at most two dimensions. *)
Definition np_transpose (a : ndarray) : ndarray :=
  match shape a with
  | [m; n] =>
      {| dtype_of := dtype_of a;
         shape := [n; m];
         data := tabulate2 n m (fun j i => item a (i * n + j)) |}
  | _ => a
  end.

(** [np.array_equal(a1, a2)]: same shape and same elements. *)
Definition np_array_equal (a1 a2 : ndarray) : bool :=
  bool_decide (shape a1 = shape a2) && bool_decide (data a1 = data a2).

(** An index into an axis of length [n]: negative indices count from the
    end, anything outside [-n, n) raises [IndexError]. *)
Definition normalize_index (i : Z) (n : nat) : result nat :=
  if (0 <=? i) && (i <? Z.of_nat n) then Ok (Z.to_nat i)
  else if (- Z.of_nat n <=? i) && (i <? 0) then Ok (Z.to_nat (i + Z.of_nat n))
  else Raise IndexError.

(** [a[i, j]] on a two-dimensional array. *)
Definition getitem2 (a : ndarray) (i j : Z) : result Z :=
  match shape a with
  | [m; n] =>
      let* i' := normalize_index i m in
      let* j' := normalize_index j n in
      list_getitem (data a) (i' * n + j')
  | _ => Raise IndexError
  end.

(** [a[i, j] = v] on a two-dimensional [int32] array, for a Python integer
    [v]: a value outside the range of the element type raises
    [OverflowError] (NumPy 2). *)
Definition setitem2 (a : ndarray) (i j : Z) (v : Z) : result ndarray :=
  match shape a with
  | [m; n] =>
      let* i' := normalize_index i m in
      let* j' := normalize_index j n in
      if (INT32_MIN <=? v) && (v <=? INT32_MAX) then
        Ok {| dtype_of := dtype_of a; shape := shape a;
              data := <[(i' * n + j')%nat := v]> (data a) |}
      else Raise OverflowError
  | _ => Raise IndexError
  end.

(** [np.repeat(a, k)] and [np.tile(a, k)] on one-dimensional arrays. *)
Definition np_repeat (a : list Z) (k : nat) : list Z :=
  flat_map (fun x => replicate k x) a.

Definition np_tile (a : list Z) (k : nat) : list Z :=
  concat (replicate k a).

(** [np.array([row0, row1])] of two integer rows of one length. *)
Definition np_array_rows (rows : list (list Z)) : ndarray :=
  {| dtype_of := int64;
     shape := [length rows; length (hd [] rows)];
     data := concat rows |}.

(** [tuple(a)]: the rows of a two-dimensional array. *)
Definition rows_of (a : ndarray) : list (list Z) :=
  match shape a with
  | [m; n] => map (fun i => take n (drop (i * n) (data a))) (range m)
  | _ => []
  end.

(** [a[(rows, cols)]]: integer-array indexing of a two-dimensional array
    with one index array per axis, giving a one-dimensional array. *)
Definition getitem_arrays (a : ndarray) (index : list (list Z)) : result ndarray :=
  match index with
  | [rows; cols] =>
      let* vals := comprehension (fun ij => getitem2 a ij.1 ij.2) (zip rows cols) in
      Ok {| dtype_of := dtype_of a; shape := [length vals]; data := vals |}
  | _ => Raise IndexError
  end.

(** [a.reshape(m, n)] *)
Definition reshape (a : ndarray) (m n : nat) : result ndarray :=
  if decide (length (data a) = (m * n)%nat) then
    Ok {| dtype_of := dtype_of a; shape := [m; n]; data := data a |}
  else Raise (ValueError CannotReshape).

(** An element of a NumPy string array: the array stores fixed-width,
    NUL-padded strings, so trailing NULs are not part of the element. *)
Fixpoint lstrip_nul (s : str) : str :=
  match s with
  | [] => []
  | c :: s' => if decide (c = zero) then lstrip_nul s' else s
  end.

Definition str_item (s : str) : str := rev (lstrip_nul (rev s)).

(** One element of [.astype(int)] on a string array: [int()] of the
    element, stored as a 64-bit integer. *)
Definition str_to_int (tok : str) : result Z :=
  match py_int (str_item tok) with
  | None => Raise (ValueError InvalidLiteral)
  | Some z =>
      if (INT64_MIN <=? z) && (z <=? INT64_MAX) then Ok z else Raise OverflowError
  end.

(** [np.array(rows).astype(int)] for a list of lists of strings: the rows
    must have one length; no row at all gives an empty one-dimensional
    array. *)
Definition np_array_astype_int (rows : list (list str)) : result ndarray :=
  match rows with
  | [] => Ok {| dtype_of := int64; shape := [0%nat]; data := [] |}
  | row0 :: _ =>
      if forallb (fun row => length row =? length row0)%nat rows then
        let* vals := comprehension str_to_int (concat rows) in
        Ok {| dtype_of := int64; shape := [length rows; length row0]; data := vals |}
      else Raise (ValueError Inhomogeneous)
  end.

(** ** Alphabets and sequences *)

(** Modelled from the spec: the [Alphabet] class ([biotite.sequence]) is not
    part of the sources.  An alphabet is an ordered sequence of symbols;
    [encode] gives the code of a symbol and fails with [AlphabetError]
    (the spec's UnknownSymbol) if it is absent, [decode] gives the symbol of
    a code, equality is element-wise. *)
Abbreviation Alphabet := (list symbol).

Fixpoint index_of (sym : symbol) (alph : Alphabet) : option nat :=
  match alph with
  | [] => None
  | s :: alph' => if decide (s = sym) then Some 0%nat else S <$> index_of sym alph'
  end.

Definition encode (alph : Alphabet) (sym : symbol) : result Z :=
  match index_of sym alph with
  | Some code => Ok (Z.of_nat code)
  | None => Raise AlphabetError
  end.

Definition decode (alph : Alphabet) (code : Z) : result symbol :=
  if 0 <=? code then
    match alph !! Z.to_nat code with
    | Some sym => Ok sym
    | None => Raise AlphabetError
    end
  else Raise AlphabetError.

(** Modelled from the spec: the sequence classes ([biotite.sequence.seqtypes])
    are not part of the sources.  A sequence carries its alphabet and the
    array of its symbol codes; the positional sequence of a sequence of
    length [n] has the positions [0 .. n-1] as its alphabet. *)
Record Sequence : Type := mk_Sequence {
  get_alphabet : Alphabet;
  code : list Z
}.

(** [sequence[p]] *)
Definition seq_getitem (sequence : Sequence) (p : nat) : result symbol :=
  let* c := list_getitem (code sequence) p in
  decode (get_alphabet sequence) c.

Definition PositionalSequence (original_sequence : Sequence) : Sequence :=
  let n := length (code original_sequence) in
  {| get_alphabet := map (fun pos => Int (Z.of_nat pos)) (range n);
     code := map Z.of_nat (range n) |}.

(** ** The class [SubstitutionMatrix] *)

Record SubstitutionMatrix : Type := mk_SubstitutionMatrix {
  _alph1 : Alphabet;
  _alph2 : Alphabet;
  _matrix : ndarray
}.

(** The third constructor argument: a dictionary or an array.  (A database
    name is read from a file and then handled as the dictionary that
    [dict_from_str] gives; any other object raises [TypeError].) *)
Variant score_matrix_arg : Type :=
  | of_dict (matrix_dict : matrix_dict_t)
  | of_ndarray (score_matrix : ndarray).

Definition _fill_with_matrix_dict (alph1 alph2 : Alphabet)
    (matrix_dict : matrix_dict_t) : result ndarray :=
  let matrix := np_zeros (length alph1) (length alph2) int32 in
  for_each (range (length alph1)) (fun matrix i =>
    for_each (range (length alph2)) (fun matrix j =>
      let* sym1 := decode alph1 (Z.of_nat i) in
      let* sym2 := decode alph2 (Z.of_nat j) in
      let* v := dict_getitem matrix_dict sym1 sym2 in
      setitem2 matrix (Z.of_nat i) (Z.of_nat j) v) matrix) matrix.

Definition __init__ (alphabet1 alphabet2 : Alphabet)
    (score_matrix : score_matrix_arg) : result SubstitutionMatrix :=
  match score_matrix with
  | of_dict matrix_dict =>
      let* matrix := _fill_with_matrix_dict alphabet1 alphabet2 matrix_dict in
      Ok {| _alph1 := alphabet1; _alph2 := alphabet2; _matrix := matrix |}
  | of_ndarray score_matrix =>
      let alph_shape := [length alphabet1; length alphabet2] in
      if negb (bool_decide (shape score_matrix = alph_shape)) then
        Raise (ValueError BadShape)
      else if negb (is_integer (dtype_of score_matrix)) then
        Raise TypeError
      else
        let matrix := astype_int32 score_matrix in
        if np_any_eq matrix INT32_MAX || np_any_eq matrix INT32_MIN then
          Raise (ValueError ScoresTooLarge)
        else
          Ok {| _alph1 := alphabet1; _alph2 := alphabet2; _matrix := matrix |}
  end.

Definition get_shape (self : SubstitutionMatrix) : nat * nat :=
  (length (_alph1 self), length (_alph2 self)).

Definition get_alphabet1 (self : SubstitutionMatrix) : Alphabet := _alph1 self.

Definition get_alphabet2 (self : SubstitutionMatrix) : Alphabet := _alph2 self.

Definition score_matrix (self : SubstitutionMatrix) : ndarray := _matrix self.

Definition transpose (self : SubstitutionMatrix) : result SubstitutionMatrix :=
  let new_alph1 := _alph2 self in
  let new_alph2 := _alph1 self in
  let new_matrix := np_transpose (_matrix self) in
  __init__ new_alph1 new_alph2 (of_ndarray new_matrix).

Definition is_symmetric (self : SubstitutionMatrix) : bool :=
  bool_decide (_alph1 self = _alph2 self)
  && np_array_equal (_matrix self) (np_transpose (_matrix self)).

Definition get_score_by_code (self : SubstitutionMatrix) (code1 code2 : Z)
  : result Z :=
  getitem2 (_matrix self) code1 code2.

Definition get_score (self : SubstitutionMatrix) (symbol1 symbol2 : symbol)
  : result Z :=
  let* code1 := encode (_alph1 self) symbol1 in
  let* code2 := encode (_alph2 self) symbol2 in
  getitem2 (_matrix self) code1 code2.

Definition _cartesian_product (array1 array2 : list Z) : ndarray :=
  np_transpose
    (np_array_rows [np_repeat array1 (length array2);
                    np_tile array2 (length array1)]).

Definition as_positional (self : SubstitutionMatrix) (sequence1 sequence2 : Sequence)
  : result (SubstitutionMatrix * Sequence * Sequence) :=
  let pos_sequence1 := PositionalSequence sequence1 in
  let pos_sequence2 := PositionalSequence sequence2 in
  let* picked :=
    getitem_arrays (_matrix self)
      (rows_of (np_transpose (_cartesian_product (code sequence1) (code sequence2)))) in
  let* pos_score_matrix :=
    reshape picked (length (code sequence1)) (length (code sequence2)) in
  let* pos_matrix :=
    __init__ (get_alphabet pos_sequence1) (get_alphabet pos_sequence2)
      (of_ndarray pos_score_matrix) in
  Ok (pos_matrix, pos_sequence1, pos_sequence2).

Definition __eq__ (self item : SubstitutionMatrix) : bool :=
  if negb (bool_decide (_alph1 self = get_alphabet1 item)) then false
  else if negb (bool_decide (_alph2 self = get_alphabet2 item)) then false
  else if negb (np_array_equal (score_matrix self) (score_matrix item)) then false
  else true.

Definition __ne__ (self item : SubstitutionMatrix) : bool := negb (__eq__ self item).

(** [enumerate(l)] *)
Definition enumerate {A : Type} (l : list A) : list (nat * A) :=
  zip (range (length l)) l.

Definition __str__ (self : SubstitutionMatrix) : result str :=
  let string := [space] in
  let string :=
    fold_left (fun string sym => string ++ space :: rjust 3 (py_str sym))
      (_alph2 self) string in
  let string := string ++ [newline] in
  let* string :=
    for_each (enumerate (_alph1 self)) (fun string i_sym =>
      let string := string ++ rjust 1 (py_str i_sym.2) in
      let* string :=
        for_each (range (length (_alph2 self))) (fun string j =>
          let* x := getitem2 (_matrix self) (Z.of_nat i_sym.1) (Z.of_nat j) in
          Ok (string ++ space :: rjust 3 (format_int x))) string in
      Ok (string ++ [newline])) string in
  Ok (drop_last string).

Definition dict_from_str (string : str) : result matrix_dict_t :=
  let lines := map strip (split_on newline string) in
  let lines :=
    List.filter (fun line => negb (length line =? 0)%nat
                             && negb (bool_decide (head line = Some hash))) lines in
  let* symbols1 :=
    comprehension (fun line => list_getitem (split_ws line) 0) (drop 1 lines) in
  let* header := list_getitem lines 0 in
  let symbols2 := split_ws header in
  let* scores :=
    np_array_astype_int (map (fun line => drop 1 (split_ws line)) (drop 1 lines)) in
  let scores := np_transpose scores in
  for_each (range (length symbols1)) (fun matrix_dict i =>
    for_each (range (length symbols2)) (fun matrix_dict j =>
      let* sym1 := list_getitem symbols1 i in
      let* sym2 := list_getitem symbols2 j in
      let* v := getitem2 scores (Z.of_nat i) (Z.of_nat j) in
      Ok (<[(Str sym1, Str sym2) := v]> matrix_dict)) matrix_dict) ∅.

(** The round trip of the text format: render, parse, rebuild over the
    same two alphabets. *)
Definition roundtrip (M : SubstitutionMatrix) : result SubstitutionMatrix :=
  let* text := __str__ M in
  let* matrix_dict := dict_from_str text in
  __init__ (_alph1 M) (_alph2 M) (of_dict matrix_dict).

(** ** Invariants *)

Definition in_int32 (z : Z) : Prop := INT32_MIN <= z <= INT32_MAX.

(** The class invariant: an [int32] table whose shape is given by the two
    alphabets.  Both constructor paths establish it. *)
Record well_formed (M : SubstitutionMatrix) : Prop := {
  wf_dtype : dtype_of (_matrix M) = int32;
  wf_shape : shape (_matrix M) = [length (_alph1 M); length (_alph2 M)];
  wf_length : length (data (_matrix M)) = (length (_alph1 M) * length (_alph2 M))%nat;
  wf_range : Forall in_int32 (data (_matrix M))
}.

(** No entry is one of the two extreme 32-bit values. *)
Definition no_extreme (a : ndarray) : Prop :=
  Forall (fun z => z <> INT32_MAX /\ z <> INT32_MIN) (data a).

(** The score stored at row [i], column [j]. *)
Definition entry (M : SubstitutionMatrix) (i j : nat) : Z :=
  item (_matrix M) (i * length (_alph2 M) + j).

(** ** Sample data *)

Definition sym_A : symbol := Str (of_string "A").
Definition sym_B : symbol := Str (of_string "B").
Definition sym_C : symbol := Str (of_string "C").

(** A 2 x 3 table over [{A, B}] and [{A, B, C}]. *)
Definition sample_2x3 : SubstitutionMatrix :=
  {| _alph1 := [sym_A; sym_B];
     _alph2 := [sym_A; sym_B; sym_C];
     _matrix := {| dtype_of := int32; shape := [2%nat; 3%nat];
                   data := [1; 2; 3; 4; 5; 6] |} |}.

(** A symmetric 2 x 2 table over [{A, B}]. *)
Definition sample_sym : SubstitutionMatrix :=
  {| _alph1 := [sym_A; sym_B];
     _alph2 := [sym_A; sym_B];
     _matrix := {| dtype_of := int32; shape := [2%nat; 2%nat];
                   data := [5; -3; -3; 7] |} |}.

(** A pairing map that holds the largest 32-bit integer. *)
Definition extreme_dict : matrix_dict_t := {[ (sym_A, sym_A) := INT32_MAX ]}.

(** The matrix the constructor builds from [extreme_dict] over [{A}]. *)
Definition extreme_matrix : SubstitutionMatrix :=
  {| _alph1 := [sym_A]; _alph2 := [sym_A];
     _matrix := {| dtype_of := int32; shape := [1%nat; 1%nat]; data := [INT32_MAX] |} |}.

(** A code array is valid for an alphabet when its codes are codes of the
    alphabet. *)
Definition valid_codes (alph : Alphabet) (codes : list Z) : Prop :=
  Forall (fun c => 0 <= c < Z.of_nat (length alph)) codes.

(** The table [as_positional] builds: position pair [(p, q)] holds the
    entry of the original table at the codes found at [p] and [q]. *)
Definition positional_table (M : SubstitutionMatrix) (code1 code2 : list Z) : ndarray :=
  {| dtype_of := int32;
     shape := [length code1; length code2];
     data := tabulate2 (length code1) (length code2)
               (fun p q => entry M (Z.to_nat (default 0 (code1 !! p)))
                                   (Z.to_nat (default 0 (code2 !! q)))) |}.

Definition sample_seq1 : Sequence :=
  {| get_alphabet := [sym_A; sym_B]; code := [1; 0; 1] |}.

Definition sample_seq2 : Sequence :=
  {| get_alphabet := [sym_A; sym_B; sym_C]; code := [2; 0] |}.

Definition seq_A : Sequence := {| get_alphabet := [sym_A]; code := [0] |}.

(** ** Auxiliary definitions for the proofs *)

(** The index pairs of an [m] x [n] table in the order the nested loops
    visit them. *)
Definition cells (m n : nat) : list (nat * nat) := tabulate2 m n pair.

(** What one iteration of the loops of [_fill_with_matrix_dict] stores at
    [(i, j)]: the dictionary's value for the two decoded symbols, if it
    fits the element type. *)
Definition stored_value (alph1 alph2 : Alphabet) (matrix_dict : matrix_dict_t)
    (ij : nat * nat) : result Z :=
  let* sym1 := decode alph1 (Z.of_nat ij.1) in
  let* sym2 := decode alph2 (Z.of_nat ij.2) in
  let* v := dict_getitem matrix_dict sym1 sym2 in
  if (INT32_MIN <=? v) && (v <=? INT32_MAX) then Ok v else Raise OverflowError.

(** The score a pairing map gives to the symbols with the codes [i] and
    [j] (zero where there is none). *)
Definition pairing_score (alph1 alph2 : Alphabet) (matrix_dict : matrix_dict_t)
    (i j : nat) : Z :=
  match alph1 !! i, alph2 !! j with
  | Some sym1, Some sym2 => default 0 (matrix_dict !! (sym1, sym2))
  | _, _ => 0
  end.

(** A pairing map over [{A, B}] x [{A, B}] without the pair [(B, B)]. *)
Definition partial_dict : matrix_dict_t :=
  {[ (sym_A, sym_A) := 1; (sym_A, sym_B) := 2; (sym_B, sym_A) := 3 ]}.

(** A pairing map over [{A}] x [{A, B}] without the pair [(A, B)], whose
    one value does not fit 64 bits. *)
Definition overflow_dict : matrix_dict_t := {[ (sym_A, sym_A) := 2 ^ 70 ]}.

(** A total pairing map over [{A, B}] x [{A, B}]. *)
Definition total_dict : matrix_dict_t :=
  {[ (sym_A, sym_A) := 1; (sym_A, sym_B) := 2;
     (sym_B, sym_A) := 3; (sym_B, sym_B) := INT32_MIN ]}.

(** The value of a string of decimal digits read from the left, starting
    from [acc]. *)
Definition horner (acc : Z) (s : str) : Z :=
  fold_left (fun a c => 10 * a + digit_val c) s acc.

(** A token: what [str.split()] can return, a non-empty string without
    whitespace. *)
Definition token (s : str) : Prop :=
  s <> [] /\ Forall (fun c => isspace c = false) s.

(** Fields of width three, each after one space: the layout [__str__]
    uses for the header symbols and for the scores of a row. *)
Definition spaced (fields : list str) : str :=
  concat (map (fun t => space :: rjust 3 t) fields).

(** Lines joined by line breaks. *)
Fixpoint unlines (ls : list str) : str :=
  match ls with
  | [] => []
  | [l] => l
  | l :: ls' => l ++ newline :: unlines ls'
  end.

(** The test by which [dict_from_str] keeps a stripped line. *)
Definition is_content (line : str) : bool :=
  negb (length line =? 0)%nat && negb (bool_decide (head line = Some hash)).

(** The lines [dict_from_str] reads: stripped, without the empty lines and
    the comment lines. *)
Definition content_lines (text : str) : list str :=
  List.filter is_content (map strip (split_on newline text)).

(** The column symbols: the tokens of the first content line. *)
Definition header_symbols (text : str) : list str :=
  split_ws (hd [] (content_lines text)).

(** The score tokens of the data lines: what follows the row symbol. *)
Definition score_rows (text : str) : list (list str) :=
  map (fun line => drop 1 (split_ws line)) (drop 1 (content_lines text)).

(** The body of the two loops of [dict_from_str]. *)
Definition store_pairing (symbols1 symbols2 : list str) (scores : ndarray)
    (matrix_dict : matrix_dict_t) (ij : nat * nat) : result matrix_dict_t :=
  let* sym1 := list_getitem symbols1 ij.1 in
  let* sym2 := list_getitem symbols2 ij.2 in
  let* v := getitem2 scores (Z.of_nat ij.1) (Z.of_nat ij.2) in
  Ok (<[(Str sym1, Str sym2) := v]> matrix_dict).

(** Sample texts. *)
Definition square_text : str :=
  unlines [of_string "  A B"; of_string "A 1 2"; of_string "B 3 4"].

Definition wide_text : str :=
  unlines [of_string "  A B"; of_string "X 1 2"].

Definition extra_tokens_text : str :=
  unlines [of_string "A B"; of_string "A 1 2 3"; of_string "B 4 5 6"].

Definition bad_token_text : str :=
  unlines [of_string "A B"; of_string "A 1 x"; of_string "B 3 4"].

(** The lines of the text [__str__] renders. *)
Definition header_line (M : SubstitutionMatrix) : str :=
  space :: spaced (map py_str (_alph2 M)).

Definition row_line (M : SubstitutionMatrix) (i : nat) (sym : symbol) : str :=
  rjust 1 (py_str sym)
  ++ spaced (map (fun j => format_int (entry M i j)) (range (length (_alph2 M)))).

Definition row_lines (M : SubstitutionMatrix) : list str :=
  map (fun i_sym => row_line M i_sym.1 i_sym.2) (enumerate (_alph1 M)).

(** A symbol the text format can carry: a string that is one token. *)
Definition token_symbol (sym : symbol) : Prop :=
  exists s, sym = Str s /\ token s.

(** A symbol whose text does not start a comment line. *)
Definition no_comment (sym : symbol) : Prop := head (py_str sym) <> Some hash.

(** A pairing map with a symmetric table over [{A, B}]. *)
Definition symmetric_dict : matrix_dict_t :=
  {[ (sym_A, sym_A) := 5; (sym_A, sym_B) := -3;
     (sym_B, sym_A) := -3; (sym_B, sym_B) := 7 ]}.

(** A symbol that reads as a comment line, and a one-entry table over it. *)
Definition sym_hash : symbol := Str (of_string "#").

Definition hash_dict : matrix_dict_t := {[ (sym_hash, sym_A) := 1 ]}.

Definition hash_matrix : SubstitutionMatrix :=
  {| _alph1 := [sym_hash]; _alph2 := [sym_A];
     _matrix := {| dtype_of := int32; shape := [1%nat; 1%nat]; data := [1] |} |}.

(** A pairing map whose table over [{A, B}] is not symmetric, and the
    matrix built from it. *)
Definition plain_dict : matrix_dict_t :=
  {[ (sym_A, sym_A) := 1; (sym_A, sym_B) := 2;
     (sym_B, sym_A) := 3; (sym_B, sym_B) := 4 ]}.

Definition plain_matrix : SubstitutionMatrix :=
  {| _alph1 := [sym_A; sym_B]; _alph2 := [sym_A; sym_B];
     _matrix := {| dtype_of := int32; shape := [2%nat; 2%nat];
                   data := [1; 2; 3; 4] |} |}.

(** ** Further auxiliary definitions *)

(** The row symbols [dict_from_str] reads: the first token of each data
    line. *)
Definition row_symbols (text : str) : list str :=
  map (fun line => hd [] (split_ws line)) (drop 1 (content_lines text)).

(** A line [dict_from_str] skips: empty or a comment once stripped. *)
Definition skipped (line : str) : Prop :=
  strip line = [] \/ head (strip line) = Some hash.

(** ** The Protein Blocks matrix *)

(** [std_protein_blocks_matrix(undefined_match, undefined_mismatch)].  What
    the function takes from outside the module is an argument here: the
    text of the database file [PB.mat], which [dict_from_db("PB")] reads
    and hands to [dict_from_str], and the alphabet and the undefined symbol
    of [ProteinBlocksSequence].  (The function is cached: a repeated call
    returns the matrix of the first call with these arguments.) *)
Definition std_protein_blocks_matrix (pb_text : str) (alphabet : Alphabet)
    (undefined_symbol : symbol) (undefined_match undefined_mismatch : Z)
  : result SubstitutionMatrix :=
  let* matrix_dict := dict_from_str pb_text in
  let matrix_dict :=
    fold_left
      (fun (matrix_dict : matrix_dict_t) sym =>
         if decide (sym = undefined_symbol) then matrix_dict
         else <[(undefined_symbol, sym) := undefined_mismatch]>
                (<[(sym, undefined_symbol) := undefined_mismatch]> matrix_dict))
      alphabet matrix_dict in
  let matrix_dict :=
    <[(undefined_symbol, undefined_symbol) := undefined_match]> matrix_dict in
  __init__ alphabet alphabet (of_dict matrix_dict).

(** A small table in the layout of [PB.mat], over the blocks [a] and [b],
    and an alphabet that adds the undefined symbol [z]. *)
Definition sym_a : symbol := Str (of_string "a").
Definition sym_b : symbol := Str (of_string "b").
Definition sym_z : symbol := Str (of_string "z").

Definition pb_sample_text : str :=
  unlines [of_string "    a   b"; of_string "a  51 -12"; of_string "b -12  48"].

Definition pb_sample_dict : matrix_dict_t :=
  {[ (sym_a, sym_a) := 51; (sym_a, sym_b) := -12;
     (sym_b, sym_a) := -12; (sym_b, sym_b) := 48 ]}.
(** * Properties *)

(** ** Fallible computations *)

Lemma bind_ok {A B : Type} (r : result A) (k : A -> result B) (b : B) :
  bind r k = Ok b <-> exists a, r = Ok a /\ k a = Ok b.
Proof.
  destruct r as [a|e]; simpl; split.
  - intros H. exists a. auto.
  - intros (a' & Ha & Hk). congruence.
  - discriminate.
  - intros (a' & Ha & _). discriminate.
Qed.

Lemma is_ok_true {A : Type} (r : result A) : is_ok r = true <-> exists a, r = Ok a.
Proof.
  destruct r; simpl; split; eauto; try discriminate.
  intros [a H]. discriminate.
Qed.

Lemma for_each_app {A S : Type} (l1 l2 : list A) (body : S -> A -> result S) (s : S) :
  for_each (l1 ++ l2) body s = let* s' := for_each l1 body s in for_each l2 body s'.
Proof.
  revert s. induction l1 as [|x l1 IH]; intros s; simpl; [reflexivity|].
  destruct (body s x); simpl; auto.
Qed.

(** A loop whose body never raises is a fold. *)
Lemma for_each_pure {A S : Type} (l : list A) (body : S -> A -> result S)
    (step : S -> A -> S) (s : S) :
  (forall s x, x ∈ l -> body s x = Ok (step s x)) ->
  for_each l body s = Ok (fold_left step l s).
Proof.
  revert s. induction l as [|x l IH]; intros s H; simpl; [reflexivity|].
  rewrite H by constructor. simpl. apply IH.
  intros s' y Hy. apply H. by constructor.
Qed.

Lemma for_each_ext {A S : Type} (l : list A) (body1 body2 : S -> A -> result S) (s : S) :
  (forall s x, x ∈ l -> body1 s x = body2 s x) ->
  for_each l body1 s = for_each l body2 s.
Proof.
  revert s. induction l as [|x l IH]; intros s H; simpl; [reflexivity|].
  rewrite H by constructor. destruct (body2 s x); simpl; [|reflexivity].
  apply IH. intros s' y Hy. apply H. by constructor.
Qed.

(** A loop fails as soon as its body fails at some element whatever the
    state. *)
Lemma for_each_raises {A S : Type} (l : list A) (body : S -> A -> result S) (s : S) (x : A) :
  x ∈ l -> (forall s, is_ok (body s x) = false) ->
  is_ok (for_each l body s) = false.
Proof.
  intros Hx Hfail. revert s. induction l as [|y l IH]; intros s.
  - inversion Hx.
  - simpl. apply elem_of_cons in Hx as [->|Hx].
    + specialize (Hfail s). destruct (body s y); simpl in *; congruence.
    + destruct (body s y); simpl; [|reflexivity]. by apply IH.
Qed.

Lemma comprehension_ok {A B : Type} (f : A -> result B) (g : A -> B) (l : list A) :
  (forall x, x ∈ l -> f x = Ok (g x)) -> comprehension f l = Ok (map g l).
Proof.
  induction l as [|x l IH]; intros H; simpl; [reflexivity|].
  rewrite H by constructor. simpl. rewrite IH; [reflexivity|].
  intros y Hy. apply H. by constructor.
Qed.

Lemma comprehension_raises {A B : Type} (f : A -> result B) (l : list A) (x : A) :
  x ∈ l -> is_ok (f x) = false -> is_ok (comprehension f l) = false.
Proof.
  intros Hx Hfail. induction l as [|y l IH]; [inversion Hx|].
  simpl. apply elem_of_cons in Hx as [->|Hx].
  - destruct (f y); simpl in *; congruence.
  - destruct (f y); simpl; [|reflexivity].
    specialize (IH Hx).
    destruct (comprehension f l); simpl in *; congruence.
Qed.

(** ** Tables in row-major order *)

Lemma tabulate2_S {A : Type} (m n : nat) (f : nat -> nat -> A) :
  tabulate2 (S m) n f = tabulate2 m n f ++ map (f m) (range n).
Proof.
  unfold tabulate2, range. rewrite seq_S, flat_map_app. simpl.
  by rewrite app_nil_r.
Qed.

Lemma length_tabulate2 {A : Type} (m n : nat) (f : nat -> nat -> A) :
  length (tabulate2 m n f) = (m * n)%nat.
Proof.
  induction m as [|m IH]; [reflexivity|].
  rewrite tabulate2_S, length_app, IH, length_map. unfold range.
  rewrite length_seq. lia.
Qed.

Lemma lookup_tabulate2 {A : Type} (m n : nat) (f : nat -> nat -> A) (i j : nat) :
  (i < m)%nat -> (j < n)%nat -> tabulate2 m n f !! (i * n + j)%nat = Some (f i j).
Proof.
  intros Hi Hj. induction m as [|m IH]; [lia|].
  rewrite tabulate2_S. destruct (decide (i = m)) as [->|Hne].
  - rewrite lookup_app_r by (rewrite length_tabulate2; lia).
    rewrite length_tabulate2.
    replace (m * n + j - m * n)%nat with j by lia.
    rewrite list_lookup_fmap. unfold range.
    rewrite lookup_seq_lt by lia. reflexivity.
  - rewrite lookup_app_l by (rewrite length_tabulate2; nia).
    apply IH. lia.
Qed.

Lemma tabulate2_ext {A : Type} (m n : nat) (f g : nat -> nat -> A) :
  (forall i j, (i < m)%nat -> (j < n)%nat -> f i j = g i j) ->
  tabulate2 m n f = tabulate2 m n g.
Proof.
  intros H. induction m as [|m IH]; [reflexivity|].
  rewrite !tabulate2_S. f_equal.
  - apply IH. intros i j Hi Hj. apply H; lia.
  - apply map_ext_in. intros j Hj. apply H; [lia|].
    unfold range in Hj. apply in_seq in Hj. lia.
Qed.

(** A list of [m * n] elements is the table of its own entries. *)
Lemma tabulate2_lookup {A : Type} (d : A) (m n : nat) (l : list A) :
  length l = (m * n)%nat ->
  tabulate2 m n (fun i j => default d (l !! (i * n + j)%nat)) = l.
Proof.
  intros Hlen. apply list_eq. intros k.
  destruct (decide (k < m * n)%nat) as [Hk|Hk].
  - assert (Hn : (0 < n)%nat) by nia.
    assert (Hdiv : (k `div` n < m)%nat) by (apply Nat.Div0.div_lt_upper_bound; lia).
    assert (Hmod : (k `mod` n < n)%nat) by (apply Nat.mod_upper_bound; lia).
    assert (Hk' : k = (k `div` n * n + k `mod` n)%nat).
    { rewrite (Nat.div_mod_eq k n) at 1. lia. }
    rewrite Hk' at 1. rewrite lookup_tabulate2 by assumption.
    rewrite <- Hk'. destruct (lookup_lt_is_Some_2 l k ltac:(lia)) as [x Hx].
    rewrite Hx. reflexivity.
  - rewrite !lookup_ge_None_2; [reflexivity|lia|rewrite length_tabulate2; lia].
Qed.

Lemma tabulate2_eq {A : Type} (d : A) (m n : nat) (f : nat -> nat -> A) (l : list A) :
  length l = (m * n)%nat ->
  (forall i j, (i < m)%nat -> (j < n)%nat -> l !! (i * n + j)%nat = Some (f i j)) ->
  l = tabulate2 m n f.
Proof.
  intros Hlen H. rewrite <- (tabulate2_lookup d m n l Hlen).
  apply tabulate2_ext. intros i j Hi Hj. rewrite H by assumption. reflexivity.
Qed.

(** ** Array indexing *)

Lemma normalize_index_nonneg (i : nat) (n : nat) :
  (i < n)%nat -> normalize_index (Z.of_nat i) n = Ok i.
Proof.
  intros Hi. unfold normalize_index.
  replace (0 <=? Z.of_nat i) with true by (symmetry; apply Z.leb_le; lia).
  replace (Z.of_nat i <? Z.of_nat n) with true by (symmetry; apply Z.ltb_lt; lia).
  simpl. by rewrite Nat2Z.id.
Qed.

Lemma normalize_index_negative (i : Z) (n : nat) :
  - Z.of_nat n <= i < 0 -> normalize_index i n = Ok (Z.to_nat (Z.of_nat n + i)).
Proof.
  intros Hi. unfold normalize_index.
  replace (0 <=? i) with false by (symmetry; apply Z.leb_gt; lia).
  replace (- Z.of_nat n <=? i) with true by (symmetry; apply Z.leb_le; lia).
  replace (i <? 0) with true by (symmetry; apply Z.ltb_lt; lia).
  simpl. by rewrite Z.add_comm.
Qed.

Lemma normalize_index_out (i : Z) (n : nat) :
  i < - Z.of_nat n \/ Z.of_nat n <= i -> normalize_index i n = Raise IndexError.
Proof.
  intros Hi. unfold normalize_index.
  destruct (Z.leb_spec 0 i), (Z.ltb_spec i (Z.of_nat n)),
    (Z.leb_spec (- Z.of_nat n) i), (Z.ltb_spec i 0); simpl; try reflexivity; lia.
Qed.

Lemma normalize_index_in (i : Z) (n : nat) :
  - Z.of_nat n <= i < Z.of_nat n ->
  exists k, normalize_index i n = Ok k /\ (k < n)%nat
            /\ Z.of_nat k = if i <? 0 then Z.of_nat n + i else i.
Proof.
  intros Hi. destruct (Z.ltb_spec i 0) as [Hneg|Hpos].
  - rewrite normalize_index_negative by lia.
    eexists; split; [reflexivity|]. lia.
  - exists (Z.to_nat i). split; [|lia].
    pose proof (normalize_index_nonneg (Z.to_nat i) n ltac:(lia)) as H.
    by rewrite Z2Nat.id in H by lia.
Qed.

Lemma getitem2_nat (a : ndarray) (m n i j : nat) :
  shape a = [m; n] -> length (data a) = (m * n)%nat ->
  (i < m)%nat -> (j < n)%nat ->
  getitem2 a (Z.of_nat i) (Z.of_nat j) = Ok (item a (i * n + j)).
Proof.
  intros Hs Hl Hi Hj. unfold getitem2. rewrite Hs.
  rewrite !normalize_index_nonneg by assumption. simpl.
  unfold list_getitem, item.
  destruct (lookup_lt_is_Some_2 (data a) (i * n + j)%nat ltac:(nia)) as [x Hx].
  by rewrite Hx.
Qed.

Lemma getitem2_out (a : ndarray) (m n : nat) (i j : Z) :
  shape a = [m; n] -> length (data a) = (m * n)%nat ->
  ~ (- Z.of_nat m <= i < Z.of_nat m /\ - Z.of_nat n <= j < Z.of_nat n) ->
  getitem2 a i j = Raise IndexError.
Proof.
  intros Hs Hl Hij. unfold getitem2. rewrite Hs.
  destruct (decide (- Z.of_nat m <= i < Z.of_nat m)) as [Hi|Hi].
  - assert (Hj : j < - Z.of_nat n \/ Z.of_nat n <= j) by lia.
    rewrite (normalize_index_out j n Hj).
    destruct (normalize_index_in i m Hi) as (k & -> & _). reflexivity.
  - rewrite (normalize_index_out i m) by lia. reflexivity.
Qed.

(** ** Transposition *)

Lemma np_transpose_shape (a : ndarray) (m n : nat) :
  shape a = [m; n] -> shape (np_transpose a) = [n; m].
Proof. intros Hs. unfold np_transpose. by rewrite Hs. Qed.

Lemma np_transpose_data (a : ndarray) (m n : nat) :
  shape a = [m; n] ->
  data (np_transpose a) = tabulate2 n m (fun j i => item a (i * n + j)).
Proof. intros Hs. unfold np_transpose. by rewrite Hs. Qed.

Lemma np_transpose_dtype (a : ndarray) : dtype_of (np_transpose a) = dtype_of a.
Proof. unfold np_transpose. by destruct (shape a) as [|? [|? [|? ?]]]. Qed.

Lemma np_transpose_item (a : ndarray) (m n i j : nat) :
  shape a = [m; n] -> (i < m)%nat -> (j < n)%nat ->
  item (np_transpose a) (j * m + i) = item a (i * n + j).
Proof.
  intros Hs Hi Hj. unfold item at 1.
  rewrite (np_transpose_data a m n Hs), lookup_tabulate2 by assumption.
  reflexivity.
Qed.

Lemma np_transpose_involutive (a : ndarray) (m n : nat) :
  shape a = [m; n] -> length (data a) = (m * n)%nat ->
  np_transpose (np_transpose a) = a.
Proof.
  intros Hs Hl. destruct a as [dt sh d]. simpl in *. subst sh.
  unfold np_transpose. simpl. f_equal.
  symmetry. apply (tabulate2_eq 0); [assumption|].
  intros i j Hi Hj. unfold item. simpl.
  rewrite lookup_tabulate2 by assumption. simpl.
  destruct (lookup_lt_is_Some_2 d (i * n + j)%nat ltac:(nia)) as [x Hx].
  by rewrite Hx.
Qed.

Lemma in_int32_wrap (z : Z) : in_int32 z -> wrap_int32 z = z.
Proof.
  unfold in_int32, INT32_MIN, INT32_MAX, wrap_int32. intros H.
  rewrite Z.mod_small; lia.
Qed.

Lemma wrap_int32_range (z : Z) : in_int32 (wrap_int32 z).
Proof.
  unfold in_int32, INT32_MIN, INT32_MAX, wrap_int32.
  pose proof (Z.mod_pos_bound (z + 2 ^ 31) (2 ^ 32) ltac:(lia)). lia.
Qed.

Lemma map_wrap_int32_id (l : list Z) : Forall in_int32 l -> map wrap_int32 l = l.
Proof.
  induction 1 as [|z l Hz _ IH]; simpl; [reflexivity|].
  by rewrite in_int32_wrap, IH.
Qed.

Lemma np_any_eq_false (a : ndarray) (v : Z) :
  np_any_eq a v = false <-> Forall (fun z => z <> v) (data a).
Proof.
  unfold np_any_eq. induction (data a) as [|z l IH]; simpl.
  - split; [constructor|reflexivity].
  - rewrite orb_false_iff, IH, Forall_cons, Z.eqb_neq. intuition congruence.
Qed.

Lemma np_any_eq_true (a : ndarray) (v : Z) :
  np_any_eq a v = true <-> v ∈ data a.
Proof.
  unfold np_any_eq. rewrite existsb_exists. split.
  - intros (z & Hin & Heq). apply Z.eqb_eq in Heq. subst. by apply list_elem_of_In.
  - intros Hin. exists v. split; [by apply list_elem_of_In|apply Z.eqb_refl].
Qed.

Lemma getitem2_in (a : ndarray) (m n : nat) (i j : Z) :
  shape a = [m; n] -> length (data a) = (m * n)%nat ->
  - Z.of_nat m <= i < Z.of_nat m -> - Z.of_nat n <= j < Z.of_nat n ->
  getitem2 a i j =
    Ok (item a (Z.to_nat (if i <? 0 then Z.of_nat m + i else i) * n
                + Z.to_nat (if j <? 0 then Z.of_nat n + j else j))).
Proof.
  intros Hs Hl Hi Hj. unfold getitem2. rewrite Hs.
  destruct (normalize_index_in i m Hi) as (i' & -> & Hi' & <-).
  destruct (normalize_index_in j n Hj) as (j' & -> & Hj' & <-).
  simpl. rewrite !Nat2Z.id. unfold list_getitem, item.
  destruct (lookup_lt_is_Some_2 (data a) (i' * n + j')%nat ltac:(nia)) as [x Hx].
  by rewrite Hx.
Qed.

(** ** Sample data is well formed *)

(** Closes a decidable goal on concrete data by evaluation. *)
Ltac by_evaluation := refine (bool_decide_unpack _ _); vm_compute; exact I.

Lemma sample_2x3_wf : well_formed sample_2x3.
Proof.
  split; try reflexivity. simpl.
  repeat constructor; unfold in_int32, INT32_MIN, INT32_MAX; lia.
Qed.

Lemma sample_sym_wf : well_formed sample_sym.
Proof.
  split; try reflexivity. simpl.
  repeat constructor; unfold in_int32, INT32_MIN, INT32_MAX; lia.
Qed.

(** ** Lookup by code *)

(** C10: on a matrix of shape (m, n), a negative code [i] with
    [-m <= i < 0] does not fail: it addresses row [m + i], whether the
    column code is in [0, n) or itself negative (then column [n + j]); and a
    negative column code with a row code in [0, m) addresses column
    [n + j]. *)
Theorem get_score_by_code_negative (M : SubstitutionMatrix) (i j : Z) :
  well_formed M ->
  let m := Z.of_nat (length (_alph1 M)) in
  let n := Z.of_nat (length (_alph2 M)) in
  - m <= i < m -> - n <= j < n -> i < 0 \/ j < 0 ->
  let row := if i <? 0 then m + i else i in
  let col := if j <? 0 then n + j else j in
  get_score_by_code M i j = Ok (entry M (Z.to_nat row) (Z.to_nat col))
  /\ get_score_by_code M i j = get_score_by_code M row col.
Proof.
  intros Hwf m n Hi Hj _ row col. destruct Hwf as [_ Hs Hl _].
  assert (Hrow : 0 <= row < m) by (subst row; destruct (Z.ltb_spec i 0); lia).
  assert (Hcol : 0 <= col < n) by (subst col; destruct (Z.ltb_spec j 0); lia).
  unfold get_score_by_code, entry.
  rewrite (getitem2_in _ _ _ i j Hs Hl Hi Hj).
  rewrite (getitem2_in _ _ _ row col Hs Hl) by (subst m n; lia).
  replace (row <? 0) with false by (symmetry; apply Z.ltb_ge; lia).
  replace (col <? 0) with false by (symmetry; apply Z.ltb_ge; lia).
  split; reflexivity.
Qed.

Lemma get_score_by_code_negative_witness :
  get_score_by_code sample_2x3 (-1) 2 = Ok 6
  /\ get_score_by_code sample_2x3 (-1) 2 = get_score_by_code sample_2x3 1 2.
Proof.
  apply (get_score_by_code_negative sample_2x3 (-1) 2 sample_2x3_wf);
    simpl; lia.
Defined.

(** Codes outside [-m, m) x [-n, n) are rejected. *)
Lemma get_score_by_code_out_of_range (M : SubstitutionMatrix) (i j : Z) :
  well_formed M ->
  ~ (- Z.of_nat (length (_alph1 M)) <= i < Z.of_nat (length (_alph1 M))
     /\ - Z.of_nat (length (_alph2 M)) <= j < Z.of_nat (length (_alph2 M))) ->
  get_score_by_code M i j = Raise IndexError.
Proof.
  intros [_ Hs Hl _] H. unfold get_score_by_code.
  by apply (getitem2_out _ _ _ i j Hs Hl).
Qed.

(** ** Construction from a dense table *)

Lemma init_ndarray_checks (alphabet1 alphabet2 : Alphabet) (a : ndarray) :
  shape a = [length alphabet1; length alphabet2] ->
  is_integer (dtype_of a) = true ->
  __init__ alphabet1 alphabet2 (of_ndarray a) =
    if np_any_eq (astype_int32 a) INT32_MAX || np_any_eq (astype_int32 a) INT32_MIN
    then Raise (ValueError ScoresTooLarge)
    else Ok {| _alph1 := alphabet1; _alph2 := alphabet2; _matrix := astype_int32 a |}.
Proof.
  intros Hs Hint. unfold __init__.
  rewrite bool_decide_eq_true_2 by assumption. rewrite Hint. reflexivity.
Qed.

(** C8: for an integer table of the shape the alphabets require, the
    constructor raises the "Score values are too large" [ValueError] when an
    entry is the largest or the smallest 32-bit integer after conversion to
    [int32], and otherwise returns the matrix holding the converted table. *)
Theorem init_dense_sentinel (alphabet1 alphabet2 : Alphabet) (a : ndarray) :
  shape a = [length alphabet1; length alphabet2] ->
  is_integer (dtype_of a) = true ->
  (Exists (fun z => wrap_int32 z = INT32_MAX \/ wrap_int32 z = INT32_MIN) (data a) ->
   __init__ alphabet1 alphabet2 (of_ndarray a) = Raise (ValueError ScoresTooLarge))
  /\ (Forall (fun z => wrap_int32 z <> INT32_MAX /\ wrap_int32 z <> INT32_MIN) (data a) ->
      __init__ alphabet1 alphabet2 (of_ndarray a) =
        Ok {| _alph1 := alphabet1; _alph2 := alphabet2; _matrix := astype_int32 a |}).
Proof.
  intros Hs Hint. rewrite (init_ndarray_checks _ _ _ Hs Hint). split.
  - intros Hex. apply Exists_exists in Hex as (z & Hz & Hsent).
    assert (Hin : wrap_int32 z ∈ data (astype_int32 a)).
    { simpl. apply list_elem_of_fmap. eauto. }
    destruct Hsent as [Hmax|Hmin].
    + rewrite Hmax in Hin. apply np_any_eq_true in Hin. by rewrite Hin.
    + rewrite Hmin in Hin. apply np_any_eq_true in Hin. rewrite Hin.
      by rewrite orb_true_r.
  - intros Hall.
    assert (Hmax : np_any_eq (astype_int32 a) INT32_MAX = false).
    { apply np_any_eq_false. simpl. apply Forall_fmap.
      eapply Forall_impl; [exact Hall|]. simpl. tauto. }
    assert (Hmin : np_any_eq (astype_int32 a) INT32_MIN = false).
    { apply np_any_eq_false. simpl. apply Forall_fmap.
      eapply Forall_impl; [exact Hall|]. simpl. tauto. }
    by rewrite Hmax, Hmin.
Qed.

Lemma init_dense_sentinel_witness :
  __init__ [sym_A] [sym_A; sym_B]
    (of_ndarray {| dtype_of := int64; shape := [1%nat; 2%nat]; data := [1; 2 ^ 31] |})
  = Raise (ValueError ScoresTooLarge)
  /\ __init__ [sym_A] [sym_A; sym_B]
       (of_ndarray {| dtype_of := int64; shape := [1%nat; 2%nat]; data := [1; 2 ^ 32 + 5] |})
     = Ok {| _alph1 := [sym_A]; _alph2 := [sym_A; sym_B];
             _matrix := {| dtype_of := int32; shape := [1%nat; 2%nat]; data := [1; 5] |} |}.
Proof.
  split.
  - apply (init_dense_sentinel [sym_A] [sym_A; sym_B]
             {| dtype_of := int64; shape := [1%nat; 2%nat]; data := [1; 2 ^ 31] |});
      [reflexivity|reflexivity|].
    apply Exists_cons_tl, Exists_cons_hd. right. reflexivity.
  - apply (init_dense_sentinel [sym_A] [sym_A; sym_B]
             {| dtype_of := int64; shape := [1%nat; 2%nat]; data := [1; 2 ^ 32 + 5] |});
      [reflexivity|reflexivity|].
    repeat constructor; vm_compute; discriminate.
Defined.

(** The other two checks of the dense path. *)
Lemma init_dense_bad_shape (alphabet1 alphabet2 : Alphabet) (a : ndarray) :
  shape a <> [length alphabet1; length alphabet2] ->
  __init__ alphabet1 alphabet2 (of_ndarray a) = Raise (ValueError BadShape).
Proof.
  intros Hs. unfold __init__. by rewrite bool_decide_eq_false_2.
Qed.

Lemma init_dense_not_integer (alphabet1 alphabet2 : Alphabet) (a : ndarray) :
  shape a = [length alphabet1; length alphabet2] ->
  is_integer (dtype_of a) = false ->
  __init__ alphabet1 alphabet2 (of_ndarray a) = Raise TypeError.
Proof.
  intros Hs Hint. unfold __init__.
  rewrite bool_decide_eq_true_2 by assumption. by rewrite Hint.
Qed.

(** A matrix built from a dense table satisfies the class invariant and
    holds no extreme value. *)
Lemma init_dense_well_formed (alphabet1 alphabet2 : Alphabet) (a : ndarray)
    (M : SubstitutionMatrix) :
  length (data a) = (length alphabet1 * length alphabet2)%nat ->
  __init__ alphabet1 alphabet2 (of_ndarray a) = Ok M ->
  well_formed M /\ no_extreme (_matrix M).
Proof.
  intros Hl Hinit. unfold __init__ in Hinit.
  destruct (bool_decide (shape a = _)) eqn:Hs; simpl in Hinit; [|discriminate].
  apply bool_decide_eq_true in Hs.
  destruct (is_integer (dtype_of a)); simpl in Hinit; [|discriminate].
  destruct (np_any_eq (astype_int32 a) INT32_MAX) eqn:Hmax; simpl in Hinit; [discriminate|].
  destruct (np_any_eq (astype_int32 a) INT32_MIN) eqn:Hmin; simpl in Hinit; [discriminate|].
  injection Hinit as <-. apply np_any_eq_false in Hmax, Hmin. split.
  - split; simpl; [reflexivity|assumption|by rewrite length_map|].
    apply Forall_fmap, Forall_forall. intros z _. apply wrap_int32_range.
  - unfold no_extreme. rewrite Forall_forall in Hmax, Hmin.
    apply Forall_forall. intros z Hz. split; [by apply Hmax|by apply Hmin].
Qed.

(** ** Alphabets *)

Lemma index_of_Some (alph : Alphabet) (sym : symbol) (k : nat) :
  index_of sym alph = Some k -> alph !! k = Some sym.
Proof.
  revert k. induction alph as [|s alph IH]; intros k; simpl; [discriminate|].
  destruct (decide (s = sym)) as [->|Hne].
  - intros [= <-]. reflexivity.
  - destruct (index_of sym alph) as [k'|]; simpl; [|discriminate].
    intros [= <-]. simpl. by apply IH.
Qed.

Lemma index_of_elem (alph : Alphabet) (sym : symbol) :
  sym ∈ alph -> exists k, index_of sym alph = Some k.
Proof.
  induction alph as [|s alph IH]; intros Hin; [inversion Hin|]. simpl.
  destruct (decide (s = sym)) as [->|Hne]; [eauto|].
  apply elem_of_cons in Hin as [->|Hin]; [congruence|].
  destruct (IH Hin) as [k ->]. simpl. eauto.
Qed.

Lemma index_of_NoDup (alph : Alphabet) (sym : symbol) (k : nat) :
  NoDup alph -> alph !! k = Some sym -> index_of sym alph = Some k.
Proof.
  intros Hnd Hk. destruct (index_of_elem alph sym) as [k' Hk'].
  { by eapply list_elem_of_lookup_2. }
  rewrite Hk'. f_equal. apply index_of_Some in Hk'.
  eapply NoDup_lookup; eauto.
Qed.

Lemma encode_elem (alph : Alphabet) (sym : symbol) :
  sym ∈ alph ->
  exists k, encode alph sym = Ok (Z.of_nat k) /\ alph !! k = Some sym.
Proof.
  intros Hin. destruct (index_of_elem alph sym Hin) as [k Hk].
  exists k. unfold encode. rewrite Hk. split; [reflexivity|].
  by apply index_of_Some.
Qed.

Lemma encode_decode (alph : Alphabet) (sym : symbol) (k : nat) :
  NoDup alph -> alph !! k = Some sym -> encode alph sym = Ok (Z.of_nat k).
Proof.
  intros Hnd Hk. unfold encode. by rewrite (index_of_NoDup alph sym k Hnd Hk).
Qed.

Lemma decode_nat (alph : Alphabet) (k : nat) (sym : symbol) :
  alph !! k = Some sym -> decode alph (Z.of_nat k) = Ok sym.
Proof.
  intros Hk. unfold decode.
  replace (0 <=? Z.of_nat k) with true by (symmetry; apply Z.leb_le; lia).
  by rewrite Nat2Z.id, Hk.
Qed.

(** ** Scores by symbol *)

Lemma get_score_lookup (M : SubstitutionMatrix) (a b : symbol) (i j : nat) :
  well_formed M ->
  encode (_alph1 M) a = Ok (Z.of_nat i) -> _alph1 M !! i = Some a ->
  encode (_alph2 M) b = Ok (Z.of_nat j) -> _alph2 M !! j = Some b ->
  get_score M a b = Ok (entry M i j).
Proof.
  intros [_ Hs Hl _] Ha Hi Hb Hj. unfold get_score. rewrite Ha, Hb. simpl.
  apply (getitem2_nat _ _ _ i j Hs Hl); by eapply lookup_lt_Some.
Qed.

(** ** Transposition of a matrix *)

Lemma Forall_tabulate2 {A : Type} (P : A -> Prop) (m n : nat) (f : nat -> nat -> A) :
  (forall i j, (i < m)%nat -> (j < n)%nat -> P (f i j)) ->
  Forall P (tabulate2 m n f).
Proof.
  intros H. induction m as [|m IH]; [constructor|].
  rewrite tabulate2_S. apply Forall_app. split.
  - apply IH. intros i j Hi Hj. apply H; lia.
  - apply Forall_fmap, Forall_forall. intros j Hj.
    apply list_elem_of_In, in_seq in Hj. apply H; lia.
Qed.

Lemma item_elem (a : ndarray) (k : nat) :
  (k < length (data a))%nat -> item a k ∈ data a.
Proof.
  intros Hk. unfold item.
  destruct (lookup_lt_is_Some_2 (data a) k Hk) as [x Hx]. rewrite Hx. simpl.
  by eapply list_elem_of_lookup_2.
Qed.

Lemma np_transpose_Forall (P : Z -> Prop) (a : ndarray) (m n : nat) :
  shape a = [m; n] -> length (data a) = (m * n)%nat ->
  Forall P (data a) -> Forall P (data (np_transpose a)).
Proof.
  intros Hs Hl HP. rewrite (np_transpose_data a m n Hs).
  apply Forall_tabulate2. intros j i Hj Hi.
  rewrite Forall_forall in HP. apply HP, item_elem. nia.
Qed.

Lemma astype_int32_id (a : ndarray) :
  dtype_of a = int32 -> Forall in_int32 (data a) -> astype_int32 a = a.
Proof.
  intros Hdt Hr. destruct a as [dt sh d]. simpl in *. subst dt.
  unfold astype_int32. simpl. by rewrite map_wrap_int32_id.
Qed.

Lemma init_int32_table (alphabet1 alphabet2 : Alphabet) (a : ndarray) :
  dtype_of a = int32 -> shape a = [length alphabet1; length alphabet2] ->
  Forall in_int32 (data a) -> no_extreme a ->
  __init__ alphabet1 alphabet2 (of_ndarray a) =
    Ok {| _alph1 := alphabet1; _alph2 := alphabet2; _matrix := a |}.
Proof.
  intros Hdt Hs Hr Hne.
  rewrite (init_ndarray_checks _ _ _ Hs) by (by rewrite Hdt).
  rewrite astype_int32_id by assumption.
  assert (Hmax : np_any_eq a INT32_MAX = false).
  { apply np_any_eq_false. eapply Forall_impl; [exact Hne|]. simpl. tauto. }
  assert (Hmin : np_any_eq a INT32_MIN = false).
  { apply np_any_eq_false. eapply Forall_impl; [exact Hne|]. simpl. tauto. }
  by rewrite Hmax, Hmin.
Qed.

Lemma transpose_ok (M : SubstitutionMatrix) :
  well_formed M -> no_extreme (_matrix M) ->
  transpose M =
    Ok {| _alph1 := _alph2 M; _alph2 := _alph1 M; _matrix := np_transpose (_matrix M) |}.
Proof.
  intros [Hdt Hs Hl Hr] Hne. unfold transpose. apply init_int32_table.
  - by rewrite np_transpose_dtype.
  - by apply np_transpose_shape.
  - by eapply np_transpose_Forall.
  - unfold no_extreme. by eapply np_transpose_Forall.
Qed.

Lemma transpose_well_formed (M : SubstitutionMatrix) :
  well_formed M ->
  well_formed {| _alph1 := _alph2 M; _alph2 := _alph1 M;
                 _matrix := np_transpose (_matrix M) |}.
Proof.
  intros [Hdt Hs Hl Hr]. split; simpl.
  - by rewrite np_transpose_dtype.
  - by apply np_transpose_shape.
  - rewrite (np_transpose_data _ _ _ Hs), length_tabulate2. reflexivity.
  - by eapply np_transpose_Forall.
Qed.

(** X28: on a matrix that satisfies the class invariant and holds neither
    extreme 32-bit integer, [transpose] returns the matrix with the two
    alphabets swapped and the table transposed, and the score of [(b, a)]
    in it is the score of [(a, b)] in the original, for [a] in alphabet 1
    and [b] in alphabet 2. *)
Theorem transpose_get_score (M : SubstitutionMatrix) (a b : symbol) :
  well_formed M -> no_extreme (_matrix M) ->
  a ∈ _alph1 M -> b ∈ _alph2 M ->
  exists Mt v,
    transpose M = Ok Mt
    /\ _alph1 Mt = _alph2 M /\ _alph2 Mt = _alph1 M
    /\ _matrix Mt = np_transpose (_matrix M)
    /\ get_score M a b = Ok v /\ get_score Mt b a = Ok v.
Proof.
  intros Hwf Hne Ha Hb.
  destruct (encode_elem _ _ Ha) as (i & Hei & Hi).
  destruct (encode_elem _ _ Hb) as (j & Hej & Hj).
  eexists _, (entry M i j). rewrite (transpose_ok M Hwf Hne).
  split; [reflexivity|]. simpl. do 3 (split; [reflexivity|]).
  split; [by apply get_score_lookup|].
  rewrite (get_score_lookup _ b a j i (transpose_well_formed M Hwf)) by assumption.
  f_equal. unfold entry. simpl. destruct Hwf as [_ Hs _ _].
  apply (np_transpose_item _ _ _ i j Hs); by eapply lookup_lt_Some.
Qed.

Lemma transpose_get_score_witness :
  exists Mt v,
    transpose sample_2x3 = Ok Mt
    /\ _alph1 Mt = _alph2 sample_2x3 /\ _alph2 Mt = _alph1 sample_2x3
    /\ _matrix Mt = np_transpose (_matrix sample_2x3)
    /\ get_score sample_2x3 sym_B sym_C = Ok v /\ get_score Mt sym_C sym_B = Ok v.
Proof.
  apply (transpose_get_score sample_2x3 sym_B sym_C sample_2x3_wf).
  - unfold no_extreme. simpl. repeat constructor; vm_compute; discriminate.
  - simpl. apply list_elem_of_further, list_elem_of_here.
  - simpl. do 2 apply list_elem_of_further. apply list_elem_of_here.
Defined.

(** C6 at a matrix that holds the largest 32-bit integer.  The constructor
    builds the matrix from a pairing map, whose branch has no check for the
    extreme values, and [get_score] gives that integer for the pair
    [(A, A)]: the claim's equation has a value to meet.  [transpose],
    which rebuilds the matrix through the dense-table branch and its check,
    raises [ValueError] instead of returning the transposed matrix. *)
Theorem transpose_refuses_extreme :
  __init__ [sym_A] [sym_A] (of_dict extreme_dict) = Ok extreme_matrix
  /\ get_score extreme_matrix sym_A sym_A = Ok INT32_MAX
  /\ transpose extreme_matrix = Raise (ValueError ScoresTooLarge).
Proof. repeat split; vm_compute; reflexivity. Qed.

(** ** Symmetry *)

Lemma np_array_equal_transpose (a : ndarray) (m : nat) :
  shape a = [m; m] -> length (data a) = (m * m)%nat ->
  np_array_equal a (np_transpose a) = true
  <-> forall i j, (i < m)%nat -> (j < m)%nat -> item a (i * m + j) = item a (j * m + i).
Proof.
  intros Hs Hl. unfold np_array_equal.
  rewrite (np_transpose_shape a m m Hs), Hs.
  rewrite bool_decide_eq_true_2 by reflexivity. simpl.
  rewrite bool_decide_eq_true, (np_transpose_data a m m Hs). split.
  - intros Heq i j Hi Hj. unfold item at 1. rewrite Heq.
    by rewrite lookup_tabulate2.
  - intros Hsym. apply (tabulate2_eq 0); [assumption|].
    intros i j Hi Hj. rewrite <- Hsym by assumption. unfold item.
    destruct (lookup_lt_is_Some_2 (data a) (i * m + j)%nat ltac:(nia)) as [x Hx].
    by rewrite Hx.
Qed.

Lemma is_symmetric_entries (M : SubstitutionMatrix) :
  well_formed M ->
  is_symmetric M = true
  <-> _alph1 M = _alph2 M
      /\ forall i j, (i < length (_alph1 M))%nat -> (j < length (_alph2 M))%nat ->
                     entry M i j = entry M j i.
Proof.
  intros [_ Hs Hl _]. unfold is_symmetric, entry.
  rewrite andb_true_iff, bool_decide_eq_true. split.
  - intros [Heq Harr]. split; [assumption|]. rewrite <- Heq in *.
    by apply (np_array_equal_transpose _ _ Hs Hl).
  - intros [Heq Hsym]. split; [assumption|]. rewrite <- Heq in *.
    by apply (np_array_equal_transpose _ _ Hs Hl).
Qed.

(** C7: [is_symmetric] is true exactly when the two alphabets are equal and
    the table equals its transpose entry by entry; for an alphabet without
    repeated symbols that is, equivalently, when the two alphabets are equal
    and the score of [(a, b)] is the score of [(b, a)] for all symbols
    [a], [b] of the alphabet. *)
Theorem is_symmetric_iff (M : SubstitutionMatrix) :
  well_formed M -> NoDup (_alph1 M) ->
  (is_symmetric M = true
   <-> _alph1 M = _alph2 M
       /\ forall i j, (i < length (_alph1 M))%nat -> (j < length (_alph2 M))%nat ->
                      entry M i j = entry M j i)
  /\ (is_symmetric M = true
      <-> _alph1 M = _alph2 M
          /\ forall a b, a ∈ _alph1 M -> b ∈ _alph1 M ->
                         get_score M a b = get_score M b a).
Proof.
  intros Hwf Hnd. split; [by apply is_symmetric_entries|].
  rewrite (is_symmetric_entries M Hwf). split.
  - intros [Heq Hsym]. split; [assumption|]. intros a b Ha Hb.
    destruct (encode_elem _ _ Ha) as (i & Hei & Hi).
    destruct (encode_elem _ _ Hb) as (j & Hej & Hj).
    rewrite (get_score_lookup M a b i j), (get_score_lookup M b a j i);
      try assumption; try (rewrite <- Heq; assumption).
    f_equal. apply Hsym; [|rewrite <- Heq]; by eapply lookup_lt_Some.
  - intros [Heq Hsym]. split; [assumption|]. intros i j Hi Hj.
    rewrite <- Heq in Hj.
    destruct (lookup_lt_is_Some_2 _ _ Hi) as [a Ha].
    destruct (lookup_lt_is_Some_2 _ _ Hj) as [b Hb].
    pose proof (encode_decode _ _ _ Hnd Ha) as Hea.
    pose proof (encode_decode _ _ _ Hnd Hb) as Heb.
    specialize (Hsym a b (list_elem_of_lookup_2 _ _ _ Ha) (list_elem_of_lookup_2 _ _ _ Hb)).
    rewrite (get_score_lookup M a b i j), (get_score_lookup M b a j i) in Hsym;
      try assumption; try (rewrite <- Heq; assumption).
    congruence.
Qed.

Lemma is_symmetric_iff_witness :
  (is_symmetric sample_sym = true
   <-> _alph1 sample_sym = _alph2 sample_sym
       /\ forall i j, (i < length (_alph1 sample_sym))%nat ->
                      (j < length (_alph2 sample_sym))%nat ->
                      entry sample_sym i j = entry sample_sym j i)
  /\ (is_symmetric sample_sym = true
      <-> _alph1 sample_sym = _alph2 sample_sym
          /\ forall a b, a ∈ _alph1 sample_sym -> b ∈ _alph1 sample_sym ->
                         get_score sample_sym a b = get_score sample_sym b a).
Proof.
  apply (is_symmetric_iff sample_sym sample_sym_wf).
  simpl. apply NoDup_cons. split.
  - intros H. apply list_elem_of_singleton in H. discriminate.
  - apply NoDup_singleton.
Defined.

Example is_symmetric_sample : is_symmetric sample_sym = true.
Proof. reflexivity. Qed.

Example is_symmetric_sample_2x3 : is_symmetric sample_2x3 = false.
Proof. reflexivity. Qed.

(** ** The cartesian product of two code arrays *)

Lemma length_np_repeat (a : list Z) (k : nat) :
  length (np_repeat a k) = (length a * k)%nat.
Proof.
  unfold np_repeat. induction a as [|x a IH]; simpl; [reflexivity|].
  rewrite length_app, length_replicate, IH. reflexivity.
Qed.

Lemma length_np_tile (a : list Z) (k : nat) :
  length (np_tile a k) = (k * length a)%nat.
Proof.
  unfold np_tile. induction k as [|k IH]; simpl; [reflexivity|].
  rewrite length_app, IH. reflexivity.
Qed.

Lemma lookup_np_repeat (a : list Z) (k p q : nat) (x : Z) :
  a !! p = Some x -> (q < k)%nat -> np_repeat a k !! (p * k + q)%nat = Some x.
Proof.
  unfold np_repeat. revert p. induction a as [|y a IH]; intros p Hp Hq; [done|].
  simpl. destruct p as [|p]; simpl in *.
  - injection Hp as ->. rewrite lookup_app_l by (rewrite length_replicate; lia).
    by apply lookup_replicate_2.
  - rewrite lookup_app_r by (rewrite length_replicate; lia).
    rewrite length_replicate.
    replace (k + p * k + q - k)%nat with (p * k + q)%nat by lia. by apply IH.
Qed.

Lemma lookup_np_tile (a : list Z) (k p q : nat) (x : Z) :
  (p < k)%nat -> a !! q = Some x ->
  np_tile a k !! (p * length a + q)%nat = Some x.
Proof.
  unfold np_tile. revert p. induction k as [|k IH]; intros p Hp Hq; [lia|].
  simpl. pose proof (lookup_lt_Some _ _ _ Hq) as Hlt. destruct p as [|p]; simpl.
  - by rewrite lookup_app_l.
  - rewrite lookup_app_r by lia.
    replace (length a + p * length a + q - length a)%nat
      with (p * length a + q)%nat by lia.
    apply IH; [lia|assumption].
Qed.

Lemma zip_repeat_tile (c1 c2 : list Z) :
  zip (np_repeat c1 (length c2)) (np_tile c2 (length c1))
  = tabulate2 (length c1) (length c2)
      (fun p q => (default 0 (c1 !! p), default 0 (c2 !! q))).
Proof.
  apply (tabulate2_eq (0, 0)).
  - rewrite length_zip_with, length_np_repeat, length_np_tile. lia.
  - intros p q Hp Hq.
    destruct (lookup_lt_is_Some_2 c1 p Hp) as [x Hx].
    destruct (lookup_lt_is_Some_2 c2 q Hq) as [y Hy].
    rewrite lookup_zip_with.
    rewrite (lookup_np_repeat c1 _ p q x Hx Hq). simpl.
    rewrite (lookup_np_tile c2 _ p q y Hp Hy). simpl.
    by rewrite Hx, Hy.
Qed.

Lemma map_tabulate2 {A B : Type} (g : A -> B) (m n : nat) (f : nat -> nat -> A) :
  map g (tabulate2 m n f) = tabulate2 m n (fun i j => g (f i j)).
Proof.
  induction m as [|m IH]; [reflexivity|].
  rewrite !tabulate2_S, map_app, IH, map_map. reflexivity.
Qed.

Lemma elem_of_tabulate2 {A : Type} (m n : nat) (f : nat -> nat -> A) (x : A) :
  x ∈ tabulate2 m n f -> exists i j, (i < m)%nat /\ (j < n)%nat /\ x = f i j.
Proof.
  induction m as [|m IH]; [intros H; inversion H|].
  rewrite tabulate2_S, elem_of_app. intros [H|H].
  - destruct (IH H) as (i & j & Hi & Hj & ->). exists i, j. split; [lia|auto].
  - apply list_elem_of_fmap in H as (j & -> & Hj).
    apply list_elem_of_In, in_seq in Hj. exists m, j. split; [lia|]. split; [lia|reflexivity].
Qed.

(** The index arrays that [as_positional] passes to the table are the two
    rows [np.repeat(code1, n2)] and [np.tile(code2, n1)]. *)
Lemma cartesian_product_rows (c1 c2 : list Z) :
  rows_of (np_transpose (_cartesian_product c1 c2))
  = [np_repeat c1 (length c2); np_tile c2 (length c1)].
Proof.
  unfold _cartesian_product.
  set (r1 := np_repeat c1 (length c2)). set (r2 := np_tile c2 (length c1)).
  assert (H1 : length r1 = (length c1 * length c2)%nat) by apply length_np_repeat.
  assert (H2 : length r2 = (length c1 * length c2)%nat) by apply length_np_tile.
  rewrite (np_transpose_involutive _ 2 (length r1)).
  - unfold rows_of, np_array_rows. simpl. rewrite app_nil_r.
    rewrite Nat.add_0_r, drop_0, take_app_length, drop_app_length.
    rewrite H1, <- H2, firstn_all. reflexivity.
  - reflexivity.
  - unfold np_array_rows. simpl. rewrite app_nil_r, length_app. lia.
Qed.

Lemma getitem2_valid (a : ndarray) (m n : nat) (i j : Z) :
  shape a = [m; n] -> length (data a) = (m * n)%nat ->
  0 <= i < Z.of_nat m -> 0 <= j < Z.of_nat n ->
  getitem2 a i j = Ok (item a (Z.to_nat i * n + Z.to_nat j)).
Proof.
  intros Hs Hl Hi Hj.
  rewrite <- (Z2Nat.id i), <- (Z2Nat.id j) at 1 by lia.
  apply (getitem2_nat a m n); [assumption|assumption|lia|lia].
Qed.

Lemma valid_codes_lookup (alph : Alphabet) (codes : list Z) (p : nat) :
  valid_codes alph codes -> (p < length codes)%nat ->
  exists c, codes !! p = Some c /\ 0 <= c < Z.of_nat (length alph).
Proof.
  intros Hv Hp. destruct (lookup_lt_is_Some_2 codes p Hp) as [c Hc].
  exists c. split; [assumption|].
  unfold valid_codes in Hv. rewrite Forall_forall in Hv.
  apply Hv. by eapply list_elem_of_lookup_2.
Qed.

Lemma length_positional_alphabet (s : Sequence) :
  length (get_alphabet (PositionalSequence s)) = length (code s).
Proof. simpl. unfold range. by rewrite length_map, length_seq. Qed.

(** ** The positional transformation *)

Arguments __init__ : simpl never.

Lemma as_positional_ok (M : SubstitutionMatrix) (s1 s2 : Sequence) :
  well_formed M -> no_extreme (_matrix M) ->
  valid_codes (_alph1 M) (code s1) -> valid_codes (_alph2 M) (code s2) ->
  as_positional M s1 s2 =
    Ok ({| _alph1 := get_alphabet (PositionalSequence s1);
           _alph2 := get_alphabet (PositionalSequence s2);
           _matrix := positional_table M (code s1) (code s2) |},
        PositionalSequence s1, PositionalSequence s2).
Proof.
  intros [Hdt Hs Hl Hr] Hne Hv1 Hv2. unfold as_positional.
  rewrite cartesian_product_rows. unfold getitem_arrays.
  rewrite zip_repeat_tile.
  set (n := length (_alph2 M)).
  rewrite (comprehension_ok _
             (fun ij => item (_matrix M) (Z.to_nat ij.1 * n + Z.to_nat ij.2))).
  2:{ intros ij Hij. apply elem_of_tabulate2 in Hij as (p & q & Hp & Hq & ->).
      destruct (valid_codes_lookup _ _ p Hv1 Hp) as (c1 & -> & Hc1).
      destruct (valid_codes_lookup _ _ q Hv2 Hq) as (c2 & -> & Hc2).
      simpl. by apply (getitem2_valid _ _ _ c1 c2 Hs Hl). }
  simpl. rewrite map_tabulate2. unfold reshape. simpl.
  rewrite decide_True by apply length_tabulate2. simpl.
  rewrite Hdt.
  assert (Hin : forall p q, (p < length (code s1))%nat -> (q < length (code s2))%nat ->
            item (_matrix M) (Z.to_nat (default 0 (code s1 !! p)) * n
                              + Z.to_nat (default 0 (code s2 !! q)))
            ∈ data (_matrix M)).
  { intros p q Hp Hq.
    destruct (valid_codes_lookup _ _ p Hv1 Hp) as (c1 & -> & Hc1).
    destruct (valid_codes_lookup _ _ q Hv2 Hq) as (c2 & -> & Hc2).
    simpl. apply item_elem. rewrite Hl. subst n. nia. }
  rewrite init_int32_table; [reflexivity|reflexivity| | |].
  - simpl. unfold range. by rewrite !length_map, !length_seq.
  - simpl. apply Forall_tabulate2. intros p q Hp Hq.
    rewrite Forall_forall in Hr. by apply Hr, Hin.
  - unfold no_extreme. simpl. apply Forall_tabulate2. intros p q Hp Hq.
    unfold no_extreme in Hne. rewrite Forall_forall in Hne. by apply Hne, Hin.
Qed.

(** X27: on a matrix that satisfies the class invariant and holds neither
    extreme 32-bit integer, over alphabets without repeated symbols,
    [as_positional] returns a matrix whose score by code at the positions
    [(p, q)] is the score the original matrix gives to the symbols
    [sequence1[p]] and [sequence2[q]], for all positions of two sequences
    over the two alphabets. *)
Theorem as_positional_scores (M : SubstitutionMatrix) (s1 s2 : Sequence) :
  well_formed M -> no_extreme (_matrix M) ->
  NoDup (_alph1 M) -> NoDup (_alph2 M) ->
  get_alphabet s1 = _alph1 M -> get_alphabet s2 = _alph2 M ->
  valid_codes (_alph1 M) (code s1) -> valid_codes (_alph2 M) (code s2) ->
  exists pos_matrix pos_sequence1 pos_sequence2,
    as_positional M s1 s2 = Ok (pos_matrix, pos_sequence1, pos_sequence2)
    /\ forall p q, (p < length (code s1))%nat -> (q < length (code s2))%nat ->
         exists a b v,
           seq_getitem s1 p = Ok a /\ seq_getitem s2 q = Ok b
           /\ get_score M a b = Ok v
           /\ get_score_by_code pos_matrix (Z.of_nat p) (Z.of_nat q) = Ok v.
Proof.
  intros Hwf Hne Hnd1 Hnd2 Ha1 Ha2 Hv1 Hv2.
  do 3 eexists. split; [by apply as_positional_ok|].
  intros p q Hp Hq.
  destruct (valid_codes_lookup _ _ p Hv1 Hp) as (c1 & Hc1 & Hr1).
  destruct (valid_codes_lookup _ _ q Hv2 Hq) as (c2 & Hc2 & Hr2).
  destruct (lookup_lt_is_Some_2 (_alph1 M) (Z.to_nat c1) ltac:(lia)) as [a Hsa].
  destruct (lookup_lt_is_Some_2 (_alph2 M) (Z.to_nat c2) ltac:(lia)) as [b Hsb].
  exists a, b, (entry M (Z.to_nat c1) (Z.to_nat c2)).
  split; [|split; [|split]].
  - unfold seq_getitem, list_getitem. rewrite Hc1, Ha1. simpl.
    rewrite <- (Z2Nat.id c1) by lia. by apply decode_nat.
  - unfold seq_getitem, list_getitem. rewrite Hc2, Ha2. simpl.
    rewrite <- (Z2Nat.id c2) by lia. by apply decode_nat.
  - apply get_score_lookup; try assumption; by apply encode_decode.
  - unfold get_score_by_code. simpl.
    rewrite (getitem2_nat _ (length (code s1)) (length (code s2)) p q);
      [|reflexivity|apply length_tabulate2|assumption|assumption].
    unfold item. simpl. rewrite lookup_tabulate2 by assumption.
    by rewrite Hc1, Hc2.
Qed.

Lemma as_positional_scores_witness :
  exists pos_matrix pos_sequence1 pos_sequence2,
    as_positional sample_2x3 sample_seq1 sample_seq2
      = Ok (pos_matrix, pos_sequence1, pos_sequence2)
    /\ forall p q, (p < length (code sample_seq1))%nat ->
                   (q < length (code sample_seq2))%nat ->
         exists a b v,
           seq_getitem sample_seq1 p = Ok a /\ seq_getitem sample_seq2 q = Ok b
           /\ get_score sample_2x3 a b = Ok v
           /\ get_score_by_code pos_matrix (Z.of_nat p) (Z.of_nat q) = Ok v.
Proof.
  apply (as_positional_scores sample_2x3 sample_seq1 sample_seq2 sample_2x3_wf).
  - unfold no_extreme. by_evaluation.
  - by_evaluation.
  - by_evaluation.
  - reflexivity.
  - reflexivity.
  - unfold valid_codes. by_evaluation.
  - unfold valid_codes. by_evaluation.
Defined.

Example as_positional_sample :
  as_positional sample_2x3 sample_seq1 sample_seq2 =
    Ok ({| _alph1 := [Int 0; Int 1; Int 2]; _alph2 := [Int 0; Int 1];
           _matrix := {| dtype_of := int32; shape := [3%nat; 2%nat];
                         data := [6; 4; 3; 1; 6; 4] |} |},
        PositionalSequence sample_seq1, PositionalSequence sample_seq2).
Proof. reflexivity. Qed.

(** C3 at a matrix that holds the largest 32-bit integer.  The constructor
    builds the matrix from a pairing map, whose branch has no check for the
    extreme values; the sequence [A] is a sequence over its alphabet, and
    [get_score] gives that integer for its first symbol paired with itself:
    the claim's equation has a value to meet.  [as_positional], which
    builds the positional matrix through the dense-table branch and its
    check, raises [ValueError] instead of returning a positional matrix. *)
Theorem as_positional_refuses_extreme :
  __init__ [sym_A] [sym_A] (of_dict extreme_dict) = Ok extreme_matrix
  /\ valid_codes (_alph1 extreme_matrix) (code seq_A)
  /\ (let* a := seq_getitem seq_A 0 in get_score extreme_matrix a a) = Ok INT32_MAX
  /\ as_positional extreme_matrix seq_A seq_A = Raise (ValueError ScoresTooLarge).
Proof.
  split; [vm_compute; reflexivity|]. split; [unfold valid_codes; by_evaluation|].
  split; vm_compute; reflexivity.
Qed.

(** ** Construction from a pairing map *)

Lemma for_each_flat_map {A B S : Type} (f : A -> list B) (l : list A)
    (body : S -> B -> result S) (s : S) :
  for_each (flat_map f l) body s
  = for_each l (fun s x => for_each (f x) body s) s.
Proof.
  revert s. induction l as [|x l IH]; intros s; simpl; [reflexivity|].
  rewrite for_each_app. destruct (for_each (f x) body s); simpl; auto.
Qed.

Lemma for_each_map {A B S : Type} (g : A -> B) (l : list A)
    (body : S -> B -> result S) (s : S) :
  for_each (map g l) body s = for_each l (fun s x => body s (g x)) s.
Proof.
  revert s. induction l as [|x l IH]; intros s; simpl; [reflexivity|].
  destruct (body s (g x)); simpl; auto.
Qed.

(** Nested loops over [range(m)] and [range(n)] visit the cells in
    row-major order. *)
Lemma for_each_nested {S : Type} (m n : nat) (body : S -> nat * nat -> result S) (s : S) :
  for_each (range m) (fun s i => for_each (range n) (fun s j => body s (i, j)) s) s
  = for_each (cells m n) body s.
Proof.
  unfold cells, tabulate2. rewrite for_each_flat_map.
  apply for_each_ext. intros s' i _. by rewrite for_each_map.
Qed.

Lemma lookup_cells (m n k i j : nat) :
  cells m n !! k = Some (i, j) -> (i < m)%nat /\ (j < n)%nat /\ k = (i * n + j)%nat.
Proof.
  intros Hk. pose proof (lookup_lt_Some _ _ _ Hk) as Hlt.
  unfold cells in *. rewrite length_tabulate2 in Hlt.
  assert (Hn : (0 < n)%nat) by nia.
  assert (Hdiv : (k `div` n < m)%nat) by (apply Nat.Div0.div_lt_upper_bound; lia).
  assert (Hmod : (k `mod` n < n)%nat) by (apply Nat.mod_upper_bound; lia).
  assert (Hk' : k = (k `div` n * n + k `mod` n)%nat).
  { rewrite (Nat.div_mod_eq k n) at 1. lia. }
  rewrite Hk', lookup_tabulate2 in Hk by assumption.
  injection Hk as <- <-. auto.
Qed.

Lemma elem_of_cells (m n i j : nat) :
  (i, j) ∈ cells m n <-> (i < m)%nat /\ (j < n)%nat.
Proof.
  split.
  - intros H. apply elem_of_tabulate2 in H as (i' & j' & Hi & Hj & [= -> ->]). auto.
  - intros [Hi Hj]. eapply list_elem_of_lookup_2. unfold cells.
    by apply lookup_tabulate2.
Qed.

Lemma setitem2_nat (a : ndarray) (m n i j : nat) (v : Z) :
  shape a = [m; n] -> (i < m)%nat -> (j < n)%nat ->
  setitem2 a (Z.of_nat i) (Z.of_nat j) v =
    if (INT32_MIN <=? v) && (v <=? INT32_MAX) then
      Ok {| dtype_of := dtype_of a; shape := shape a;
            data := <[(i * n + j)%nat := v]> (data a) |}
    else Raise OverflowError.
Proof.
  intros Hs Hi Hj. unfold setitem2. rewrite Hs.
  rewrite !normalize_index_nonneg by assumption. reflexivity.
Qed.

(** The loops of [_fill_with_matrix_dict], started on a table whose first
    cells are filled and whose other cells are still zero. *)
Lemma fill_loop (alph1 alph2 : Alphabet) (d : matrix_dict_t) (m n : nat)
    (todo : list (nat * nat)) (filled : list Z) :
  (forall k i j, todo !! k = Some (i, j) ->
     (i < m)%nat /\ (j < n)%nat /\ (length filled + k = i * n + j)%nat) ->
  for_each todo
    (fun matrix ij =>
       let* sym1 := decode alph1 (Z.of_nat ij.1) in
       let* sym2 := decode alph2 (Z.of_nat ij.2) in
       let* v := dict_getitem d sym1 sym2 in
       setitem2 matrix (Z.of_nat ij.1) (Z.of_nat ij.2) v)
    {| dtype_of := int32; shape := [m; n];
       data := filled ++ replicate (length todo) 0 |}
  = let* vals := comprehension (stored_value alph1 alph2 d) todo in
    Ok {| dtype_of := int32; shape := [m; n]; data := filled ++ vals |}.
Proof.
  revert filled. induction todo as [|[i j] todo IH]; intros filled Hpos.
  - simpl. reflexivity.
  - destruct (Hpos 0%nat i j eq_refl) as (Hi & Hj & Hk).
    simpl. unfold stored_value at 1. simpl.
    destruct (decode alph1 (Z.of_nat i)) as [sym1|e]; simpl; [|reflexivity].
    destruct (decode alph2 (Z.of_nat j)) as [sym2|e]; simpl; [|reflexivity].
    destruct (dict_getitem d sym1 sym2) as [v|e]; simpl; [|reflexivity].
    rewrite (setitem2_nat _ m n i j v) by (assumption || reflexivity).
    destruct ((INT32_MIN <=? v) && (v <=? INT32_MAX)); simpl; [|reflexivity].
    replace (i * n + j)%nat with (length filled + 0)%nat by lia.
    rewrite insert_app_r. simpl.
    replace (filled ++ v :: replicate (length todo) 0)
      with ((filled ++ [v]) ++ replicate (length todo) 0)
      by (by rewrite <- app_assoc).
    rewrite IH.
    + destruct (comprehension (stored_value alph1 alph2 d) todo); simpl;
        [|reflexivity].
      by rewrite <- app_assoc.
    + intros k i' j' Hk'. destruct (Hpos (S k) i' j' Hk') as (? & ? & ?).
      rewrite length_app. simpl. repeat split; [assumption|assumption|lia].
Qed.

(** [_fill_with_matrix_dict] computes the table of the stored values, or
    raises what the first failing cell raises. *)
Lemma fill_with_matrix_dict_spec (alph1 alph2 : Alphabet) (d : matrix_dict_t) :
  _fill_with_matrix_dict alph1 alph2 d
  = let* vals := comprehension (stored_value alph1 alph2 d)
                   (cells (length alph1) (length alph2)) in
    Ok {| dtype_of := int32; shape := [length alph1; length alph2]; data := vals |}.
Proof.
  unfold _fill_with_matrix_dict.
  rewrite (for_each_nested (length alph1) (length alph2)
             (fun matrix ij =>
                let* sym1 := decode alph1 (Z.of_nat ij.1) in
                let* sym2 := decode alph2 (Z.of_nat ij.2) in
                let* v := dict_getitem d sym1 sym2 in
                setitem2 matrix (Z.of_nat ij.1) (Z.of_nat ij.2) v)).
  unfold np_zeros.
  replace (length alph1 * length alph2)%nat
    with (length (cells (length alph1) (length alph2)))
    by apply length_tabulate2.
  apply (fill_loop alph1 alph2 d _ _ _ []).
  intros k i j Hk. apply lookup_cells in Hk. simpl. tauto.
Qed.

Lemma comprehension_inv {A B : Type} (f : A -> result B) (l : list A) (ys : list B) :
  comprehension f l = Ok ys -> Forall2 (fun x y => f x = Ok y) l ys.
Proof.
  revert ys. induction l as [|x l IH]; intros ys; simpl.
  - intros [= <-]. constructor.
  - destruct (f x) as [y|e] eqn:Hx; simpl; [|discriminate].
    destruct (comprehension f l) as [ys'|e]; simpl; [|discriminate].
    intros [= <-]. constructor; auto.
Qed.

(** A comprehension returns a list or raises what one of its elements
    raises. *)
Lemma comprehension_cases {A B : Type} (f : A -> result B) (l : list A) :
  (exists ys, comprehension f l = Ok ys)
  \/ (exists x e, x ∈ l /\ f x = Raise e /\ comprehension f l = Raise e).
Proof.
  induction l as [|x l IH]; simpl; [left; eauto|].
  destruct (f x) as [y|e] eqn:Hx; simpl.
  - destruct IH as [[ys ->]|(x' & e & Hin & Hx' & ->)]; simpl.
    + left. eauto.
    + right. exists x', e. split; [by constructor|auto].
  - right. exists x, e. split; [constructor|auto].
Qed.

Lemma stored_value_at (alph1 alph2 : Alphabet) (d : matrix_dict_t)
    (i j : nat) (s1 s2 : symbol) :
  alph1 !! i = Some s1 -> alph2 !! j = Some s2 ->
  stored_value alph1 alph2 d (i, j) =
    match d !! (s1, s2) with
    | None => Raise (KeyError s1 s2)
    | Some v =>
        if (INT32_MIN <=? v) && (v <=? INT32_MAX) then Ok v else Raise OverflowError
    end.
Proof.
  intros H1 H2. unfold stored_value. simpl.
  rewrite (decode_nat _ _ _ H1), (decode_nat _ _ _ H2). simpl.
  unfold dict_getitem. by destruct (d !! (s1, s2)).
Qed.

Lemma in_int32_test (v : Z) :
  (INT32_MIN <=? v) && (v <=? INT32_MAX) = true <-> in_int32 v.
Proof. unfold in_int32. rewrite andb_true_iff, Z.leb_le, Z.leb_le. tauto. Qed.

Lemma in_int32_test_false (v : Z) :
  (INT32_MIN <=? v) && (v <=? INT32_MAX) = false <-> ~ in_int32 v.
Proof. rewrite <- in_int32_test. by destruct (_ && _). Qed.

Lemma init_dict_spec (alph1 alph2 : Alphabet) (d : matrix_dict_t) :
  __init__ alph1 alph2 (of_dict d)
  = let* vals := comprehension (stored_value alph1 alph2 d)
                   (cells (length alph1) (length alph2)) in
    Ok {| _alph1 := alph1; _alph2 := alph2;
          _matrix := {| dtype_of := int32; shape := [length alph1; length alph2];
                        data := vals |} |}.
Proof.
  unfold __init__. rewrite fill_with_matrix_dict_spec.
  by destruct (comprehension _ _).
Qed.

(** What a failing construction from a pairing map raises: the [KeyError]
    of a missing pairing, or [OverflowError] for a value that does not fit
    32 bits. *)
Lemma init_dict_raises (alph1 alph2 : Alphabet) (d : matrix_dict_t) (e : exn) :
  __init__ alph1 alph2 (of_dict d) = Raise e ->
  (exists t1 t2, t1 ∈ alph1 /\ t2 ∈ alph2 /\ d !! (t1, t2) = None /\ e = KeyError t1 t2)
  \/ (e = OverflowError
      /\ exists t1 t2 v, t1 ∈ alph1 /\ t2 ∈ alph2 /\ d !! (t1, t2) = Some v /\ ~ in_int32 v).
Proof.
  rewrite init_dict_spec.
  destruct (comprehension_cases (stored_value alph1 alph2 d)
              (cells (length alph1) (length alph2)))
    as [[ys ->]|([i j] & e' & Hin & Hx & ->)]; simpl; [discriminate|].
  intros [= <-]. apply elem_of_cells in Hin as [Hi Hj].
  destruct (lookup_lt_is_Some_2 _ _ Hi) as [t1 Ht1].
  destruct (lookup_lt_is_Some_2 _ _ Hj) as [t2 Ht2].
  pose proof (list_elem_of_lookup_2 _ _ _ Ht1).
  pose proof (list_elem_of_lookup_2 _ _ _ Ht2).
  rewrite (stored_value_at _ _ _ _ _ _ _ Ht1 Ht2) in Hx.
  destruct (d !! (t1, t2)) as [v|] eqn:Hd.
  - destruct (_ && _) eqn:Hr; [discriminate|]. injection Hx as <-.
    right. split; [reflexivity|]. exists t1, t2, v.
    apply in_int32_test_false in Hr. auto.
  - injection Hx as <-. left. exists t1, t2. auto.
Qed.

(** C9, as the code has it: a pairing map that lacks the entry of a symbol
    of alphabet 1 paired with a symbol of alphabet 2 builds no matrix: the
    constructor raises, and what it raises is the [KeyError] of a missing
    pairing (when the values of the map are 32-bit integers, always), or
    else [OverflowError] for a value that does not fit 32 bits and is
    stored before the missing pairing is reached. *)
Theorem init_dict_missing (alph1 alph2 : Alphabet) (d : matrix_dict_t)
    (s1 s2 : symbol) :
  s1 ∈ alph1 -> s2 ∈ alph2 -> d !! (s1, s2) = None ->
  (forall M, __init__ alph1 alph2 (of_dict d) <> Ok M)
  /\ (exists e, __init__ alph1 alph2 (of_dict d) = Raise e
        /\ ((exists t1 t2, t1 ∈ alph1 /\ t2 ∈ alph2 /\ d !! (t1, t2) = None
                           /\ e = KeyError t1 t2)
            \/ (e = OverflowError
                /\ exists t1 t2 v, t1 ∈ alph1 /\ t2 ∈ alph2
                                   /\ d !! (t1, t2) = Some v /\ ~ in_int32 v)))
  /\ (map_Forall (fun _ v => in_int32 v) d ->
      exists t1 t2, t1 ∈ alph1 /\ t2 ∈ alph2 /\ d !! (t1, t2) = None
                    /\ __init__ alph1 alph2 (of_dict d) = Raise (KeyError t1 t2)).
Proof.
  intros H1 H2 Hmiss.
  assert (Hfail : is_ok (__init__ alph1 alph2 (of_dict d)) = false).
  { rewrite init_dict_spec.
    apply list_elem_of_lookup_1 in H1 as [i Hi], H2 as [j Hj].
    assert (Hraise : is_ok (comprehension (stored_value alph1 alph2 d)
                              (cells (length alph1) (length alph2))) = false).
    { apply (comprehension_raises _ _ (i, j)).
      - apply elem_of_cells. split; by eapply lookup_lt_Some.
      - by rewrite (stored_value_at _ _ _ _ _ _ _ Hi Hj), Hmiss. }
    by destruct (comprehension _ _). }
  destruct (__init__ alph1 alph2 (of_dict d)) as [M|e] eqn:Hinit; [discriminate|].
  pose proof (init_dict_raises _ _ _ _ Hinit) as Hcases.
  split; [discriminate|]. split; [eauto|].
  intros Hrange. destruct Hcases as [(t1 & t2 & ? & ? & ? & ->)|[_ (t1 & t2 & v & _ & _ & Hv & Hout)]].
  - exists t1, t2. auto.
  - exfalso. apply Hout. by apply (Hrange (t1, t2) v).
Qed.

Lemma init_dict_missing_witness :
  (forall M, __init__ [sym_A; sym_B] [sym_A; sym_B] (of_dict partial_dict) <> Ok M)
  /\ (exists e, __init__ [sym_A; sym_B] [sym_A; sym_B] (of_dict partial_dict) = Raise e
        /\ ((exists t1 t2, t1 ∈ [sym_A; sym_B] /\ t2 ∈ [sym_A; sym_B]
                           /\ partial_dict !! (t1, t2) = None
                           /\ e = KeyError t1 t2)
            \/ (e = OverflowError
                /\ exists t1 t2 v, t1 ∈ [sym_A; sym_B] /\ t2 ∈ [sym_A; sym_B]
                                   /\ partial_dict !! (t1, t2) = Some v /\ ~ in_int32 v)))
  /\ (map_Forall (fun _ v => in_int32 v) partial_dict ->
      exists t1 t2, t1 ∈ [sym_A; sym_B] /\ t2 ∈ [sym_A; sym_B]
                    /\ partial_dict !! (t1, t2) = None
                    /\ __init__ [sym_A; sym_B] [sym_A; sym_B] (of_dict partial_dict)
                       = Raise (KeyError t1 t2)).
Proof.
  apply (init_dict_missing [sym_A; sym_B] [sym_A; sym_B] partial_dict sym_B sym_B).
  - by_evaluation.
  - by_evaluation.
  - vm_compute. reflexivity.
Defined.

(** C9 as stated fails: this map lacks the pairing [(A, B)], and the
    constructor raises [OverflowError] for the value of [(A, A)], which it
    stores first, not the [KeyError] of the missing pairing. *)
Lemma init_dict_overflow_first_counterexample :
  overflow_dict !! (sym_A, sym_B) = None
  /\ __init__ [sym_A] [sym_A; sym_B] (of_dict overflow_dict) = Raise OverflowError.
Proof. split; vm_compute; reflexivity. Qed.

Example init_dict_partial :
  __init__ [sym_A; sym_B] [sym_A; sym_B] (of_dict partial_dict)
  = Raise (KeyError sym_B sym_B).
Proof. vm_compute. reflexivity. Qed.

(** A total pairing map with 32-bit values builds the table of its
    scores. *)
Lemma init_dict_ok (alph1 alph2 : Alphabet) (d : matrix_dict_t) :
  (forall t1 t2, t1 ∈ alph1 -> t2 ∈ alph2 ->
     exists v, d !! (t1, t2) = Some v /\ in_int32 v) ->
  __init__ alph1 alph2 (of_dict d) =
    Ok {| _alph1 := alph1; _alph2 := alph2;
          _matrix := {| dtype_of := int32; shape := [length alph1; length alph2];
                        data := tabulate2 (length alph1) (length alph2)
                                  (pairing_score alph1 alph2 d) |} |}.
Proof.
  intros Htotal. rewrite init_dict_spec.
  rewrite (comprehension_ok _ (fun ij => pairing_score alph1 alph2 d ij.1 ij.2)).
  - simpl. unfold cells. by rewrite map_tabulate2.
  - intros [i j] Hin. apply elem_of_cells in Hin as [Hi Hj].
    destruct (lookup_lt_is_Some_2 _ _ Hi) as [t1 Ht1].
    destruct (lookup_lt_is_Some_2 _ _ Hj) as [t2 Ht2].
    rewrite (stored_value_at _ _ _ _ _ _ _ Ht1 Ht2).
    destruct (Htotal t1 t2) as (v & Hv & Hr); [by eapply list_elem_of_lookup_2..|].
    unfold pairing_score. simpl. rewrite Ht1, Ht2, Hv. simpl.
    apply in_int32_test in Hr. by rewrite Hr.
Qed.

(** Conversely, a matrix built from a pairing map holds exactly the map's
    scores, all of them 32-bit integers. *)
Lemma init_dict_inv (alph1 alph2 : Alphabet) (d : matrix_dict_t) (M : SubstitutionMatrix) :
  __init__ alph1 alph2 (of_dict d) = Ok M ->
  M = {| _alph1 := alph1; _alph2 := alph2;
         _matrix := {| dtype_of := int32; shape := [length alph1; length alph2];
                       data := tabulate2 (length alph1) (length alph2)
                                 (pairing_score alph1 alph2 d) |} |}
  /\ forall t1 t2, t1 ∈ alph1 -> t2 ∈ alph2 ->
       exists v, d !! (t1, t2) = Some v /\ in_int32 v.
Proof.
  intros Hinit.
  assert (Htotal : forall t1 t2, t1 ∈ alph1 -> t2 ∈ alph2 ->
            exists v, d !! (t1, t2) = Some v /\ in_int32 v).
  { intros t1 t2 H1 H2. rewrite init_dict_spec in Hinit.
    destruct (comprehension _ _) as [ys|] eqn:Hc; [|discriminate].
    apply list_elem_of_lookup_1 in H1 as [i Hi], H2 as [j Hj].
    assert (Hin : (i, j) ∈ cells (length alph1) (length alph2)).
    { apply elem_of_cells. split; by eapply lookup_lt_Some. }
    destruct (stored_value alph1 alph2 d (i, j)) as [v|e] eqn:Hsv.
    - rewrite (stored_value_at _ _ _ _ _ _ _ Hi Hj) in Hsv.
      destruct (d !! (t1, t2)) as [v'|]; [|discriminate].
      destruct (_ && _) eqn:Hr; [|discriminate]. injection Hsv as ->.
      exists v. split; [reflexivity|]. by apply in_int32_test.
    - pose proof (comprehension_raises (stored_value alph1 alph2 d) _ (i, j) Hin) as Hf.
      rewrite Hsv, Hc in Hf. specialize (Hf eq_refl). discriminate. }
  split; [|assumption].
  rewrite (init_dict_ok _ _ _ Htotal) in Hinit. by injection Hinit.
Qed.

Lemma tabulated_well_formed (alph1 alph2 : Alphabet) (f : nat -> nat -> Z) :
  (forall i j, (i < length alph1)%nat -> (j < length alph2)%nat -> in_int32 (f i j)) ->
  well_formed
    {| _alph1 := alph1; _alph2 := alph2;
       _matrix := {| dtype_of := int32; shape := [length alph1; length alph2];
                     data := tabulate2 (length alph1) (length alph2) f |} |}.
Proof.
  intros Hr. split; simpl; [reflexivity|reflexivity|apply length_tabulate2|].
  by apply Forall_tabulate2.
Qed.

Lemma pairing_score_lookup (alph1 alph2 : Alphabet) (d : matrix_dict_t)
    (i j : nat) (t1 t2 : symbol) (v : Z) :
  alph1 !! i = Some t1 -> alph2 !! j = Some t2 -> d !! (t1, t2) = Some v ->
  pairing_score alph1 alph2 d i j = v.
Proof. intros H1 H2 Hv. unfold pairing_score. by rewrite H1, H2, Hv. Qed.

(** A matrix built from a pairing map satisfies the class invariant. *)
Lemma init_dict_well_formed (alph1 alph2 : Alphabet) (d : matrix_dict_t)
    (M : SubstitutionMatrix) :
  __init__ alph1 alph2 (of_dict d) = Ok M -> well_formed M.
Proof.
  intros Hinit. apply init_dict_inv in Hinit as [-> Htotal].
  apply tabulated_well_formed. intros i j Hi Hj.
  destruct (lookup_lt_is_Some_2 _ _ Hi) as [t1 Ht1].
  destruct (lookup_lt_is_Some_2 _ _ Hj) as [t2 Ht2].
  destruct (Htotal t1 t2) as (v & Hv & Hr); [by eapply list_elem_of_lookup_2..|].
  by rewrite (pairing_score_lookup _ _ _ _ _ _ _ _ Ht1 Ht2 Hv).
Qed.

(** X29: what construction from a total pairing map does with the values.
    If all values of the pairings of the two alphabets lie in the 32-bit
    range, the matrix is built and holds every value unchanged, the two
    extreme values included; if some value lies outside that range,
    construction raises [OverflowError]. *)
Theorem init_dict_range (alph1 alph2 : Alphabet) (d : matrix_dict_t) :
  (forall t1 t2, t1 ∈ alph1 -> t2 ∈ alph2 -> is_Some (d !! (t1, t2))) ->
  ((forall t1 t2 v, t1 ∈ alph1 -> t2 ∈ alph2 -> d !! (t1, t2) = Some v ->
      INT32_MIN <= v <= INT32_MAX) ->
   exists M, __init__ alph1 alph2 (of_dict d) = Ok M
     /\ well_formed M /\ _alph1 M = alph1 /\ _alph2 M = alph2
     /\ forall i j t1 t2 v,
          alph1 !! i = Some t1 -> alph2 !! j = Some t2 -> d !! (t1, t2) = Some v ->
          entry M i j = v)
  /\ ((exists t1 t2 v, t1 ∈ alph1 /\ t2 ∈ alph2 /\ d !! (t1, t2) = Some v
                       /\ ~ (INT32_MIN <= v <= INT32_MAX)) ->
      __init__ alph1 alph2 (of_dict d) = Raise OverflowError).
Proof.
  intros Htotal. split.
  - intros Hrange.
    assert (Hall : forall t1 t2, t1 ∈ alph1 -> t2 ∈ alph2 ->
              exists v, d !! (t1, t2) = Some v /\ in_int32 v).
    { intros t1 t2 H1 H2. destruct (Htotal t1 t2 H1 H2) as [v Hv].
      exists v. split; [assumption|]. by apply (Hrange t1 t2). }
    eexists. split; [by apply init_dict_ok|].
    split; [eapply init_dict_well_formed; by apply init_dict_ok|].
    split; [reflexivity|]. split; [reflexivity|].
    intros i j t1 t2 v H1 H2 Hv. unfold entry, item. simpl.
    rewrite lookup_tabulate2 by (by eapply lookup_lt_Some). simpl.
    by apply (pairing_score_lookup _ _ _ _ _ _ _ _ H1 H2).
  - intros (t1 & t2 & v & H1 & H2 & Hv & Hout).
    destruct (__init__ alph1 alph2 (of_dict d)) as [M|e] eqn:Hinit.
    + apply init_dict_inv in Hinit as [_ Hall].
      destruct (Hall t1 t2 H1 H2) as (v' & Hv' & Hr).
      assert (v' = v) as -> by congruence. destruct (Hout Hr).
    + apply init_dict_raises in Hinit
        as [(u1 & u2 & Hu1 & Hu2 & Hnone & _)|[-> _]]; [|reflexivity].
      destruct (Htotal u1 u2 Hu1 Hu2) as [w Hw]. congruence.
Qed.

Lemma init_dict_range_witness :
  ((forall t1 t2 v, t1 ∈ [sym_A; sym_B] -> t2 ∈ [sym_A; sym_B] ->
      total_dict !! (t1, t2) = Some v -> INT32_MIN <= v <= INT32_MAX) ->
   exists M, __init__ [sym_A; sym_B] [sym_A; sym_B] (of_dict total_dict) = Ok M
     /\ well_formed M /\ _alph1 M = [sym_A; sym_B] /\ _alph2 M = [sym_A; sym_B]
     /\ forall i j t1 t2 v,
          [sym_A; sym_B] !! i = Some t1 -> [sym_A; sym_B] !! j = Some t2 ->
          total_dict !! (t1, t2) = Some v ->
          entry M i j = v)
  /\ ((exists t1 t2 v, t1 ∈ [sym_A; sym_B] /\ t2 ∈ [sym_A; sym_B]
                       /\ total_dict !! (t1, t2) = Some v
                       /\ ~ (INT32_MIN <= v <= INT32_MAX)) ->
      __init__ [sym_A; sym_B] [sym_A; sym_B] (of_dict total_dict)
      = Raise OverflowError).
Proof.
  apply (init_dict_range [sym_A; sym_B] [sym_A; sym_B] total_dict).
  intros t1 t2 H1 H2.
  apply elem_of_cons in H1 as [->|H1]; [|apply list_elem_of_singleton in H1 as ->];
    (apply elem_of_cons in H2 as [->|H2]; [|apply list_elem_of_singleton in H2 as ->]);
    vm_compute; eauto.
Defined.

Example init_dict_total :
  __init__ [sym_A; sym_B] [sym_A; sym_B] (of_dict total_dict)
  = Ok {| _alph1 := [sym_A; sym_B]; _alph2 := [sym_A; sym_B];
          _matrix := {| dtype_of := int32; shape := [2%nat; 2%nat];
                        data := [1; 2; 3; INT32_MIN] |} |}.
Proof. vm_compute. reflexivity. Qed.

Example init_dict_overflow :
  __init__ [sym_A] [sym_A] (of_dict {[ (sym_A, sym_A) := 2 ^ 31 ]})
  = Raise OverflowError.
Proof. vm_compute. reflexivity. Qed.

(** C4 at a pairing map that holds the largest 32-bit integer, one of the
    two reserved values.  The pairing-map branch of the constructor accepts
    it and returns a matrix; the dense-table branch refuses the table of
    that very matrix with the "Score values are too large" [ValueError]. *)
Theorem init_dict_accepts_extreme :
  __init__ [sym_A] [sym_A] (of_dict extreme_dict) = Ok extreme_matrix
  /\ __init__ [sym_A] [sym_A] (of_ndarray (_matrix extreme_matrix))
     = Raise (ValueError ScoresTooLarge).
Proof. split; vm_compute; reflexivity. Qed.

(** ** Decimal rendering and [int()] *)

Lemma digit_char_code (d : N) : (d < 10)%N -> N_of_ascii (digit_char d) = (48 + d)%N.
Proof. intros Hd. unfold digit_char. apply N_ascii_embedding. lia. Qed.

Lemma is_digit_digit_char (d : N) : (d < 10)%N -> is_digit (digit_char d) = true.
Proof.
  intros Hd. unfold is_digit. rewrite digit_char_code by assumption.
  apply andb_true_iff. split; apply N.leb_le; lia.
Qed.

Lemma digit_val_digit_char (d : N) : (d < 10)%N -> digit_val (digit_char d) = Z.of_N d.
Proof. intros Hd. unfold digit_val. rewrite digit_char_code by assumption. lia. Qed.

Lemma is_digit_not_space (c : ascii) : is_digit c = true -> isspace c = false.
Proof.
  unfold is_digit, isspace. cbv zeta. generalize (N_of_ascii c). intros n H.
  apply andb_true_iff in H as [H1 H2]. apply N.leb_le in H1, H2.
  destruct (N.leb_spec 9 n), (N.leb_spec n 13), (N.leb_spec 28 n),
    (N.leb_spec n 32), (N.eqb_spec n 133), (N.eqb_spec n 160);
    simpl; try reflexivity; exfalso; lia.
Qed.

Lemma is_digit_not_nul (c : ascii) : is_digit c = true -> c <> zero.
Proof. intros H ->. discriminate. Qed.

Lemma is_digit_not_sign (c : ascii) :
  is_digit c = true -> c <> "-"%char /\ c <> "+"%char /\ c <> "_"%char.
Proof. intros H. repeat split; intros ->; discriminate. Qed.

Lemma horner_app (acc : Z) (s1 s2 : str) :
  horner acc (s1 ++ s2) = horner (horner acc s1) s2.
Proof. unfold horner. apply fold_left_app. Qed.

Lemma int_digits_horner (acc : Z) (s : str) :
  Forall (fun c => is_digit c = true) s -> int_digits acc s = Some (horner acc s).
Proof.
  intros Hs. revert acc. induction Hs as [|c s Hc _ IH]; intros acc; simpl.
  - reflexivity.
  - rewrite Hc. apply IH.
Qed.

(** The digits [digits_fuel] puts in front of [acc], given fuel for all of
    them: not empty, all decimal digits, and read back they give [n]. *)
Lemma digits_fuel_spec (fuel : nat) (n : N) (acc : str) :
  (0 < fuel)%nat -> Z.of_N n < 2 ^ Z.of_nat fuel ->
  exists ds, digits_fuel fuel n acc = ds ++ acc
    /\ ds <> []
    /\ Forall (fun c => is_digit c = true) ds
    /\ forall a, horner a ds = a * 10 ^ Z.of_nat (length ds) + Z.of_N n.
Proof.
  revert n acc. induction fuel as [|fuel IH]; intros n acc Hpos Hn.
  - lia.
  - simpl. assert (Hmod : (n mod 10 < 10)%N) by (apply N.mod_lt; lia).
    destruct (N.ltb_spec n 10) as [Hlt|Hge].
    + exists [digit_char (n mod 10)]. split; [reflexivity|]. split; [discriminate|].
      split; [repeat constructor; by apply is_digit_digit_char|].
      intros a. unfold horner. simpl.
      rewrite digit_val_digit_char, N.mod_small by assumption. lia.
    + destruct (IH (n / 10)%N (digit_char (n mod 10) :: acc)) as (ds & -> & Hne & Hd & Hval).
      { destruct fuel; [simpl in Hn|]; lia. }
      { rewrite N2Z.inj_div. rewrite Nat2Z.inj_succ, Z.pow_succ_r in Hn by lia.
        apply Z.div_lt_upper_bound; lia. }
      exists (ds ++ [digit_char (n mod 10)]). split; [by rewrite <- app_assoc|].
      split; [by destruct ds|].
      split; [apply Forall_app; split; [assumption|];
              repeat constructor; by apply is_digit_digit_char|].
      intros a. rewrite horner_app, Hval. unfold horner at 1. simpl.
      rewrite digit_val_digit_char by assumption.
      rewrite length_app, Nat2Z.inj_add. simpl.
      rewrite Z.pow_add_r, Z.pow_1_r by lia.
      rewrite N2Z.inj_mod, N2Z.inj_div.
      pose proof (Z.div_mod (Z.of_N n) 10 ltac:(lia)). lia.
Qed.

Lemma size_nat_bound (n : N) : Z.of_N n < 2 ^ Z.of_nat (S (N.size_nat n)).
Proof.
  destruct n as [|p]; [simpl; lia|].
  simpl N.size_nat. rewrite Nat2Z.inj_succ, Z.pow_succ_r by lia.
  pose proof (proj2 (Zpower2_Psize (Pos.size_nat p) p) (le_n _)). simpl Z.of_N. lia.
Qed.

Lemma format_nat_spec (n : N) :
  format_nat n <> []
  /\ Forall (fun c => is_digit c = true) (format_nat n)
  /\ horner 0 (format_nat n) = Z.of_N n.
Proof.
  unfold format_nat.
  destruct (digits_fuel_spec (S (N.size_nat n)) n [] ltac:(lia) (size_nat_bound n))
    as (ds & -> & Hne & Hd & Hval).
  rewrite app_nil_r. split; [assumption|]. split; [assumption|].
  rewrite Hval. lia.
Qed.

Lemma int_unsigned_format_nat (n : N) : int_unsigned (format_nat n) = Some (Z.of_N n).
Proof.
  destruct (format_nat_spec n) as (Hne & Hd & Hval).
  destruct (format_nat n) as [|d s]; [done|].
  apply Forall_cons in Hd as [Hd Hs]. simpl. rewrite Hd.
  rewrite int_digits_horner by assumption.
  f_equal. rewrite <- Hval. unfold horner. simpl. reflexivity.
Qed.

Lemma format_int_digits (z : Z) :
  exists sign ds, format_int z = sign ++ ds
    /\ (sign = [] /\ 0 <= z \/ sign = ["-"%char] /\ z < 0)
    /\ ds <> [] /\ Forall (fun c => is_digit c = true) ds
    /\ int_unsigned ds = Some (Z.abs z).
Proof.
  destruct (format_nat_spec (Z.abs_N z)) as (Hne & Hd & _).
  pose proof (int_unsigned_format_nat (Z.abs_N z)) as Hint.
  rewrite N2Z.inj_abs_N in Hint. unfold format_int.
  destruct (Z.ltb_spec z 0).
  - exists ["-"%char], (format_nat (Z.abs_N z)). split; [reflexivity|]. auto.
  - exists [], (format_nat (Z.abs_N z)). split; [reflexivity|]. auto.
Qed.

(** ** Whitespace *)

Lemma lstrip_head (c : ascii) (s : str) : isspace c = false -> lstrip (c :: s) = c :: s.
Proof. intros H. simpl. by rewrite H. Qed.

Lemma lstrip_spec (s : str) :
  exists ws, s = ws ++ lstrip s /\ Forall (fun c => isspace c = true) ws
    /\ (lstrip s = [] \/ exists c r, lstrip s = c :: r /\ isspace c = false).
Proof.
  induction s as [|c s IH].
  - exists []. simpl. auto.
  - simpl. destruct (isspace c) eqn:Hc.
    + destruct IH as (ws & Hs & Hws & Hhd). exists (c :: ws).
      split; [simpl; congruence|]. split; [by constructor|assumption].
    + exists []. split; [reflexivity|]. split; [constructor|]. right. eauto.
Qed.

Lemma lstrip_no_space (s : str) :
  Forall (fun c => isspace c = false) s -> lstrip s = s.
Proof. intros H. destruct H as [|c s Hc _]; [reflexivity|by apply lstrip_head]. Qed.

Lemma rstrip_no_space (s : str) :
  Forall (fun c => isspace c = false) s -> rstrip s = s.
Proof.
  intros H. unfold rstrip. rewrite lstrip_no_space, rev_involutive; [reflexivity|].
  by apply Forall_rev.
Qed.

Lemma strip_no_space (s : str) :
  Forall (fun c => isspace c = false) s -> strip s = s.
Proof. intros H. unfold strip. by rewrite lstrip_no_space, rstrip_no_space. Qed.

Lemma rstrip_spec (s : str) :
  exists ws, s = rstrip s ++ ws /\ Forall (fun c => isspace c = true) ws.
Proof.
  destruct (lstrip_spec (rev s)) as (ws & Hs & Hws & _).
  exists (rev ws). split; [|by apply Forall_rev].
  unfold rstrip. rewrite <- rev_app_distr, <- Hs. by rewrite rev_involutive.
Qed.

Lemma split_ws_spaces (ws : str) :
  Forall (fun c => isspace c = true) ws -> split_ws ws = [].
Proof. induction 1 as [|c ws Hc _ IH]; simpl; [reflexivity|by rewrite Hc]. Qed.

Lemma split_ws_space_app (ws s : str) :
  Forall (fun c => isspace c = true) ws -> split_ws (ws ++ s) = split_ws s.
Proof. induction 1 as [|c ws Hc _ IH]; simpl; [reflexivity|by rewrite Hc]. Qed.

Lemma split_ws_app_space (s ws : str) :
  Forall (fun c => isspace c = true) ws -> split_ws (s ++ ws) = split_ws s.
Proof.
  intros Hws. induction s as [|c s IH].
  - simpl. by apply split_ws_spaces.
  - simpl. destruct (isspace c); [assumption|].
    destruct s as [|d s]; simpl in *.
    + destruct Hws as [|d ws Hd Hws]; [reflexivity|].
      rewrite Hd. rewrite (split_ws_spaces (d :: ws)) by (by constructor). reflexivity.
    + destruct (isspace d); by rewrite IH.
Qed.

Lemma split_ws_lstrip (s : str) : split_ws (lstrip s) = split_ws s.
Proof.
  destruct (lstrip_spec s) as (ws & Hs & Hws & _).
  rewrite Hs at 2. by rewrite split_ws_space_app.
Qed.

Lemma split_ws_strip (s : str) : split_ws (strip s) = split_ws s.
Proof.
  unfold strip. destruct (rstrip_spec (lstrip s)) as (ws & Hs & Hws).
  rewrite <- (split_ws_lstrip s). rewrite Hs at 2.
  by rewrite split_ws_app_space.
Qed.

Lemma head_lstrip (s : str) : head (lstrip s) = head (concat (split_ws s)).
Proof.
  induction s as [|c s IH]; [reflexivity|].
  simpl. destruct (isspace c); [assumption|].
  destruct s as [|d s]; [reflexivity|].
  destruct (isspace d); [reflexivity|]. by destruct (split_ws (d :: s)).
Qed.

Lemma head_rstrip (c : ascii) (s : str) :
  isspace c = false -> head (rstrip (c :: s)) = Some c.
Proof.
  intros Hc. destruct (rstrip_spec (c :: s)) as (ws & Hs & Hws).
  destruct (rstrip (c :: s)) as [|c' r]; simpl in Hs.
  - subst ws. apply Forall_cons in Hws as [Hws _]. congruence.
  - by injection Hs as <- _.
Qed.

(** The first character of a stripped line is the first character of its
    first token. *)
Lemma head_strip (s : str) : head (strip s) = head (concat (split_ws s)).
Proof.
  rewrite <- head_lstrip. unfold strip.
  destruct (lstrip_spec s) as (_ & _ & _ & [->|(c & r & -> & Hc)]).
  - reflexivity.
  - by rewrite head_rstrip.
Qed.

Lemma is_content_head (line : str) :
  is_content line = true <-> exists c, head line = Some c /\ c <> hash.
Proof.
  unfold is_content. destruct line as [|c line]; simpl.
  - split; [discriminate|]. intros (c & [=] & _).
  - rewrite negb_true_iff, bool_decide_eq_false. split.
    + intros H. exists c. split; [reflexivity|]. congruence.
    + intros (c' & [= <-] & Hne). congruence.
Qed.

Lemma split_ws_token_app (t rest : str) :
  token t ->
  (rest = [] \/ exists c r, rest = c :: r /\ isspace c = true) ->
  split_ws (t ++ rest) = t :: split_ws rest.
Proof.
  intros [Hne Ht] Hrest. induction Ht as [|c t Hc Ht IH]; [done|].
  simpl. rewrite Hc. destruct t as [|d t].
  - simpl. destruct Hrest as [->|(d & r & -> & Hd)]; [reflexivity|].
    by rewrite Hd.
  - apply Forall_cons in Ht as Hd. destruct Hd as [Hd _].
    rewrite IH by discriminate. simpl. by rewrite Hd.
Qed.

Lemma spaced_cons (t : str) (ts : list str) :
  spaced (t :: ts) = (space :: replicate (3 - length t) space) ++ t ++ spaced ts.
Proof. unfold spaced, rjust. simpl. by rewrite <- app_assoc. Qed.

Lemma spaced_head (ts : list str) :
  spaced ts = [] \/ exists c r, spaced ts = c :: r /\ isspace c = true.
Proof.
  destruct ts as [|t ts]; [by left|]. right.
  rewrite spaced_cons. simpl. eauto.
Qed.

Lemma split_ws_spaced (ts : list str) : Forall token ts -> split_ws (spaced ts) = ts.
Proof.
  induction 1 as [|t ts Ht _ IH]; [reflexivity|].
  rewrite spaced_cons, split_ws_space_app.
  - rewrite split_ws_token_app by (assumption || apply spaced_head). by rewrite IH.
  - constructor; [reflexivity|]. apply Forall_forall. intros c Hc.
    by apply elem_of_replicate in Hc as [-> _].
Qed.

Lemma rjust_token (w : nat) (t : str) : (w <= 1)%nat -> token t -> rjust w t = t.
Proof.
  intros Hw [Hne _]. unfold rjust. destruct t as [|c t]; [done|].
  simpl. by replace (w - S (length t))%nat with 0%nat by lia.
Qed.

(** ** Lines *)

Lemma split_on_no_sep (sep : ascii) (l : str) :
  sep ∉ l -> split_on sep l = [l].
Proof.
  induction l as [|c l IH]; intros Hl; [reflexivity|].
  simpl. apply not_elem_of_cons in Hl as [Hc Hl].
  rewrite decide_False by congruence. by rewrite IH.
Qed.

Lemma split_on_app (sep : ascii) (l rest : str) :
  sep ∉ l -> split_on sep (l ++ sep :: rest) = l :: split_on sep rest.
Proof.
  induction l as [|c l IH]; intros Hl.
  - simpl. by rewrite decide_True.
  - simpl. apply not_elem_of_cons in Hl as [Hc Hl].
    rewrite decide_False by congruence. by rewrite IH.
Qed.

Lemma split_on_unlines (ls : list str) :
  ls <> [] -> Forall (fun l => newline ∉ l) ls ->
  split_on newline (unlines ls) = ls.
Proof.
  intros Hne Hls. induction Hls as [|l ls Hl Hls IH]; [done|].
  destruct ls as [|l' ls].
  - simpl. by apply split_on_no_sep.
  - change (unlines (l :: l' :: ls)) with (l ++ newline :: unlines (l' :: ls)).
    rewrite split_on_app by assumption. by rewrite IH.
Qed.

Lemma drop_last_snoc (s : str) (c : ascii) : drop_last (s ++ [c]) = s.
Proof.
  unfold drop_last. rewrite length_app. simpl.
  replace (length s + 1 - 1)%nat with (length s) by lia.
  by rewrite take_app_length.
Qed.

Lemma concat_lines_unlines (ls : list str) :
  ls <> [] ->
  concat (map (fun l => l ++ [newline]) ls) = unlines ls ++ [newline].
Proof.
  intros Hne. induction ls as [|l ls IH]; [done|].
  destruct ls as [|l' ls].
  - simpl. by rewrite app_nil_r.
  - change (unlines (l :: l' :: ls)) with (l ++ newline :: unlines (l' :: ls)).
    change (concat (map (fun l0 => l0 ++ [newline]) (l :: l' :: ls)))
      with ((l ++ [newline]) ++ concat (map (fun l0 => l0 ++ [newline]) (l' :: ls))).
    rewrite IH by discriminate. rewrite <- !app_assoc. reflexivity.
Qed.

(** ** Scores as tokens *)

Lemma format_int_no_space (z : Z) :
  Forall (fun c => isspace c = false) (format_int z).
Proof.
  destruct (format_int_digits z) as (sign & ds & -> & Hsign & _ & Hd & _).
  apply Forall_app. split.
  - destruct Hsign as [[-> _]|[-> _]]; repeat constructor.
  - eapply Forall_impl; [exact Hd|]. apply is_digit_not_space.
Qed.

Lemma format_int_token (z : Z) : token (format_int z).
Proof.
  split; [|apply format_int_no_space].
  destruct (format_int_digits z) as (sign & ds & -> & _ & Hne & _).
  by destruct sign, ds.
Qed.

Lemma py_int_format_int (z : Z) : py_int (format_int z) = Some z.
Proof.
  unfold py_int. rewrite strip_no_space by apply format_int_no_space.
  destruct (format_int_digits z) as (sign & ds & -> & Hsign & Hne & Hd & Hval).
  destruct Hsign as [[-> Hz]|[-> Hz]].
  - destruct ds as [|d ds]; [done|].
    apply Forall_cons in Hd as Hd'. destruct Hd' as [Hd' _].
    destruct (is_digit_not_sign d Hd') as (Hm & Hp & _).
    cbn -[int_unsigned].
    rewrite decide_False, decide_False by assumption.
    rewrite Hval. f_equal. lia.
  - cbn -[int_unsigned]. rewrite Hval. simpl. f_equal. lia.
Qed.

Lemma str_item_format_int (z : Z) : str_item (format_int z) = format_int z.
Proof.
  unfold str_item.
  destruct (format_int_digits z) as (sign & ds & -> & _ & Hne & Hd & _).
  destruct (rev ds) as [|d r] eqn:Hrev.
  - apply (f_equal (@rev ascii)) in Hrev. rewrite rev_involutive in Hrev. done.
  - assert (Hdig : is_digit d = true).
    { rewrite Forall_forall in Hd. apply Hd, list_elem_of_In, in_rev.
      rewrite Hrev. by left. }
    rewrite rev_app_distr, Hrev. simpl.
    rewrite decide_False by (by apply is_digit_not_nul).
    change (d :: r ++ rev sign) with ((d :: r) ++ rev sign).
    by rewrite <- Hrev, <- rev_app_distr, rev_involutive.
Qed.

Lemma str_to_int_format_int (z : Z) :
  INT64_MIN <= z <= INT64_MAX -> str_to_int (format_int z) = Ok z.
Proof.
  intros Hz. unfold str_to_int.
  rewrite str_item_format_int, py_int_format_int.
  replace (INT64_MIN <=? z) with true by (symmetry; apply Z.leb_le; lia).
  replace (z <=? INT64_MAX) with true by (symmetry; apply Z.leb_le; lia).
  reflexivity.
Qed.

(** ** Parsing: the stages of [dict_from_str] *)

Lemma dict_from_str_stages (text : str) :
  dict_from_str text =
    let* symbols1 :=
      comprehension (fun line => list_getitem (split_ws line) 0)
        (drop 1 (content_lines text)) in
    let* header := list_getitem (content_lines text) 0 in
    let* scores := np_array_astype_int (score_rows text) in
    for_each (cells (length symbols1) (length (split_ws header)))
      (store_pairing symbols1 (split_ws header) (np_transpose scores)) ∅.
Proof.
  unfold dict_from_str, score_rows, content_lines, is_content.
  set (lines := List.filter _ _).
  destruct (comprehension _ _) as [symbols1|e]; simpl; [|reflexivity].
  destruct (list_getitem lines 0) as [header|e]; simpl; [|reflexivity].
  destruct (np_array_astype_int _) as [scores|e]; simpl; [|reflexivity].
  apply (for_each_nested (length symbols1) (length (split_ws header))
           (store_pairing symbols1 (split_ws header) (np_transpose scores))).
Qed.

Lemma np_array_astype_int_ragged (rows : list (list str)) (row1 row2 : list str) :
  row1 ∈ rows -> row2 ∈ rows -> length row1 <> length row2 ->
  np_array_astype_int rows = Raise (ValueError Inhomogeneous).
Proof.
  intros H1 H2 Hlen. unfold np_array_astype_int.
  destruct rows as [|row0 rest]; [inversion H1|].
  destruct (forallb _ _) eqn:Hall; [|reflexivity].
  rewrite forallb_forall in Hall.
  apply list_elem_of_In, Hall, Nat.eqb_eq in H1.
  apply list_elem_of_In, Hall, Nat.eqb_eq in H2. congruence.
Qed.

Lemma np_array_astype_int_uniform (rows : list (list str)) (k : nat) :
  rows <> [] -> Forall (fun row => length row = k) rows ->
  np_array_astype_int rows =
    let* vals := comprehension str_to_int (concat rows) in
    Ok {| dtype_of := int64; shape := [length rows; k]; data := vals |}.
Proof.
  intros Hne Hk. unfold np_array_astype_int.
  destruct rows as [|row0 rest]; [done|].
  apply Forall_cons in Hk as Hk0. destruct Hk0 as [Hk0 _].
  replace (forallb _ (row0 :: rest)) with true; [by rewrite Hk0|].
  symmetry. apply forallb_forall. intros row Hrow.
  rewrite Forall_forall in Hk. apply list_elem_of_In, Hk in Hrow.
  apply Nat.eqb_eq. congruence.
Qed.

Lemma np_array_astype_int_bad_token (rows : list (list str)) (row : list str) (tok : str) :
  row ∈ rows -> tok ∈ row -> is_ok (str_to_int tok) = false ->
  is_ok (np_array_astype_int rows) = false.
Proof.
  intros Hrow Htok Hbad. unfold np_array_astype_int.
  destruct rows as [|row0 rest]; [inversion Hrow|].
  destruct (forallb _ _); [|reflexivity].
  assert (Hin : tok ∈ concat (row0 :: rest)).
  { apply list_elem_of_In, in_concat. exists row. split; by apply list_elem_of_In. }
  pose proof (comprehension_raises str_to_int _ tok Hin Hbad) as Hc.
  by destruct (comprehension str_to_int _).
Qed.

Lemma comprehension_length {A B : Type} (f : A -> result B) (l : list A) (ys : list B) :
  comprehension f l = Ok ys -> length ys = length l.
Proof.
  intros H. apply comprehension_inv in H. symmetry. by eapply Forall2_length.
Qed.

Lemma store_pairing_out (symbols1 symbols2 : list str) (scores : ndarray)
    (m n i j : nat) (d : matrix_dict_t) :
  shape scores = [m; n] -> ~ ((i < m)%nat /\ (j < n)%nat) ->
  is_ok (store_pairing symbols1 symbols2 scores d (i, j)) = false.
Proof.
  intros Hs Hout. unfold store_pairing. simpl.
  destruct (list_getitem symbols1 i); simpl; [|reflexivity].
  destruct (list_getitem symbols2 j); simpl; [|reflexivity].
  unfold getitem2. rewrite Hs.
  destruct (decide (i < m)%nat) as [Hi|Hi].
  - rewrite normalize_index_nonneg by assumption. simpl.
    rewrite normalize_index_out by lia. reflexivity.
  - rewrite normalize_index_out by lia. reflexivity.
Qed.

Lemma for_each_cases {A S : Type} (l : list A) (body : S -> A -> result S) (s : S) (e : exn) :
  for_each l body s = Raise e -> exists s' x, x ∈ l /\ body s' x = Raise e.
Proof.
  revert s. induction l as [|x l IH]; intros s; simpl; [discriminate|].
  destruct (body s x) as [s'|e'] eqn:Hx; simpl.
  - intros H. destruct (IH _ H) as (s'' & y & Hy & Hbody).
    exists s'', y. split; [by constructor|assumption].
  - intros [= ->]. exists s, x. split; [constructor|assumption].
Qed.

Lemma list_getitem_raises {A : Type} (l : list A) (i : nat) (e : exn) :
  list_getitem l i = Raise e -> e = IndexError.
Proof. unfold list_getitem. destruct (l !! i); [discriminate|]. by intros [= <-]. Qed.

Lemma normalize_index_raises (i : Z) (n : nat) (e : exn) :
  normalize_index i n = Raise e -> e = IndexError.
Proof.
  unfold normalize_index. destruct (_ && _); [discriminate|].
  destruct (_ && _); [discriminate|]. by intros [= <-].
Qed.

Lemma getitem2_raises (a : ndarray) (i j : Z) (e : exn) :
  getitem2 a i j = Raise e -> e = IndexError.
Proof.
  unfold getitem2. destruct (shape a) as [|m [|n [|? ?]]]; try (by intros [= <-]).
  destruct (normalize_index i m) as [i'|e1] eqn:Hi; simpl.
  - destruct (normalize_index j n) as [j'|e2] eqn:Hj; simpl.
    + apply list_getitem_raises.
    + intros [= <-]. by eapply normalize_index_raises.
  - intros [= <-]. by eapply normalize_index_raises.
Qed.

Lemma str_to_int_raises (tok : str) (e : exn) :
  str_to_int tok = Raise e -> e = ValueError InvalidLiteral \/ e = OverflowError.
Proof.
  unfold str_to_int. destruct (py_int _); [|intros [= <-]; by left].
  destruct (_ && _); [discriminate|]. intros [= <-]. by right.
Qed.

Lemma np_array_astype_int_raises (rows : list (list str)) (e : exn) :
  np_array_astype_int rows = Raise e ->
  e = ValueError Inhomogeneous \/ e = ValueError InvalidLiteral \/ e = OverflowError.
Proof.
  unfold np_array_astype_int. destruct rows as [|row0 rest]; [discriminate|].
  destruct (forallb _ _); [|intros [= <-]; by left].
  destruct (comprehension_cases str_to_int (concat (row0 :: rest)))
    as [[ys ->]|(tok & e' & _ & Htok & ->)]; simpl; [discriminate|].
  intros [= <-]. right. by eapply str_to_int_raises.
Qed.

Lemma store_pairing_raises (symbols1 symbols2 : list str) (scores : ndarray)
    (d : matrix_dict_t) (ij : nat * nat) (e : exn) :
  store_pairing symbols1 symbols2 scores d ij = Raise e -> e = IndexError.
Proof.
  unfold store_pairing.
  destruct (list_getitem symbols1 ij.1) eqn:H1; simpl;
    [|intros [= <-]; by eapply list_getitem_raises].
  destruct (list_getitem symbols2 ij.2) eqn:H2; simpl;
    [|intros [= <-]; by eapply list_getitem_raises].
  destruct (getitem2 scores _ _) eqn:H3; simpl; [discriminate|].
  intros [= <-]. by eapply getitem2_raises.
Qed.

(** The exceptions [dict_from_str] can raise. *)
Lemma dict_from_str_raises (text : str) (e : exn) :
  dict_from_str text = Raise e ->
  e = IndexError \/ e = ValueError Inhomogeneous
  \/ e = ValueError InvalidLiteral \/ e = OverflowError.
Proof.
  rewrite dict_from_str_stages.
  destruct (comprehension_cases (fun line => list_getitem (split_ws line) 0)
              (drop 1 (content_lines text)))
    as [[symbols1 ->]|(line & e' & _ & Hline & ->)]; simpl.
  2:{ intros [= <-]. left. by eapply list_getitem_raises. }
  destruct (list_getitem (content_lines text) 0) as [header|e'] eqn:Hh; simpl.
  2:{ intros [= <-]. left. by eapply list_getitem_raises. }
  destruct (np_array_astype_int (score_rows text)) as [scores|e'] eqn:Hs; simpl.
  2:{ intros [= <-]. right. by eapply np_array_astype_int_raises. }
  intros Hloop. apply for_each_cases in Hloop as (d & ij & _ & Hbody).
  left. by eapply store_pairing_raises.
Qed.

Lemma np_array_astype_int_shape (rows : list (list str)) (scores : ndarray) (row : list str) :
  np_array_astype_int rows = Ok scores -> row ∈ rows ->
  shape scores = [length rows; length row].
Proof.
  unfold np_array_astype_int. intros H Hrow.
  destruct rows as [|row0 rest]; [inversion Hrow|].
  destruct (forallb _ _) eqn:Hall; [|discriminate].
  destruct (comprehension _ _); [|discriminate]. injection H as <-. simpl.
  rewrite forallb_forall in Hall.
  apply list_elem_of_In, Hall, Nat.eqb_eq in Hrow. by rewrite Hrow.
Qed.

Lemma dict_from_str_short_row (text : str) (row : list str) :
  row ∈ score_rows text -> (length row < length (header_symbols text))%nat ->
  is_ok (dict_from_str text) = false.
Proof.
  intros Hrow Hshort. rewrite dict_from_str_stages.
  destruct (comprehension _ _) as [symbols1|] eqn:Hsym; simpl; [|reflexivity].
  apply comprehension_length in Hsym.
  assert (Hr : length symbols1 = length (score_rows text)).
  { unfold score_rows. by rewrite length_map. }
  unfold header_symbols in Hshort.
  unfold list_getitem. destruct (content_lines text) as [|header lines] eqn:Hlines;
    simpl; [reflexivity|]. simpl in Hshort.
  destruct (np_array_astype_int (score_rows text)) as [scores|] eqn:Hscores;
    simpl; [|reflexivity].
  pose proof (np_array_astype_int_shape _ _ _ Hscores Hrow) as Hshape.
  apply np_transpose_shape in Hshape.
  assert (Hpos : (0 < length (score_rows text))%nat).
  { destruct (score_rows text); [inversion Hrow|simpl; lia]. }
  destruct (decide (length (score_rows text) <= length row)%nat) as [Hle|Hgt].
  - apply (for_each_raises _ _ _ (0%nat, length (score_rows text))).
    + apply elem_of_cells. lia.
    + intros d. apply (store_pairing_out _ _ _ _ _ _ _ _ Hshape). lia.
  - apply (for_each_raises _ _ _ (length row, 0%nat)).
    + apply elem_of_cells. lia.
    + intros d. apply (store_pairing_out _ _ _ _ _ _ _ _ Hshape). lia.
Qed.

(** C5, as the code has it: parsing raises ([ValueError], [OverflowError]
    or [IndexError]) whenever two data lines carry different numbers of
    score tokens, or a data line carries fewer score tokens than the header
    has symbols, or a score token is no integer literal.  (Tokens beyond
    the header's count are not checked against it.) *)
Theorem dict_from_str_malformed (text : str) :
  (exists row1 row2, row1 ∈ score_rows text /\ row2 ∈ score_rows text
                     /\ length row1 <> length row2)
  \/ (exists row, row ∈ score_rows text
                  /\ (length row < length (header_symbols text))%nat)
  \/ (exists row tok, row ∈ score_rows text /\ tok ∈ row
                      /\ is_ok (str_to_int tok) = false) ->
  exists e, dict_from_str text = Raise e
    /\ (e = IndexError \/ e = ValueError Inhomogeneous
        \/ e = ValueError InvalidLiteral \/ e = OverflowError).
Proof.
  intros Hbad.
  assert (Hfail : is_ok (dict_from_str text) = false).
  { destruct Hbad as [(row1 & row2 & H1 & H2 & Hlen)|[(row & Hrow & Hshort)|(row & tok & Hrow & Htok & Hbad)]].
    - rewrite dict_from_str_stages.
      destruct (comprehension _ _); simpl; [|reflexivity].
      destruct (list_getitem _ _); simpl; [|reflexivity].
      by rewrite (np_array_astype_int_ragged _ _ _ H1 H2 Hlen).
    - by apply (dict_from_str_short_row text row).
    - rewrite dict_from_str_stages.
      destruct (comprehension _ _); simpl; [|reflexivity].
      destruct (list_getitem _ _); simpl; [|reflexivity].
      pose proof (np_array_astype_int_bad_token _ _ _ Hrow Htok Hbad) as Hf.
      by destruct (np_array_astype_int _). }
  destruct (dict_from_str text) as [d|e] eqn:Hparse; [discriminate|].
  exists e. split; [reflexivity|]. by apply (dict_from_str_raises text).
Qed.

Lemma dict_from_str_malformed_witness :
  exists e, dict_from_str bad_token_text = Raise e
    /\ (e = IndexError \/ e = ValueError Inhomogeneous
        \/ e = ValueError InvalidLiteral \/ e = OverflowError).
Proof.
  apply (dict_from_str_malformed bad_token_text).
  right. right. exists [of_string "1"; of_string "x"], (of_string "x").
  split; [by_evaluation|]. split; [by_evaluation|]. reflexivity.
Defined.

Example dict_from_str_bad_token :
  dict_from_str bad_token_text = Raise (ValueError InvalidLiteral).
Proof. vm_compute. reflexivity. Qed.

(** C5 as stated fails: every data line of this text carries three score
    tokens under a header of two symbols, and the text is parsed without
    an error. *)
Lemma dict_from_str_extra_tokens_counterexample :
  header_symbols extra_tokens_text = [of_string "A"; of_string "B"]
  /\ score_rows extra_tokens_text
     = [[of_string "1"; of_string "2"; of_string "3"];
        [of_string "4"; of_string "5"; of_string "6"]]
  /\ dict_from_str extra_tokens_text
     = Ok {[ (sym_A, sym_A) := 1; (sym_A, sym_B) := 4;
             (sym_B, sym_A) := 2; (sym_B, sym_B) := 5 ]}.
Proof. repeat split; vm_compute; reflexivity. Qed.

(** C2 on concrete texts: the entry for (row symbol i, column symbol j) is
    the i-th score of data line j, not the j-th score of data line i; and a
    text with more columns than rows is not parsed at all. *)
Example dict_from_str_square :
  dict_from_str square_text
  = Ok {[ (sym_A, sym_A) := 1; (sym_A, sym_B) := 3;
          (sym_B, sym_A) := 2; (sym_B, sym_B) := 4 ]}.
Proof. vm_compute. reflexivity. Qed.

Example dict_from_str_square_entry :
  (let* d := dict_from_str square_text in dict_getitem d sym_A sym_B) = Ok 3.
Proof. vm_compute. reflexivity. Qed.

Example dict_from_str_wide : dict_from_str wide_text = Raise IndexError.
Proof. vm_compute. reflexivity. Qed.

(** ** Rendering: the text of [__str__] *)

Lemma fold_left_append {A : Type} (f : A -> str) (l : list A) (s : str) :
  fold_left (fun s x => s ++ f x) l s = s ++ concat (map f l).
Proof.
  revert s. induction l as [|x l IH]; intros s; simpl.
  - by rewrite app_nil_r.
  - by rewrite IH, <- app_assoc.
Qed.

Lemma elem_of_enumerate {A : Type} (l : list A) (i : nat) (x : A) :
  (i, x) ∈ enumerate l -> l !! i = Some x.
Proof.
  unfold enumerate, range. intros H.
  apply list_elem_of_lookup_1 in H as [k Hk].
  apply lookup_zip_with_Some in Hk as (i' & x' & Heq & Hi & Hx).
  injection Heq as -> ->. apply lookup_seq in Hi as [-> _]. assumption.
Qed.

Lemma map_enumerate {A B : Type} (g : nat -> B) (l : list A) :
  map (fun i_x => g i_x.1) (enumerate l) = map g (range (length l)).
Proof.
  unfold enumerate. rewrite <- (map_map fst g). f_equal.
  apply fst_zip. unfold range. by rewrite length_seq.
Qed.

Lemma map_snd_enumerate {A : Type} (l : list A) : map snd (enumerate l) = l.
Proof.
  unfold enumerate. apply snd_zip. unfold range. by rewrite length_seq.
Qed.

Lemma str_closed_form (M : SubstitutionMatrix) :
  well_formed M ->
  __str__ M = Ok (unlines (header_line M :: row_lines M)).
Proof.
  intros [_ Hs Hl _]. unfold __str__.
  rewrite (for_each_pure _ _
             (fun string i_sym => string ++ (row_line M i_sym.1 i_sym.2 ++ [newline]))).
  - simpl. rewrite !fold_left_append. f_equal.
    transitivity (drop_last (concat (map (fun l => l ++ [newline])
                                       (header_line M :: row_lines M)))).
    + f_equal. simpl. unfold header_line, spaced, row_lines.
      rewrite !map_map, <- !app_assoc. reflexivity.
    + rewrite concat_lines_unlines by discriminate. apply drop_last_snoc.
  - intros string [i sym] Hin. apply elem_of_enumerate in Hin.
    apply lookup_lt_Some in Hin. simpl.
    rewrite (for_each_pure _ _
               (fun string j => string ++ space :: rjust 3 (format_int (entry M i j)))).
    + simpl. rewrite fold_left_append. unfold row_line, spaced.
      rewrite map_map, <- !app_assoc. reflexivity.
    + intros s j Hj. apply list_elem_of_In, in_seq in Hj.
      unfold entry. rewrite (getitem2_nat _ _ _ i j Hs Hl) by lia. reflexivity.
Qed.

(** ** The round trip through the text format *)

Lemma spaced_chars (ts : list str) :
  Forall token ts -> Forall (fun c => c = space \/ isspace c = false) (spaced ts).
Proof.
  induction 1 as [|t ts [_ Ht] _ IH]; [constructor|].
  rewrite spaced_cons. apply Forall_app. split; [|apply Forall_app; split].
  - constructor; [by left|]. apply Forall_forall. intros c Hc.
    left. by apply elem_of_replicate in Hc as [-> _].
  - eapply Forall_impl; [exact Ht|]. simpl. auto.
  - assumption.
Qed.

Lemma no_newline (l : str) :
  Forall (fun c => c = space \/ isspace c = false) l -> newline ∉ l.
Proof.
  intros Hl Hin. rewrite Forall_forall in Hl.
  destruct (Hl _ Hin) as [H|H]; discriminate.
Qed.

Lemma token_symbol_token (sym : symbol) : token_symbol sym -> token (py_str sym).
Proof. by intros (s & -> & Hs). Qed.

Lemma token_symbol_str (sym : symbol) : token_symbol sym -> Str (py_str sym) = sym.
Proof. by intros (s & -> & Hs). Qed.

Lemma filter_all {A : Type} (f : A -> bool) (l : list A) :
  Forall (fun x => f x = true) l -> List.filter f l = l.
Proof. induction 1 as [|x l Hx _ IH]; simpl; [reflexivity|]. by rewrite Hx, IH. Qed.

(** A line whose first token does not start with the comment sign is kept,
    stripped. *)
Lemma is_content_strip (line t : str) (ts : list str) :
  split_ws line = t :: ts -> token t -> head t <> Some hash ->
  is_content (strip line) = true.
Proof.
  intros Hsplit [Hne _] Hhash. apply is_content_head.
  rewrite head_strip, Hsplit. destruct t as [|c t]; [done|].
  exists c. split; [reflexivity|]. simpl in Hhash. congruence.
Qed.

Lemma comprehension_map_ok {A B C : Type} (f : B -> result C) (g : A -> B)
    (h : A -> C) (l : list A) :
  (forall x, x ∈ l -> f (g x) = Ok (h x)) ->
  comprehension f (map g l) = Ok (map h l).
Proof.
  induction l as [|x l IH]; intros H; simpl; [reflexivity|].
  rewrite H by constructor. simpl. rewrite IH; [reflexivity|].
  intros y Hy. apply H. by constructor.
Qed.

(** A dictionary filled by a sequence of stores: what a lookup can find,
    and that every stored key is found. *)
Lemma fold_insert_lookup {A : Type} (key : A -> symbol * symbol) (val : A -> Z)
    (l : list A) (d : matrix_dict_t) (k : symbol * symbol) (v : Z) :
  fold_left (fun d x => <[key x := val x]> d) l d !! k = Some v ->
  (exists x, x ∈ l /\ key x = k /\ val x = v) \/ d !! k = Some v.
Proof.
  revert d. induction l as [|x l IH]; intros d; simpl; [auto|].
  intros H. apply IH in H as [(y & Hy & Hk & Hv)|H].
  - left. exists y. split; [by constructor|auto].
  - destruct (decide (key x = k)) as [Heq|Hne].
    + rewrite Heq, lookup_insert_eq in H. injection H as <-.
      left. exists x. split; [constructor|auto].
    + rewrite lookup_insert_ne in H by assumption. by right.
Qed.

Lemma fold_insert_is_Some {A : Type} (key : A -> symbol * symbol) (val : A -> Z)
    (l : list A) (d : matrix_dict_t) (k : symbol * symbol) :
  (is_Some (d !! k) \/ exists x, x ∈ l /\ key x = k) ->
  is_Some (fold_left (fun d x => <[key x := val x]> d) l d !! k).
Proof.
  revert d. induction l as [|x l IH]; intros d; simpl.
  - intros [H|(x & Hx & _)]; [assumption|inversion Hx].
  - intros H. apply IH. destruct (decide (key x = k)) as [Heq|Hne].
    + left. rewrite Heq, lookup_insert_eq. eauto.
    + destruct H as [H|(y & Hy & Hk)].
      * left. by rewrite lookup_insert_ne.
      * apply elem_of_cons in Hy as [->|Hy]; [congruence|]. right. eauto.
Qed.

Lemma eq_reflexive (M : SubstitutionMatrix) : __eq__ M M = true.
Proof.
  unfold __eq__, get_alphabet1, get_alphabet2, score_matrix, np_array_equal.
  by rewrite !bool_decide_eq_true_2.
Qed.

Section RoundTrip.

Variable M : SubstitutionMatrix.
Hypothesis Hwf : well_formed M.
Hypothesis Htok1 : Forall token_symbol (_alph1 M).
Hypothesis Htok2 : Forall token_symbol (_alph2 M).
Hypothesis Hcom1 : Forall no_comment (_alph1 M).
Hypothesis Hcom2 : forall sym, head (_alph2 M) = Some sym -> no_comment sym.
Hypothesis Hne1 : _alph1 M <> [].
Hypothesis Hne2 : _alph2 M <> [].

Let symbols1 : list str := map py_str (_alph1 M).
Let symbols2 : list str := map py_str (_alph2 M).
Let scores_of (i : nat) : list str :=
  map (fun j => format_int (entry M i j)) (range (length (_alph2 M))).

Lemma symbols1_tokens : Forall token symbols1.
Proof.
  subst symbols1. apply Forall_fmap. eapply Forall_impl; [exact Htok1|].
  apply token_symbol_token.
Qed.

Lemma symbols2_tokens : Forall token symbols2.
Proof.
  subst symbols2. apply Forall_fmap. eapply Forall_impl; [exact Htok2|].
  apply token_symbol_token.
Qed.

Lemma scores_tokens (i : nat) : Forall token (scores_of i).
Proof.
  subst scores_of. simpl. apply Forall_fmap, Forall_forall. intros j _.
  apply format_int_token.
Qed.

Lemma split_ws_header_line : split_ws (header_line M) = symbols2.
Proof.
  unfold header_line. change (space :: ?s) with ([space] ++ s).
  rewrite split_ws_space_app by (by repeat constructor).
  apply split_ws_spaced, symbols2_tokens.
Qed.

Lemma split_ws_row_line (i : nat) (sym : symbol) :
  sym ∈ _alph1 M -> split_ws (row_line M i sym) = py_str sym :: scores_of i.
Proof.
  intros Hin. unfold row_line.
  assert (Ht : token (py_str sym)).
  { rewrite Forall_forall in Htok1. by apply token_symbol_token, Htok1. }
  rewrite rjust_token by (assumption || lia).
  rewrite split_ws_token_app by (assumption || apply spaced_head).
  f_equal. apply split_ws_spaced, scores_tokens.
Qed.

Lemma header_line_no_newline : newline ∉ header_line M.
Proof.
  apply no_newline. unfold header_line. constructor; [by left|].
  apply spaced_chars, symbols2_tokens.
Qed.

Lemma row_line_no_newline (i : nat) (sym : symbol) :
  sym ∈ _alph1 M -> newline ∉ row_line M i sym.
Proof.
  intros Hin. apply no_newline. unfold row_line.
  assert (Ht : token (py_str sym)).
  { rewrite Forall_forall in Htok1. by apply token_symbol_token, Htok1. }
  rewrite rjust_token by (assumption || lia).
  apply Forall_app. split.
  - destruct Ht as [_ Ht]. eapply Forall_impl; [exact Ht|]. simpl. auto.
  - apply spaced_chars, scores_tokens.
Qed.

Lemma header_line_content : is_content (strip (header_line M)) = true.
Proof.
  pose proof split_ws_header_line as Hsplit. pose proof symbols2_tokens as Htoks.
  subst symbols2. destruct (_alph2 M) as [|sym alph2] eqn:Halph; [done|].
  simpl in Hsplit, Htoks. apply Forall_cons in Htoks as [Ht _].
  apply (is_content_strip _ _ _ Hsplit Ht). by apply Hcom2.
Qed.

Lemma row_line_content (i : nat) (sym : symbol) :
  sym ∈ _alph1 M -> is_content (strip (row_line M i sym)) = true.
Proof.
  intros Hin. apply (is_content_strip _ _ _ (split_ws_row_line i sym Hin)).
  - rewrite Forall_forall in Htok1. by apply token_symbol_token, Htok1.
  - rewrite Forall_forall in Hcom1. by apply Hcom1.
Qed.

Lemma row_lines_elem (line : str) :
  line ∈ row_lines M -> exists i sym, _alph1 M !! i = Some sym /\ line = row_line M i sym.
Proof.
  unfold row_lines. intros H. apply list_elem_of_fmap in H as ([i sym] & -> & Hin).
  apply elem_of_enumerate in Hin. eauto.
Qed.

Lemma content_lines_rendered :
  content_lines (unlines (header_line M :: row_lines M))
  = strip (header_line M) :: map strip (row_lines M).
Proof.
  unfold content_lines. rewrite split_on_unlines; [|discriminate|].
  - simpl map. apply filter_all. constructor; [apply header_line_content|].
    apply Forall_fmap, Forall_forall. intros line Hline.
    apply row_lines_elem in Hline as (i & sym & Hsym & ->).
    apply row_line_content. by eapply list_elem_of_lookup_2.
  - constructor; [apply header_line_no_newline|].
    apply Forall_forall. intros line Hline.
    apply row_lines_elem in Hline as (i & sym & Hsym & ->).
    apply row_line_no_newline. by eapply list_elem_of_lookup_2.
Qed.

Hypothesis Hsym : np_array_equal (_matrix M) (np_transpose (_matrix M)) = true.

Lemma rendered_symbols1 :
  comprehension (fun line => list_getitem (split_ws line) 0)
    (map strip (row_lines M)) = Ok symbols1.
Proof.
  unfold row_lines. rewrite map_map.
  rewrite (comprehension_map_ok _ _ (fun i_sym => py_str i_sym.2)).
  - subst symbols1. rewrite <- (map_map snd py_str), map_snd_enumerate. reflexivity.
  - intros [i sym] Hin. apply elem_of_enumerate in Hin. simpl.
    rewrite split_ws_strip, split_ws_row_line by (by eapply list_elem_of_lookup_2).
    reflexivity.
Qed.

Lemma rendered_score_rows :
  score_rows (unlines (header_line M :: row_lines M))
  = map scores_of (range (length (_alph1 M))).
Proof.
  unfold score_rows. rewrite content_lines_rendered. simpl drop. rewrite drop_0.
  unfold row_lines. rewrite !map_map.
  rewrite <- (map_enumerate scores_of). apply map_ext_in.
  intros [i sym] Hin. apply list_elem_of_In, elem_of_enumerate in Hin. simpl.
  rewrite split_ws_strip, split_ws_row_line by (by eapply list_elem_of_lookup_2).
  reflexivity.
Qed.

Lemma rendered_scores :
  np_array_astype_int (map scores_of (range (length (_alph1 M))))
  = Ok {| dtype_of := int64;
          shape := [length (_alph1 M); length (_alph2 M)];
          data := data (_matrix M) |}.
Proof.
  destruct Hwf as [_ Hs Hl Hr].
  rewrite (np_array_astype_int_uniform _ (length (_alph2 M))).
  - replace (concat (map scores_of (range (length (_alph1 M)))))
      with (map format_int
              (tabulate2 (length (_alph1 M)) (length (_alph2 M)) (entry M))).
    2:{ rewrite map_tabulate2. unfold tabulate2. by rewrite flat_map_concat_map. }
    rewrite (comprehension_map_ok _ _ id).
    + simpl. rewrite map_id, length_map. unfold range at 1. rewrite length_seq.
      do 2 f_equal. unfold entry, item. by apply tabulate2_lookup.
    + intros z Hz. apply str_to_int_format_int.
      apply elem_of_tabulate2 in Hz as (i & j & Hi & Hj & ->).
      rewrite Forall_forall in Hr.
      assert (Hin : in_int32 (entry M i j)).
      { apply Hr, item_elem. rewrite Hl. nia. }
      unfold id, in_int32, INT32_MIN, INT32_MAX, INT64_MIN, INT64_MAX in *. lia.
  - destruct (_alph1 M); [done|]. discriminate.
  - apply Forall_fmap, Forall_forall. intros i _. subst scores_of. simpl.
    unfold range. by rewrite length_map, length_seq.
Qed.

Lemma symmetric_square : length (_alph1 M) = length (_alph2 M).
Proof.
  destruct Hwf as [_ Hs _ _]. unfold np_array_equal in Hsym.
  apply andb_true_iff in Hsym as [Hshape _]. apply bool_decide_eq_true in Hshape.
  rewrite (np_transpose_shape _ _ _ Hs), Hs in Hshape. by injection Hshape.
Qed.

Lemma symmetric_data : data (np_transpose (_matrix M)) = data (_matrix M).
Proof.
  unfold np_array_equal in Hsym.
  apply andb_true_iff in Hsym as [_ Hdata]. by apply bool_decide_eq_true in Hdata.
Qed.

(** What the loops of [dict_from_str] store for the cell [(i, j)] of the
    rendered text of a symmetric table. *)
Let cell_key (ij : nat * nat) : symbol * symbol :=
  (default (Str []) (_alph1 M !! ij.1), default (Str []) (_alph2 M !! ij.2)).
Let cell_val (ij : nat * nat) : Z := entry M ij.1 ij.2.

Lemma rendered_store_pairing (d : matrix_dict_t) (i j : nat) :
  (i < length (_alph1 M))%nat -> (j < length (_alph2 M))%nat ->
  store_pairing symbols1 symbols2
    (np_transpose {| dtype_of := int64;
                     shape := [length (_alph1 M); length (_alph2 M)];
                     data := data (_matrix M) |}) d (i, j)
  = Ok (<[cell_key (i, j) := cell_val (i, j)]> d).
Proof.
  intros Hi Hj. destruct Hwf as [_ Hs Hl _].
  pose proof symmetric_square as Hsq.
  destruct (lookup_lt_is_Some_2 _ _ Hi) as [a Ha].
  destruct (lookup_lt_is_Some_2 _ _ Hj) as [b Hb].
  unfold store_pairing, list_getitem. subst symbols1 symbols2 cell_key cell_val.
  simpl. rewrite !list_lookup_fmap, Ha, Hb. simpl.
  rewrite Forall_forall in Htok1, Htok2.
  rewrite (token_symbol_str a) by (apply Htok1; by eapply list_elem_of_lookup_2).
  rewrite (token_symbol_str b) by (apply Htok2; by eapply list_elem_of_lookup_2).
  rewrite (getitem2_nat _ (length (_alph2 M)) (length (_alph1 M)) i j);
    [|reflexivity|simpl; apply length_tabulate2|lia|lia].
  do 3 f_equal. unfold item at 1. simpl.
  pose proof symmetric_data as Hdata.
  rewrite (np_transpose_data _ _ _ Hs) in Hdata.
  unfold item in Hdata at 1. unfold item at 1. simpl.
  rewrite Hdata, Hsq. reflexivity.
Qed.

Lemma rendered_dict :
  dict_from_str (unlines (header_line M :: row_lines M))
  = Ok (fold_left (fun d ij => <[cell_key ij := cell_val ij]> d)
          (cells (length (_alph1 M)) (length (_alph2 M))) ∅).
Proof.
  rewrite dict_from_str_stages, rendered_score_rows, content_lines_rendered.
  simpl drop. rewrite drop_0, rendered_symbols1. simpl.
  rewrite rendered_scores. simpl.
  rewrite split_ws_strip, split_ws_header_line.
  unfold symbols1 at 1, symbols2 at 1. rewrite !length_map.
  apply for_each_pure. intros d [i j] Hin. apply elem_of_cells in Hin as [Hi Hj].
  by apply rendered_store_pairing.
Qed.

End RoundTrip.

Lemma init_dict_entry (alph1 alph2 : Alphabet) (d : matrix_dict_t)
    (M : SubstitutionMatrix) (i j : nat) :
  __init__ alph1 alph2 (of_dict d) = Ok M ->
  (i < length alph1)%nat -> (j < length alph2)%nat ->
  entry M i j = pairing_score alph1 alph2 d i j.
Proof.
  intros Hinit Hi Hj. apply init_dict_inv in Hinit as [-> _].
  unfold entry, item. simpl. by rewrite lookup_tabulate2.
Qed.

(** The dictionary parsed back from the rendered text of a matrix built
    from [d0] agrees with [d0] on the pairings of the two alphabets. *)
Lemma parsed_dict_lookup (alph1 alph2 : Alphabet) (d0 : matrix_dict_t)
    (M : SubstitutionMatrix) (t1 t2 : symbol) :
  __init__ alph1 alph2 (of_dict d0) = Ok M ->
  t1 ∈ alph1 -> t2 ∈ alph2 ->
  fold_left
    (fun (d : matrix_dict_t) (ij : nat * nat) =>
       <[(default (Str []) (alph1 !! ij.1), default (Str []) (alph2 !! ij.2))
         := entry M ij.1 ij.2]> d)
    (cells (length alph1) (length alph2)) ∅ !! (t1, t2)
  = d0 !! (t1, t2).
Proof.
  intros Hinit H1 H2.
  destruct (proj2 (init_dict_inv _ _ _ _ Hinit) t1 t2 H1 H2) as (v0 & Hv0 & _).
  apply list_elem_of_lookup_1 in H1 as [i Hi], H2 as [j Hj].
  set (key := fun ij : nat * nat =>
                (default (Str []) (alph1 !! ij.1), default (Str []) (alph2 !! ij.2))).
  set (val := fun ij : nat * nat => entry M ij.1 ij.2).
  change (fold_left (fun (d : matrix_dict_t) x => <[key x := val x]> d)
            (cells (length alph1) (length alph2)) (∅ : matrix_dict_t) !! (t1, t2)
          = d0 !! (t1, t2)).
  destruct (fold_insert_is_Some key val (cells (length alph1) (length alph2)) ∅ (t1, t2))
    as [v Hv].
  { right. exists (i, j). split.
    - apply elem_of_cells. split; by eapply lookup_lt_Some.
    - subst key. simpl. by rewrite Hi, Hj. }
  rewrite Hv, Hv0. f_equal.
  apply fold_insert_lookup in Hv as [([i' j'] & Hin & Hkey & Hval)|Hempty];
    [|by rewrite lookup_empty in Hempty].
  apply elem_of_cells in Hin as [Hi' Hj'].
  destruct (lookup_lt_is_Some_2 _ _ Hi') as [u1 Hu1].
  destruct (lookup_lt_is_Some_2 _ _ Hj') as [u2 Hu2].
  subst key val. simpl in Hkey, Hval. rewrite Hu1, Hu2 in Hkey. simpl in Hkey.
  injection Hkey as -> ->.
  rewrite (init_dict_entry _ _ _ _ _ _ Hinit Hi' Hj') in Hval.
  by rewrite (pairing_score_lookup _ _ _ _ _ _ _ _ Hu1 Hu2 Hv0) in Hval.
Qed.

(** C1, for the matrices whose text can be read back: a matrix built from
    a pairing map over non-empty alphabets of string symbols that are
    single tokens (not empty, without whitespace), where no symbol of
    alphabet 1 and not the first symbol of alphabet 2 starts with the
    comment sign, and whose table equals its transpose, is rendered,
    parsed and rebuilt into a structurally equal matrix. *)
Theorem roundtrip_symmetric (alph1 alph2 : Alphabet) (d0 : matrix_dict_t)
    (M : SubstitutionMatrix) :
  __init__ alph1 alph2 (of_dict d0) = Ok M ->
  alph1 <> [] ->
  Forall token_symbol alph1 -> Forall token_symbol alph2 ->
  Forall no_comment alph1 ->
  (forall sym, head alph2 = Some sym -> no_comment sym) ->
  np_array_equal (_matrix M) (np_transpose (_matrix M)) = true ->
  exists M', roundtrip M = Ok M' /\ __eq__ M M' = true.
Proof.
  intros Hinit Hne1 Htok1 Htok2 Hcom1 Hcom2 Hsym.
  pose proof (init_dict_well_formed _ _ _ _ Hinit) as Hwf.
  destruct (init_dict_inv _ _ _ _ Hinit) as [HM Htotal].
  assert (Ha1 : _alph1 M = alph1) by (by rewrite HM).
  assert (Ha2 : _alph2 M = alph2) by (by rewrite HM).
  pose proof (symmetric_square M Hwf Hsym) as Hsq. rewrite Ha1, Ha2 in Hsq.
  assert (Hne2 : alph2 <> []).
  { destruct alph1, alph2; simpl in Hsq; congruence. }
  exists M. split; [|apply eq_reflexive].
  unfold roundtrip. rewrite (str_closed_form M Hwf). cbn [bind].
  rewrite rendered_dict; try assumption; try (rewrite ?Ha1, ?Ha2; assumption).
  cbn [bind]. rewrite Ha1, Ha2.
  rewrite init_dict_ok.
  - symmetry. rewrite HM at 1. do 3 f_equal. apply tabulate2_ext. intros i j Hi Hj.
    symmetry.
    destruct (lookup_lt_is_Some_2 _ _ Hi) as [t1 Ht1].
    destruct (lookup_lt_is_Some_2 _ _ Hj) as [t2 Ht2].
    unfold pairing_score. rewrite Ht1, Ht2.
    by rewrite (parsed_dict_lookup _ _ _ _ _ _ Hinit)
      by (by eapply list_elem_of_lookup_2).
  - intros t1 t2 H1 H2. rewrite (parsed_dict_lookup _ _ _ _ _ _ Hinit H1 H2).
    by apply Htotal.
Qed.

Lemma token_symbol_sample (s : string) :
  of_string s <> [] ->
  forallb (fun c => negb (isspace c)) (of_string s) = true ->
  token_symbol (Str (of_string s)).
Proof.
  intros Hne Hall. exists (of_string s). split; [reflexivity|].
  split; [assumption|]. apply Forall_forall. intros c Hc.
  rewrite forallb_forall in Hall. apply list_elem_of_In, Hall in Hc.
  by apply negb_true_iff.
Qed.

Lemma roundtrip_symmetric_witness :
  exists M', roundtrip sample_sym = Ok M' /\ __eq__ sample_sym M' = true.
Proof.
  apply (roundtrip_symmetric [sym_A; sym_B] [sym_A; sym_B] symmetric_dict sample_sym).
  - vm_compute. reflexivity.
  - discriminate.
  - repeat constructor; by apply token_symbol_sample.
  - repeat constructor; by apply token_symbol_sample.
  - repeat constructor; discriminate.
  - intros sym [= <-]. discriminate.
  - reflexivity.
Defined.

Example roundtrip_sample : roundtrip sample_sym = Ok sample_sym.
Proof. vm_compute. reflexivity. Qed.

Example str_sample :
  __str__ sample_sym
  = Ok (unlines [of_string "    A   B"; of_string "A   5  -3"; of_string "B  -3   7"]).
Proof. vm_compute. reflexivity. Qed.

(** C1 as stated fails: a symbol that starts with the comment sign makes
    its row a comment line, so the text of this matrix, built from a pairing
    map, is not parsed back into a pairing map for its alphabets. *)
Lemma roundtrip_comment_counterexample :
  __init__ [sym_hash] [sym_A] (of_dict hash_dict) = Ok hash_matrix
  /\ __str__ hash_matrix = Ok (unlines [of_string "    A"; of_string "#   1"])
  /\ roundtrip hash_matrix = Raise (KeyError sym_hash sym_A).
Proof. repeat split; vm_compute; reflexivity. Qed.

(** The round trip of a table that is not symmetric gives the transposed
    table: [dict_from_str] transposes the scores it reads. *)
Example roundtrip_plain :
  __init__ [sym_A; sym_B] [sym_A; sym_B] (of_dict plain_dict) = Ok plain_matrix
  /\ roundtrip plain_matrix
     = Ok {| _alph1 := [sym_A; sym_B]; _alph2 := [sym_A; sym_B];
             _matrix := {| dtype_of := int32; shape := [2%nat; 2%nat];
                           data := [1; 3; 2; 4] |} |}
  /\ (let* M' := roundtrip plain_matrix in Ok (__eq__ plain_matrix M')) = Ok false.
Proof. repeat split; vm_compute; reflexivity. Qed.

(** C2 at two concrete texts.  In the square text the header is [A B] and
    the data lines are [A 1 2] and [B 3 4]: the entry for row symbol [A]
    and column symbol [B] is [3], the first score of the second data line,
    where the second score of the first data line is [2].  The wide text,
    one data line [X 1 2] under the header [A B], is not parsed at all. *)
Lemma dict_from_str_transposed :
  header_symbols square_text = [of_string "A"; of_string "B"]
  /\ score_rows square_text
     = [[of_string "1"; of_string "2"]; [of_string "3"; of_string "4"]]
  /\ (let* d := dict_from_str square_text in dict_getitem d sym_A sym_B) = Ok 3
  /\ header_symbols wide_text = [of_string "A"; of_string "B"]
  /\ score_rows wide_text = [[of_string "1"; of_string "2"]]
  /\ dict_from_str wide_text = Raise IndexError.
Proof. repeat split; vm_compute; reflexivity. Qed.

(** ** What [dict_from_str] computes on a square text *)

Lemma content_line_tokens (text line : str) :
  line ∈ content_lines text -> split_ws line <> [].
Proof.
  unfold content_lines. intros Hin.
  apply list_elem_of_In, filter_In in Hin as [Hin Hcontent].
  apply in_map_iff in Hin as (raw & <- & _).
  apply is_content_head in Hcontent as (c & Hc & _).
  rewrite head_strip in Hc. rewrite split_ws_strip.
  by destruct (split_ws raw).
Qed.

Lemma parsed_symbols1 (text : str) :
  comprehension (fun line => list_getitem (split_ws line) 0)
    (drop 1 (content_lines text))
  = Ok (map (fun line => hd [] (split_ws line)) (drop 1 (content_lines text))).
Proof.
  apply comprehension_ok. intros line Hin.
  assert (Hne : split_ws line <> []).
  { apply (content_line_tokens text).
    apply list_elem_of_In. apply list_elem_of_In in Hin.
    destruct (content_lines text) as [|header data]; [done|].
    change (drop 1 (header :: data)) with (drop 0 data) in Hin.
    rewrite drop_0 in Hin. by right. }
  by destruct (split_ws line).
Qed.

(** On a text with as many data lines as header symbols, each data line
    with that many integer tokens, and without repeated row or column
    symbols, the entry for row symbol [i] and column symbol [j] is score
    [i] of data line [j]. *)
Lemma dict_from_str_square_spec (text : str) (vals : list Z) (n i j : nat)
    (sym1 sym2 : str) :
  let symbols1 := map (fun line => hd [] (split_ws line)) (drop 1 (content_lines text)) in
  let symbols2 := header_symbols text in
  content_lines text <> [] ->
  length symbols2 = n -> length (score_rows text) = n ->
  Forall (fun row => length row = n) (score_rows text) ->
  comprehension str_to_int (concat (score_rows text)) = Ok vals ->
  NoDup symbols1 -> NoDup symbols2 ->
  symbols1 !! i = Some sym1 -> symbols2 !! j = Some sym2 ->
  exists d v, dict_from_str text = Ok d
    /\ vals !! (j * n + i)%nat = Some v
    /\ d !! (Str sym1, Str sym2) = Some v.
Proof.
  intros symbols1 symbols2 Hne Hn Hr Hrows Hvals Hnd1 Hnd2 Hi Hj.
  assert (Hlen1 : length symbols1 = n).
  { subst symbols1. rewrite length_map. unfold score_rows in Hr.
    by rewrite length_map in Hr. }
  pose proof (lookup_lt_Some _ _ _ Hi) as Hi'. rewrite Hlen1 in Hi'.
  pose proof (lookup_lt_Some _ _ _ Hj) as Hj'. rewrite Hn in Hj'.
  assert (Hvlen : length vals = (n * n)%nat).
  { rewrite (comprehension_length _ _ _ Hvals).
    rewrite <- Hr at 1. clear -Hrows.
    induction Hrows as [|row rows Hrow _ IH]; [reflexivity|].
    simpl. rewrite length_app, IH, Hrow. reflexivity. }
  destruct (lookup_lt_is_Some_2 vals (j * n + i)%nat ltac:(nia)) as [v Hv].
  set (scores := {| dtype_of := int64; shape := [n; n]; data := vals |}).
  set (key := fun ij : nat * nat =>
                (Str (default [] (symbols1 !! ij.1)), Str (default [] (symbols2 !! ij.2)))).
  set (val := fun ij : nat * nat => item (np_transpose scores) (ij.1 * n + ij.2)).
  assert (Hparse : dict_from_str text
            = Ok (fold_left (fun (d : matrix_dict_t) x => <[key x := val x]> d)
                    (cells n n) (∅ : matrix_dict_t))).
  { rewrite dict_from_str_stages, parsed_symbols1. cbn [bind].
    fold symbols1. unfold list_getitem at 1.
    destruct (content_lines text) as [|header data] eqn:Hlines; [done|].
    cbn [lookup list_lookup bind].
    rewrite (np_array_astype_int_uniform _ n); [| |assumption].
    2:{ intros Hnil. rewrite Hnil in Hr. simpl in Hr. lia. }
    rewrite Hvals. cbn [bind]. rewrite Hr. fold scores.
    replace (split_ws header) with symbols2
      by (subst symbols2; unfold header_symbols; by rewrite Hlines).
    rewrite Hlen1, Hn.
    apply for_each_pure. intros d [i' j'] Hin. apply elem_of_cells in Hin as [Hi2 Hj2].
    unfold store_pairing, list_getitem. cbn [fst snd].
    destruct (lookup_lt_is_Some_2 symbols1 i' ltac:(lia)) as [t1 Ht1].
    destruct (lookup_lt_is_Some_2 symbols2 j' ltac:(lia)) as [t2 Ht2].
    rewrite Ht1, Ht2. cbn [bind].
    rewrite (getitem2_nat _ n n i' j'); [|reflexivity|apply length_tabulate2|lia|lia].
    cbn [bind]. subst key val. cbn [fst snd]. by rewrite Ht1, Ht2. }
  destruct (fold_insert_is_Some key val (cells n n) ∅ (Str sym1, Str sym2)) as [w Hw].
  { right. exists (i, j). split; [by apply elem_of_cells|].
    subst key. cbn [fst snd]. by rewrite Hi, Hj. }
  eexists; exists v. split; [exact Hparse|]. split; [assumption|].
  rewrite Hw. f_equal.
  apply fold_insert_lookup in Hw as [([i' j'] & Hin & Hkey & Hval)|Hempty];
    [|by rewrite lookup_empty in Hempty].
  apply elem_of_cells in Hin as [Hi2 Hj2].
  destruct (lookup_lt_is_Some_2 symbols1 i' ltac:(lia)) as [t1 Ht1].
  destruct (lookup_lt_is_Some_2 symbols2 j' ltac:(lia)) as [t2 Ht2].
  subst key val. cbn [fst snd] in Hkey, Hval. rewrite Ht1, Ht2 in Hkey.
  simpl in Hkey. injection Hkey as -> ->.
  assert (i' = i) as -> by exact (NoDup_lookup _ _ _ _ Hnd1 Ht1 Hi).
  assert (j' = j) as -> by exact (NoDup_lookup _ _ _ _ Hnd2 Ht2 Hj).
  rewrite <- Hval.
  rewrite (np_transpose_item scores n n j i); [|reflexivity|assumption|assumption].
  unfold item. simpl. by rewrite Hv.
Qed.

(** * Further properties of the class *)

(** ** The constructor on a dense table *)

Lemma no_extreme_any (a : ndarray) :
  np_any_eq a INT32_MAX || np_any_eq a INT32_MIN = false <-> no_extreme a.
Proof.
  unfold no_extreme. rewrite orb_false_iff, !np_any_eq_false, !Forall_forall.
  split.
  - intros [Hmax Hmin] z Hz. split; [by apply Hmax|by apply Hmin].
  - intros H. split; intros z Hz; by apply H.
Qed.

(** What an accepted array has passed, and what is stored for it. *)
Lemma init_dense_inv (alphabet1 alphabet2 : Alphabet) (a : ndarray)
    (M : SubstitutionMatrix) :
  __init__ alphabet1 alphabet2 (of_ndarray a) = Ok M ->
  shape a = [length alphabet1; length alphabet2]
  /\ is_integer (dtype_of a) = true
  /\ M = {| _alph1 := alphabet1; _alph2 := alphabet2; _matrix := astype_int32 a |}
  /\ no_extreme (astype_int32 a).
Proof.
  intros Hinit.
  destruct (decide (shape a = [length alphabet1; length alphabet2])) as [Hs|Hs];
    [|by rewrite init_dense_bad_shape in Hinit].
  destruct (is_integer (dtype_of a)) eqn:Hint;
    [|by rewrite init_dense_not_integer in Hinit].
  rewrite init_ndarray_checks in Hinit by assumption.
  destruct (np_any_eq (astype_int32 a) INT32_MAX || np_any_eq (astype_int32 a) INT32_MIN)
    eqn:Hany; [discriminate|].
  injection Hinit as <-. by apply no_extreme_any in Hany.
Qed.

(** X1: the constructor accepts an array exactly when its shape is that of
    the two alphabets, its element type is an integer type and no element,
    converted to 32 bits, is the largest or the smallest 32-bit integer.
    The checks run in this order: a wrong shape is reported as the shape
    [ValueError] whatever the element type is, and an element type that is
    no integer type as [TypeError] whatever the elements are. *)
Theorem init_dense_accepts_iff (alphabet1 alphabet2 : Alphabet) (a : ndarray) :
  (is_ok (__init__ alphabet1 alphabet2 (of_ndarray a)) = true
   <-> shape a = [length alphabet1; length alphabet2]
       /\ is_integer (dtype_of a) = true
       /\ Forall (fun z => wrap_int32 z <> INT32_MAX /\ wrap_int32 z <> INT32_MIN) (data a))
  /\ (shape a <> [length alphabet1; length alphabet2] ->
      __init__ alphabet1 alphabet2 (of_ndarray a) = Raise (ValueError BadShape))
  /\ (shape a = [length alphabet1; length alphabet2] ->
      is_integer (dtype_of a) = false ->
      __init__ alphabet1 alphabet2 (of_ndarray a) = Raise TypeError).
Proof.
  split; [|split; [apply init_dense_bad_shape|apply init_dense_not_integer]].
  split.
  - intros Hok. apply is_ok_true in Hok as [M HM].
    apply init_dense_inv in HM as (Hs & Hint & _ & Hno).
    split; [assumption|]. split; [assumption|].
    unfold no_extreme in Hno. simpl in Hno. by rewrite Forall_fmap in Hno.
  - intros (Hs & Hint & Hall). rewrite init_ndarray_checks by assumption.
    assert (Hno : no_extreme (astype_int32 a)).
    { unfold no_extreme. simpl. by rewrite Forall_fmap. }
    apply no_extreme_any in Hno. by rewrite Hno.
Qed.

(** X2: a matrix built from an array answers a lookup by code with the
    element of the array at the same index pair (negative indices
    included), reduced to 32 bits; an element that fits 32 bits is returned
    unchanged. *)
Theorem init_dense_get_score_by_code (alphabet1 alphabet2 : Alphabet) (a : ndarray)
    (M : SubstitutionMatrix) (i j v : Z) :
  __init__ alphabet1 alphabet2 (of_ndarray a) = Ok M ->
  getitem2 a i j = Ok v ->
  get_score_by_code M i j = Ok (wrap_int32 v)
  /\ (INT32_MIN <= v <= INT32_MAX -> get_score_by_code M i j = Ok v).
Proof.
  intros Hinit Hget.
  assert (Hw : get_score_by_code M i j = Ok (wrap_int32 v)).
  { apply init_dense_inv in Hinit as (Hs & _ & -> & _).
    unfold get_score_by_code, getitem2 in *. simpl. rewrite Hs in *.
    destruct (normalize_index i (length alphabet1)) as [i'|]; [|discriminate].
    destruct (normalize_index j (length alphabet2)) as [j'|]; [|discriminate].
    simpl in *. unfold list_getitem in *. rewrite list_lookup_fmap.
    destruct (data a !! _); [|discriminate]. by injection Hget as ->. }
  split; [assumption|]. intros Hv. rewrite Hw. f_equal. by apply in_int32_wrap.
Qed.

Lemma init_dense_get_score_by_code_witness :
  get_score_by_code
    {| _alph1 := [sym_A]; _alph2 := [sym_A; sym_B];
       _matrix := {| dtype_of := int32; shape := [1%nat; 2%nat]; data := [1; 5] |} |}
    (-1) 1 = Ok (wrap_int32 (2 ^ 32 + 5))
  /\ (INT32_MIN <= 2 ^ 32 + 5 <= INT32_MAX ->
      get_score_by_code
        {| _alph1 := [sym_A]; _alph2 := [sym_A; sym_B];
           _matrix := {| dtype_of := int32; shape := [1%nat; 2%nat]; data := [1; 5] |} |}
        (-1) 1 = Ok (2 ^ 32 + 5)).
Proof.
  apply (init_dense_get_score_by_code [sym_A] [sym_A; sym_B]
           {| dtype_of := int64; shape := [1%nat; 2%nat]; data := [1; 2 ^ 32 + 5] |}).
  - vm_compute. reflexivity.
  - vm_compute. reflexivity.
Defined.

(** X3: rebuilding a matrix from what its getters return.  A matrix built
    from an array is rebuilt into itself; a matrix built from a dictionary
    is rebuilt into itself if it holds neither extreme 32-bit integer, and
    is refused otherwise. *)
Theorem init_from_getters (alphabet1 alphabet2 : Alphabet) (arg : score_matrix_arg)
    (M : SubstitutionMatrix) :
  __init__ alphabet1 alphabet2 arg = Ok M ->
  let rebuilt :=
    __init__ (get_alphabet1 M) (get_alphabet2 M) (of_ndarray (score_matrix M)) in
  (forall a, arg = of_ndarray a -> rebuilt = Ok M)
  /\ (no_extreme (_matrix M) -> rebuilt = Ok M)
  /\ (~ no_extreme (_matrix M) -> rebuilt = Raise (ValueError ScoresTooLarge)).
Proof.
  intros Hinit rebuilt. subst rebuilt. unfold get_alphabet1, get_alphabet2, score_matrix.
  assert (Hwf : dtype_of (_matrix M) = int32
                /\ shape (_matrix M) = [length (_alph1 M); length (_alph2 M)]
                /\ Forall in_int32 (data (_matrix M))).
  { destruct arg as [d|a].
    - by pose proof (init_dict_well_formed _ _ _ _ Hinit) as [Hd Hs _ Hr].
    - apply init_dense_inv in Hinit as (Hs & _ & -> & _). simpl.
      split; [reflexivity|]. split; [assumption|].
      apply Forall_fmap, Forall_forall. intros z _. apply wrap_int32_range. }
  destruct Hwf as (Hd & Hs & Hr).
  assert (Hrebuild : no_extreme (_matrix M) ->
            __init__ (_alph1 M) (_alph2 M) (of_ndarray (_matrix M)) = Ok M).
  { intros Hno. rewrite init_int32_table by assumption. by destruct M. }
  split; [|split; [assumption|]].
  - intros a ->. apply Hrebuild.
    by apply init_dense_inv in Hinit as (_ & _ & -> & Hno).
  - intros Hext. rewrite init_ndarray_checks; [|assumption|by rewrite Hd].
    rewrite astype_int32_id by assumption.
    destruct (np_any_eq (_matrix M) INT32_MAX || np_any_eq (_matrix M) INT32_MIN)
      eqn:Hany; [reflexivity|]. by apply no_extreme_any in Hany.
Qed.

Lemma init_from_getters_witness :
  (forall a, of_dict extreme_dict = of_ndarray a ->
     __init__ (get_alphabet1 extreme_matrix) (get_alphabet2 extreme_matrix)
       (of_ndarray (score_matrix extreme_matrix)) = Ok extreme_matrix)
  /\ (no_extreme (_matrix extreme_matrix) ->
      __init__ (get_alphabet1 extreme_matrix) (get_alphabet2 extreme_matrix)
        (of_ndarray (score_matrix extreme_matrix)) = Ok extreme_matrix)
  /\ (~ no_extreme (_matrix extreme_matrix) ->
      __init__ (get_alphabet1 extreme_matrix) (get_alphabet2 extreme_matrix)
        (of_ndarray (score_matrix extreme_matrix)) = Raise (ValueError ScoresTooLarge)).
Proof.
  apply (init_from_getters [sym_A] [sym_A] (of_dict extreme_dict) extreme_matrix).
  vm_compute. reflexivity.
Defined.

(** ** The constructor on a dictionary *)

Lemma comprehension_ext {A B : Type} (f g : A -> result B) (l : list A) :
  (forall x, x ∈ l -> f x = g x) -> comprehension f l = comprehension g l.
Proof.
  induction l as [|x l IH]; intros H; simpl; [reflexivity|].
  rewrite H by constructor. rewrite IH; [reflexivity|].
  intros y Hy. apply H. by constructor.
Qed.

Lemma init_dict_score (alph1 alph2 : Alphabet) (d : matrix_dict_t)
    (M : SubstitutionMatrix) (t1 t2 : symbol) (v : Z) :
  __init__ alph1 alph2 (of_dict d) = Ok M ->
  t1 ∈ alph1 -> t2 ∈ alph2 -> d !! (t1, t2) = Some v ->
  get_score M t1 t2 = Ok v.
Proof.
  intros Hinit H1 H2 Hv.
  pose proof (init_dict_well_formed _ _ _ _ Hinit) as Hwf.
  destruct (init_dict_inv _ _ _ _ Hinit) as [HM _].
  assert (Ha1 : _alph1 M = alph1) by (by rewrite HM).
  assert (Ha2 : _alph2 M = alph2) by (by rewrite HM).
  destruct (encode_elem alph1 t1 H1) as (i & Hei & Hi).
  destruct (encode_elem alph2 t2 H2) as (j & Hej & Hj).
  rewrite (get_score_lookup M t1 t2 i j Hwf) by (by rewrite ?Ha1, ?Ha2).
  f_equal.
  rewrite (init_dict_entry _ _ _ _ _ _ Hinit) by (by eapply lookup_lt_Some).
  by apply (pairing_score_lookup _ _ _ _ _ t1 t2).
Qed.

(** X4: a matrix built from a dictionary answers [get_score] with the
    dictionary's value, for every symbol of alphabet 1 paired with every
    symbol of alphabet 2. *)
Theorem init_dict_get_score (alph1 alph2 : Alphabet) (d : matrix_dict_t)
    (M : SubstitutionMatrix) (t1 t2 : symbol) :
  __init__ alph1 alph2 (of_dict d) = Ok M ->
  t1 ∈ alph1 -> t2 ∈ alph2 ->
  exists v, d !! (t1, t2) = Some v /\ get_score M t1 t2 = Ok v
            /\ get_score M t1 t2 = dict_getitem d t1 t2.
Proof.
  intros Hinit H1 H2.
  destruct (init_dict_inv _ _ _ _ Hinit) as [_ Htotal].
  destruct (Htotal t1 t2 H1 H2) as (v & Hv & _).
  pose proof (init_dict_score _ _ _ _ _ _ _ Hinit H1 H2 Hv) as Hscore.
  exists v. split; [assumption|]. split; [assumption|].
  rewrite Hscore. unfold dict_getitem. by rewrite Hv.
Qed.

Lemma init_dict_get_score_witness :
  exists v, total_dict !! (sym_B, sym_A) = Some v
    /\ get_score
         {| _alph1 := [sym_A; sym_B]; _alph2 := [sym_A; sym_B];
            _matrix := {| dtype_of := int32; shape := [2%nat; 2%nat];
                          data := [1; 2; 3; INT32_MIN] |} |} sym_B sym_A = Ok v
    /\ get_score
         {| _alph1 := [sym_A; sym_B]; _alph2 := [sym_A; sym_B];
            _matrix := {| dtype_of := int32; shape := [2%nat; 2%nat];
                          data := [1; 2; 3; INT32_MIN] |} |} sym_B sym_A
       = dict_getitem total_dict sym_B sym_A.
Proof.
  apply (init_dict_get_score [sym_A; sym_B] [sym_A; sym_B] total_dict).
  - vm_compute. reflexivity.
  - by_evaluation.
  - by_evaluation.
Defined.

(** X5: the constructor reads the dictionary at the pairings of the two
    alphabets only: two dictionaries that agree there give the same
    outcome, the same matrix or the same exception, whatever else they
    hold. *)
Theorem init_dict_other_keys (alph1 alph2 : Alphabet) (d d' : matrix_dict_t) :
  (forall t1 t2, t1 ∈ alph1 -> t2 ∈ alph2 -> d !! (t1, t2) = d' !! (t1, t2)) ->
  __init__ alph1 alph2 (of_dict d) = __init__ alph1 alph2 (of_dict d').
Proof.
  intros Hagree. rewrite !init_dict_spec.
  rewrite (comprehension_ext (stored_value alph1 alph2 d) (stored_value alph1 alph2 d'));
    [reflexivity|].
  intros [i j] Hin. apply elem_of_cells in Hin as [Hi Hj].
  destruct (lookup_lt_is_Some_2 _ _ Hi) as [t1 Ht1].
  destruct (lookup_lt_is_Some_2 _ _ Hj) as [t2 Ht2].
  rewrite !(stored_value_at _ _ _ _ _ _ _ Ht1 Ht2).
  rewrite Hagree; [reflexivity| |]; by eapply list_elem_of_lookup_2.
Qed.

Lemma init_dict_other_keys_witness :
  __init__ [sym_A] [sym_A] (of_dict {[ (sym_A, sym_A) := 7 ]})
  = __init__ [sym_A] [sym_A]
      (of_dict {[ (sym_A, sym_A) := 7; (sym_A, sym_B) := 2 ^ 70; (Int 3, sym_C) := 1 ]}).
Proof.
  apply (init_dict_other_keys [sym_A] [sym_A]).
  intros t1 t2 H1 H2.
  apply list_elem_of_singleton in H1 as ->. apply list_elem_of_singleton in H2 as ->.
  vm_compute. reflexivity.
Defined.

(** ** Lookup by code *)

(** X6: on a matrix that satisfies the class invariant, [get_score_by_code]
    returns a score exactly for the codes [-m <= code1 < m] and
    [-n <= code2 < n], where [(m, n)] is the shape; for all others it raises
    [IndexError], and it raises nothing else.  A returned score fits 32
    bits. *)
Theorem get_score_by_code_defined_iff (M : SubstitutionMatrix) (code1 code2 : Z) :
  well_formed M ->
  let m := Z.of_nat (fst (get_shape M)) in
  let n := Z.of_nat (snd (get_shape M)) in
  (is_ok (get_score_by_code M code1 code2) = true
   <-> - m <= code1 < m /\ - n <= code2 < n)
  /\ (forall e, get_score_by_code M code1 code2 = Raise e -> e = IndexError)
  /\ (forall v, get_score_by_code M code1 code2 = Ok v -> INT32_MIN <= v <= INT32_MAX).
Proof.
  intros Hwf m n. subst m n. unfold get_shape. simpl.
  pose proof Hwf as [_ Hs Hl Hr].
  split; [|split].
  - split.
    + intros Hok.
      destruct (decide (- Z.of_nat (length (_alph1 M)) <= code1 < Z.of_nat (length (_alph1 M))
                        /\ - Z.of_nat (length (_alph2 M)) <= code2
                             < Z.of_nat (length (_alph2 M)))) as [H|H]; [assumption|].
      by rewrite (get_score_by_code_out_of_range M code1 code2 Hwf H) in Hok.
    + intros [H1 H2]. unfold get_score_by_code.
      by rewrite (getitem2_in _ _ _ _ _ Hs Hl H1 H2).
  - intros e. apply getitem2_raises.
  - intros v Hv. unfold get_score_by_code, getitem2 in Hv. rewrite Hs in Hv.
    destruct (normalize_index code1 _) as [i|]; [|discriminate].
    destruct (normalize_index code2 _) as [j|]; [|discriminate].
    simpl in Hv. unfold list_getitem in Hv.
    destruct (data (_matrix M) !! _) as [x|] eqn:Hx; [|discriminate].
    injection Hv as <-. rewrite Forall_forall in Hr.
    apply list_elem_of_lookup_2 in Hx. by apply Hr.
Qed.

Lemma get_score_by_code_defined_iff_witness :
  (is_ok (get_score_by_code sample_2x3 (-2) 3) = true
   <-> - 2 <= -2 < 2 /\ - 3 <= 3 < 3)
  /\ (forall e, get_score_by_code sample_2x3 (-2) 3 = Raise e -> e = IndexError)
  /\ (forall v, get_score_by_code sample_2x3 (-2) 3 = Ok v -> INT32_MIN <= v <= INT32_MAX).
Proof.
  apply (get_score_by_code_defined_iff sample_2x3 (-2) 3). apply sample_2x3_wf.
Defined.

(** ** Transposition, symmetry and equality *)

Lemma np_transpose_no_extreme (a : ndarray) (m n : nat) :
  shape a = [m; n] -> length (data a) = (m * n)%nat ->
  no_extreme (np_transpose a) <-> no_extreme a.
Proof.
  intros Hs Hl. unfold no_extreme. split; intros H.
  - rewrite <- (np_transpose_involutive a m n Hs Hl).
    apply (np_transpose_Forall _ _ n m); [by apply np_transpose_shape| |assumption].
    rewrite (np_transpose_data _ _ _ Hs), length_tabulate2. reflexivity.
  - by apply (np_transpose_Forall _ _ m n).
Qed.

(** What a successful [transpose] has checked, and what it returns. *)
Lemma transpose_inv (M Mt : SubstitutionMatrix) :
  well_formed M -> transpose M = Ok Mt ->
  no_extreme (_matrix M)
  /\ Mt = {| _alph1 := _alph2 M; _alph2 := _alph1 M;
             _matrix := np_transpose (_matrix M) |}.
Proof.
  intros [Hd Hs Hl Hr] Ht. unfold transpose in Ht.
  apply init_dense_inv in Ht as (_ & _ & -> & Hno).
  rewrite astype_int32_id in Hno |- *;
    try (by rewrite np_transpose_dtype);
    try (by apply (np_transpose_Forall _ _ _ _ Hs Hl)).
  split; [|reflexivity]. by apply (np_transpose_no_extreme _ _ _ Hs Hl).
Qed.

(** X7: [transpose] on a matrix that satisfies the class invariant succeeds
    exactly when the table holds neither extreme 32-bit integer.  The
    transposed matrix has the swapped shape, satisfies the invariant, and
    its own transpose is the original matrix. *)
Theorem transpose_involutive (M : SubstitutionMatrix) :
  well_formed M ->
  (is_ok (transpose M) = true <-> no_extreme (_matrix M))
  /\ forall Mt, transpose M = Ok Mt ->
       transpose Mt = Ok M
       /\ get_shape Mt = (snd (get_shape M), fst (get_shape M))
       /\ well_formed Mt.
Proof.
  intros Hwf. pose proof Hwf as [Hd Hs Hl Hr].
  pose proof (fun Mt => transpose_inv M Mt Hwf) as Hinv.
  split.
  - split.
    + intros Hok. apply is_ok_true in Hok as [Mt Ht]. by apply Hinv in Ht as [Hno _].
    + intros Hno. by rewrite transpose_ok.
  - intros Mt Ht. apply Hinv in Ht as [Hno ->].
    pose proof (transpose_well_formed M Hwf) as Hwft.
    split; [|split; [reflexivity|assumption]].
    rewrite transpose_ok; [|assumption|by apply (np_transpose_no_extreme _ _ _ Hs Hl)].
    simpl. rewrite (np_transpose_involutive _ _ _ Hs Hl). by destruct M.
Qed.

Lemma transpose_involutive_witness :
  (is_ok (transpose sample_2x3) = true <-> no_extreme (_matrix sample_2x3))
  /\ forall Mt, transpose sample_2x3 = Ok Mt ->
       transpose Mt = Ok sample_2x3
       /\ get_shape Mt = (snd (get_shape sample_2x3), fst (get_shape sample_2x3))
       /\ well_formed Mt.
Proof. apply (transpose_involutive sample_2x3). apply sample_2x3_wf. Defined.

(** X8: a matrix that satisfies the class invariant and holds neither
    extreme 32-bit integer is symmetric exactly when [transpose] returns
    the matrix itself. *)
Theorem is_symmetric_transpose (M : SubstitutionMatrix) :
  well_formed M -> no_extreme (_matrix M) ->
  is_symmetric M = true <-> transpose M = Ok M.
Proof.
  intros Hwf Hno. pose proof Hwf as [Hd Hs Hl Hr].
  rewrite (transpose_ok M Hwf Hno). unfold is_symmetric, np_array_equal.
  rewrite !andb_true_iff, !bool_decide_eq_true. split.
  - intros (Ha & Hshape & Hdata). f_equal. destruct M as [a1 a2 m]. simpl in *.
    subst a2. f_equal. destruct m as [dt sh da], (np_transpose _) as [dt' sh' da'] eqn:Ht.
    simpl in *. subst sh' da'.
    assert (Hdt : dt' = dt).
    { change dt' with (dtype_of {| dtype_of := dt'; shape := sh; data := da |}).
      rewrite <- Ht. apply np_transpose_dtype. }
    by rewrite Hdt.
  - intros HM. injection HM as HM. destruct M as [a1 a2 m]. simpl in *.
    injection HM as Ha1 Ha2 Hm. rewrite Hm. auto.
Qed.

Lemma is_symmetric_transpose_witness :
  is_symmetric sample_sym = true <-> transpose sample_sym = Ok sample_sym.
Proof.
  apply (is_symmetric_transpose sample_sym).
  - apply sample_sym_wf.
  - unfold no_extreme. simpl. repeat constructor; discriminate.
Defined.

(** X9: on matrices that satisfy the class invariant, [==] holds exactly
    for equal alphabets and equal tables and [!=] exactly for the others;
    [==] does not depend on the order of its operands. *)
Theorem eq_iff (M N : SubstitutionMatrix) :
  well_formed M -> well_formed N ->
  (__eq__ M N = true <-> M = N)
  /\ (__ne__ M N = true <-> M <> N)
  /\ __eq__ M N = __eq__ N M.
Proof.
  intros [HdM _ _ _] [HdN _ _ _].
  assert (Heq : forall P Q, dtype_of (_matrix P) = int32 -> dtype_of (_matrix Q) = int32 ->
            (__eq__ P Q = true <-> P = Q)).
  { intros P Q HdP HdQ.
    unfold __eq__, get_alphabet1, get_alphabet2, score_matrix, np_array_equal. split.
    - destruct P as [a1 a2 [dt sh da]], Q as [b1 b2 [dt' sh' da']]. simpl in *.
      repeat case_bool_decide; simpl; try discriminate. intros _. by subst.
    - intros ->. by rewrite !bool_decide_eq_true_2. }
  split; [by apply Heq|]. split.
  - unfold __ne__. rewrite negb_true_iff, <- not_true_iff_false. by rewrite Heq.
  - destruct (__eq__ M N) eqn:H1, (__eq__ N M) eqn:H2; try reflexivity.
    + apply Heq in H1; [|assumption..]. subst. by rewrite eq_reflexive in H2.
    + apply Heq in H2; [|assumption..]. subst. by rewrite eq_reflexive in H1.
Qed.

Lemma eq_iff_witness :
  (__eq__ sample_sym plain_matrix = true <-> sample_sym = plain_matrix)
  /\ (__ne__ sample_sym plain_matrix = true <-> sample_sym <> plain_matrix)
  /\ __eq__ sample_sym plain_matrix = __eq__ plain_matrix sample_sym.
Proof.
  apply (eq_iff sample_sym plain_matrix).
  - apply sample_sym_wf.
  - split; [reflexivity|reflexivity|reflexivity|].
    simpl. repeat constructor; by_evaluation.
Defined.

(** ** The rendered text *)

Lemma length_rjust (w : nat) (s : str) : length (rjust w s) = (w `max` length s)%nat.
Proof. unfold rjust. rewrite length_app, length_replicate. lia. Qed.

Lemma rjust_no_newline (w : nat) (s : str) : newline ∉ s -> newline ∉ rjust w s.
Proof.
  intros Hs Hin. unfold rjust in Hin. apply elem_of_app in Hin as [Hin|Hin]; [|done].
  by apply elem_of_replicate in Hin as [? _].
Qed.

Lemma spaced_no_newline (fields : list str) :
  Forall (fun t => newline ∉ t) fields -> newline ∉ spaced fields.
Proof.
  induction 1 as [|t ts Ht _ IH]; [by intros ?%elem_of_nil|].
  unfold spaced in *. simpl. intros Hin.
  apply elem_of_cons in Hin as [?|Hin]; [done|].
  apply elem_of_app in Hin as [Hin|Hin]; [|done].
  by apply rjust_no_newline in Hin.
Qed.

Lemma length_spaced (fields : list str) :
  Forall (fun t => (length t <= 3)%nat) fields ->
  length (spaced fields) = (4 * length fields)%nat.
Proof.
  induction 1 as [|t ts Ht _ IH]; [reflexivity|].
  unfold spaced in *. simpl. rewrite length_app, length_rjust, IH. lia.
Qed.

Lemma format_int_no_newline (z : Z) : newline ∉ format_int z.
Proof.
  intros Hin. pose proof (format_int_no_space z) as H.
  rewrite Forall_forall in H. by apply H in Hin.
Qed.

(** Scores of at most three characters: one or two digits after a sign, up
    to three digits without. *)
Lemma format_int_short (z : Z) : -99 <= z <= 999 -> (length (format_int z) <= 3)%nat.
Proof.
  intros Hz.
  assert (Hall : forallb (fun k => length (format_int (Z.of_nat k - 99)) <=? 3)%nat
                   (seq 0 1099) = true) by (vm_compute; reflexivity).
  rewrite forallb_forall in Hall.
  specialize (Hall (Z.to_nat (z + 99))).
  replace (Z.of_nat (Z.to_nat (z + 99)) - 99) with z in Hall by lia.
  apply Nat.leb_le, Hall, in_seq. lia.
Qed.

Lemma last_unlines (ls : list str) (l : str) :
  last ls = Some l -> l <> [] -> last (unlines ls) = last l.
Proof.
  intros Hlast Hne. induction ls as [|l0 ls IH]; [discriminate|].
  destruct ls as [|l1 ls].
  - simpl in *. by injection Hlast as ->.
  - change (unlines (l0 :: l1 :: ls)) with (l0 ++ newline :: unlines (l1 :: ls)).
    rewrite last_app_cons, last_cons.
    rewrite last_cons in Hlast.
    destruct (last (l1 :: ls)) as [l2|] eqn:Hl2; [|by apply last_None in Hl2].
    rewrite IH by assumption. injection Hlast as ->.
    destruct l as [|c l] using rev_ind; [done|]. by rewrite last_snoc.
Qed.

(** No line of the rendered text holds a line break, if no symbol does. *)
Lemma rendered_lines_no_newline (M : SubstitutionMatrix) :
  Forall (fun sym => newline ∉ py_str sym) (_alph1 M ++ _alph2 M) ->
  Forall (fun l : str => newline ∉ l) (header_line M :: row_lines M).
Proof.
  intros Hnl. apply Forall_app in Hnl as [Hnl1 Hnl2]. constructor.
  - unfold header_line. intros Hin. apply elem_of_cons in Hin as [?|Hin]; [done|].
    revert Hin. apply spaced_no_newline. by apply Forall_fmap.
  - unfold row_lines. apply Forall_fmap, Forall_forall. intros [i sym] Hin. simpl.
    apply elem_of_enumerate, list_elem_of_lookup_2 in Hin.
    rewrite Forall_forall in Hnl1. unfold row_line. intros Hc.
    apply elem_of_app in Hc as [Hc|Hc].
    + revert Hc. by apply rjust_no_newline, Hnl1.
    + revert Hc. apply spaced_no_newline, Forall_fmap, Forall_forall.
      intros j _. apply format_int_no_newline.
Qed.

(** X10: [__str__] succeeds on every matrix that satisfies the class
    invariant.  If no symbol contains a line break, the text has one line
    more than alphabet 1 has symbols: the header line, then the row line
    of each symbol of alphabet 1 in order; it does not end in a line
    break. *)
Theorem str_lines (M : SubstitutionMatrix) :
  well_formed M ->
  exists text, __str__ M = Ok text
    /\ (Forall (fun sym => newline ∉ py_str sym) (_alph1 M ++ _alph2 M) ->
        split_on newline text = header_line M :: row_lines M
        /\ length (split_on newline text) = S (length (_alph1 M))
        /\ last text <> Some newline).
Proof.
  intros Hwf. exists (unlines (header_line M :: row_lines M)).
  split; [by apply str_closed_form|].
  intros Hnl. pose proof (rendered_lines_no_newline M Hnl) as Hall.
  assert (Hsplit : split_on newline (unlines (header_line M :: row_lines M))
                   = header_line M :: row_lines M).
  { by apply split_on_unlines. }
  split; [assumption|]. split.
  - rewrite Hsplit. simpl. f_equal. unfold row_lines, enumerate.
    rewrite length_map, length_zip_with. unfold range. rewrite length_seq. lia.
  - assert (Hne : Forall (fun l : str => l <> []) (header_line M :: row_lines M)).
    { constructor; [done|]. unfold row_lines. apply Forall_fmap, Forall_forall.
      intros [i sym] _. simpl. unfold row_line. intros Hnil.
      apply (f_equal length) in Hnil. rewrite length_app, length_rjust in Hnil.
      simpl in Hnil. lia. }
    destruct (last (header_line M :: row_lines M)) as [l|] eqn:Hl;
      [|by apply last_None in Hl].
    assert (Hin : l ∈ header_line M :: row_lines M).
    { apply last_Some in Hl as [ls' ->]. apply elem_of_app. right. constructor. }
    rewrite Forall_forall in Hne.
    rewrite (last_unlines _ l Hl) by (by apply Hne).
    intros Hlast. apply last_Some in Hlast as [l' ->].
    rewrite Forall_forall in Hall. apply (Hall _ Hin).
    apply elem_of_app. right. constructor.
Qed.

Lemma str_lines_witness :
  exists text, __str__ sample_2x3 = Ok text
    /\ (Forall (fun sym => newline ∉ py_str sym) (_alph1 sample_2x3 ++ _alph2 sample_2x3) ->
        split_on newline text = header_line sample_2x3 :: row_lines sample_2x3
        /\ length (split_on newline text) = S (length (_alph1 sample_2x3))
        /\ last text <> Some newline).
Proof. apply (str_lines sample_2x3). apply sample_2x3_wf. Defined.

(** X11: the columns of the rendered text line up.  If the symbols of
    alphabet 1 have at most one character, those of alphabet 2 at most
    three, and every score lies between -99 and 999, then every line of
    the text has the same length: one character and four more for each
    symbol of alphabet 2. *)
Theorem str_aligned (M : SubstitutionMatrix) :
  well_formed M ->
  Forall (fun sym => (length (py_str sym) <= 1)%nat) (_alph1 M) ->
  Forall (fun sym => (length (py_str sym) <= 3)%nat) (_alph2 M) ->
  Forall (fun v => -99 <= v <= 999) (data (_matrix M)) ->
  Forall (fun sym => newline ∉ py_str sym) (_alph1 M ++ _alph2 M) ->
  exists text, __str__ M = Ok text
    /\ Forall (fun line : str => length line = (1 + 4 * length (_alph2 M))%nat)
         (split_on newline text).
Proof.
  intros Hwf Hlen1 Hlen2 Hsmall Hnl. pose proof Hwf as [_ _ Hl _].
  exists (unlines (header_line M :: row_lines M)).
  split; [by apply str_closed_form|].
  rewrite split_on_unlines; [|discriminate|by apply rendered_lines_no_newline].
  constructor.
  - unfold header_line. simpl. rewrite length_spaced, length_map; [lia|].
    by apply Forall_fmap.
  - unfold row_lines. apply Forall_fmap, Forall_forall. intros [i sym] Hin. simpl.
    apply elem_of_enumerate in Hin.
    pose proof (lookup_lt_Some _ _ _ Hin) as Hi.
    apply list_elem_of_lookup_2 in Hin.
    rewrite Forall_forall in Hlen1. apply Hlen1 in Hin.
    unfold row_line. rewrite length_app, length_rjust, length_spaced.
    + rewrite length_map. unfold range. rewrite length_seq. lia.
    + apply Forall_fmap, Forall_forall. intros j Hj. simpl.
      apply list_elem_of_In, in_seq in Hj. apply format_int_short.
      rewrite Forall_forall in Hsmall. apply Hsmall.
      unfold entry. apply item_elem. rewrite Hl. nia.
Qed.

Lemma str_aligned_witness :
  exists text, __str__ sample_sym = Ok text
    /\ Forall (fun line : str => length line = (1 + 4 * length (_alph2 sample_sym))%nat)
         (split_on newline text).
Proof.
  apply (str_aligned sample_sym).
  - apply sample_sym_wf.
  - repeat constructor.
  - repeat constructor.
  - simpl. repeat constructor; lia.
  - simpl. repeat constructor; by_evaluation.
Defined.

(** ** The parser on short, commented and rectangular texts *)

Lemma split_on_nonempty (sep : ascii) (s : str) : split_on sep s <> [].
Proof.
  destruct s as [|c s]; simpl; [done|].
  destruct (decide (c = sep)); [done|]. by destruct (split_on sep s).
Qed.

Lemma split_on_app_sep (sep : ascii) (a b : str) :
  split_on sep (a ++ sep :: b) = split_on sep a ++ split_on sep b.
Proof.
  induction a as [|c a IH]; simpl.
  - by rewrite decide_True.
  - destruct (decide (c = sep)); [by rewrite IH|].
    rewrite IH. pose proof (split_on_nonempty sep a).
    by destruct (split_on sep a).
Qed.

Lemma content_lines_app (a b : str) :
  content_lines (a ++ newline :: b) = content_lines a ++ content_lines b.
Proof.
  unfold content_lines. by rewrite split_on_app_sep, map_app, List.filter_app.
Qed.

Lemma is_content_skipped (line : str) : skipped line -> is_content (strip line) = false.
Proof.
  unfold skipped, is_content. intros [-> | ->]; [reflexivity|].
  rewrite bool_decide_eq_true_2 by reflexivity. apply andb_false_r.
Qed.

Lemma content_lines_skipped (line : str) :
  newline ∉ line -> skipped line -> content_lines line = [].
Proof.
  intros Hnl Hskip. unfold content_lines. rewrite split_on_no_sep by assumption.
  simpl. by rewrite is_content_skipped.
Qed.

Lemma content_lines_all_skipped (text : str) :
  Forall skipped (split_on newline text) -> content_lines text = [].
Proof.
  unfold content_lines. induction 1 as [|line ls Hline _ IH]; [reflexivity|].
  simpl. by rewrite is_content_skipped.
Qed.

(** The parser reads its text through the content lines only. *)
Lemma dict_from_str_content (text1 text2 : str) :
  content_lines text1 = content_lines text2 -> dict_from_str text1 = dict_from_str text2.
Proof. intros H. rewrite !dict_from_str_stages. unfold score_rows. by rewrite H. Qed.

(** X12: a text without a content line (an empty text, or one whose lines
    are all blank or comments) is not parsed: [IndexError].  A text whose
    only content line is a header is parsed into the empty dictionary. *)
Theorem dict_from_str_few_lines (text1 text2 header : str) :
  Forall skipped (split_on newline text1) ->
  content_lines text2 = [header] ->
  dict_from_str text1 = Raise IndexError /\ dict_from_str text2 = Ok ∅.
Proof.
  intros Hall Hheader. split.
  - rewrite dict_from_str_stages.
    by rewrite (content_lines_all_skipped text1 Hall).
  - rewrite dict_from_str_stages. unfold score_rows.
    by rewrite Hheader.
Qed.

Lemma dict_from_str_few_lines_witness :
  dict_from_str (unlines [of_string "# NCBI"; of_string "  "]) = Raise IndexError
  /\ dict_from_str (unlines [of_string "# NCBI"; of_string "   A   B"]) = Ok ∅.
Proof.
  apply (dict_from_str_few_lines _ _ (of_string "A   B")).
  - replace (split_on newline (unlines [of_string "# NCBI"; of_string "  "]))
      with [of_string "# NCBI"; of_string "  "] by (vm_compute; reflexivity).
    apply Forall_cons. split; [right; vm_compute; reflexivity|].
    apply Forall_cons. split; [left; vm_compute; reflexivity|constructor].
  - vm_compute. reflexivity.
Defined.

(** X13: blank lines and comment lines do not change what is parsed,
    wherever they stand: before the text, between two of its lines, or
    after it. *)
Theorem dict_from_str_skips_lines (before after line : str) :
  newline ∉ line -> skipped line ->
  dict_from_str (line ++ newline :: after) = dict_from_str after
  /\ dict_from_str (before ++ newline :: line ++ newline :: after)
     = dict_from_str (before ++ newline :: after)
  /\ dict_from_str (before ++ newline :: line) = dict_from_str before.
Proof.
  intros Hnl Hskip. pose proof (content_lines_skipped line Hnl Hskip) as Hline.
  repeat split; apply dict_from_str_content; rewrite !content_lines_app, Hline;
    by rewrite ?app_nil_r.
Qed.

Lemma dict_from_str_skips_lines_witness :
  dict_from_str (of_string "# BLOSUM" ++ newline
                   :: unlines [of_string "A 1 2"; of_string "B 3 4"])
  = dict_from_str (unlines [of_string "A 1 2"; of_string "B 3 4"])
  /\ dict_from_str (of_string "  A B" ++ newline :: of_string "# BLOSUM" ++ newline
                      :: unlines [of_string "A 1 2"; of_string "B 3 4"])
     = dict_from_str (of_string "  A B" ++ newline
                        :: unlines [of_string "A 1 2"; of_string "B 3 4"])
  /\ dict_from_str (of_string "  A B" ++ newline :: of_string "# BLOSUM")
     = dict_from_str (of_string "  A B").
Proof.
  apply (dict_from_str_skips_lines (of_string "  A B")
           (unlines [of_string "A 1 2"; of_string "B 3 4"]) (of_string "# BLOSUM")).
  - by_evaluation.
  - right. vm_compute. reflexivity.
Defined.

(** ** The parser on square and on rectangular tables *)

Lemma lookup_concat_uniform {A : Type} (rows : list (list A)) (n j i : nat)
    (row : list A) (x : A) :
  Forall (fun row => length row = n) rows ->
  rows !! j = Some row -> row !! i = Some x ->
  concat rows !! (j * n + i)%nat = Some x.
Proof.
  intros Hall. revert j. induction Hall as [|r rows Hr _ IH]; intros j Hj Hi; [done|].
  destruct j as [|j]; simpl in *.
  - injection Hj as ->. by rewrite lookup_app_l by (by eapply lookup_lt_Some).
  - rewrite lookup_app_r by lia. replace (n + j * n + i - length r)%nat
      with (j * n + i)%nat by lia. by apply IH.
Qed.

Lemma comprehension_lookup {A B : Type} (f : A -> result B) (l : list A) (ys : list B)
    (k : nat) (x : A) :
  comprehension f l = Ok ys -> l !! k = Some x ->
  exists y, f x = Ok y /\ ys !! k = Some y.
Proof.
  intros Hc Hx. apply comprehension_inv in Hc.
  destruct (Forall2_lookup_l _ _ _ _ _ Hc Hx) as (y & Hy & Hf). eauto.
Qed.

Lemma comprehension_all_ok {A B : Type} (f : A -> result B) (l : list A) :
  Forall (fun x => is_ok (f x) = true) l -> exists ys, comprehension f l = Ok ys.
Proof.
  intros Hall. destruct (comprehension_cases f l) as [H|(x & e & Hx & Hf & _)]; [assumption|].
  rewrite Forall_forall in Hall. apply Hall in Hx. by rewrite Hf in Hx.
Qed.

Lemma Forall_concat {A : Type} (P : A -> Prop) (ls : list (list A)) :
  Forall (Forall P) ls -> Forall P (concat ls).
Proof. induction 1; simpl; [constructor|]. by apply Forall_app. Qed.

Lemma length_row_symbols (text : str) :
  length (row_symbols text) = length (score_rows text).
Proof. unfold row_symbols, score_rows. by rewrite !length_map. Qed.

(** X14: what the parser stores for a square table.  For a text of [n]
    column symbols and [n] data lines, each with a row symbol and [n]
    integer tokens, where neither the row symbols nor the column symbols
    repeat, the parsed dictionary gives to the pair of the [i]-th row
    symbol and the [j]-th column symbol the value of token [i] of data
    line [j]. *)
Theorem dict_from_str_square_entries (text : str) (n : nat) :
  (0 < n)%nat ->
  length (header_symbols text) = n ->
  length (score_rows text) = n ->
  Forall (fun row => length row = n) (score_rows text) ->
  Forall (Forall (fun tok => is_ok (str_to_int tok) = true)) (score_rows text) ->
  NoDup (row_symbols text) -> NoDup (header_symbols text) ->
  exists d, dict_from_str text = Ok d
    /\ forall i j sym1 sym2 row tok,
         row_symbols text !! i = Some sym1 ->
         header_symbols text !! j = Some sym2 ->
         score_rows text !! j = Some row -> row !! i = Some tok ->
         exists v, str_to_int tok = Ok v /\ d !! (Str sym1, Str sym2) = Some v.
Proof.
  intros Hn Hcols Hrows Hlen Htoks Hnd1 Hnd2.
  destruct (comprehension_all_ok str_to_int (concat (score_rows text)))
    as [vals Hvals]; [by apply Forall_concat|].
  assert (Hne : content_lines text <> []).
  { intros Hnil. unfold score_rows in Hrows. rewrite Hnil in Hrows. simpl in Hrows. lia. }
  assert (Hentry : forall i j sym1 sym2,
            row_symbols text !! i = Some sym1 -> header_symbols text !! j = Some sym2 ->
            exists d v, dict_from_str text = Ok d
              /\ vals !! (j * n + i)%nat = Some v /\ d !! (Str sym1, Str sym2) = Some v).
  { intros i j sym1 sym2.
    by apply (dict_from_str_square_spec text vals n i j sym1 sym2). }
  destruct (lookup_lt_is_Some_2 (row_symbols text) 0%nat) as [s1 Hs1];
    [rewrite length_row_symbols; lia|].
  destruct (lookup_lt_is_Some_2 (header_symbols text) 0%nat) as [s2 Hs2]; [lia|].
  destruct (Hentry _ _ _ _ Hs1 Hs2) as (d & _ & Hd & _).
  exists d. split; [assumption|].
  intros i j sym1 sym2 row tok Hi Hj Hrow Htok.
  destruct (Hentry _ _ _ _ Hi Hj) as (d' & v & Hd' & Hv & Hlookup).
  rewrite Hd in Hd'. injection Hd' as <-.
  pose proof (lookup_concat_uniform _ _ _ _ _ _ Hlen Hrow Htok) as Hcat.
  destruct (comprehension_lookup _ _ _ _ _ Hvals Hcat) as (v' & Hv' & Hvals').
  rewrite Hv in Hvals'. injection Hvals' as <-. eauto.
Qed.

Lemma dict_from_str_square_entries_witness :
  exists d, dict_from_str square_text = Ok d
    /\ forall i j sym1 sym2 row tok,
         row_symbols square_text !! i = Some sym1 ->
         header_symbols square_text !! j = Some sym2 ->
         score_rows square_text !! j = Some row -> row !! i = Some tok ->
         exists v, str_to_int tok = Ok v /\ d !! (Str sym1, Str sym2) = Some v.
Proof.
  apply (dict_from_str_square_entries square_text 2).
  - lia.
  - reflexivity.
  - reflexivity.
  - by_evaluation.
  - by_evaluation.
  - by_evaluation.
  - by_evaluation.
Defined.

(** The loops of the parser over a table of [r] data lines and [c] columns
    index the transposed score array out of range unless [r = c]. *)
Lemma store_loop_not_square (symbols1 symbols2 : list str) (r c : nat) (vals : list Z) :
  (0 < c)%nat -> r <> c ->
  r <> 0%nat ->
  for_each (cells r c)
    (store_pairing symbols1 symbols2
       (np_transpose {| dtype_of := int64; shape := [r; c]; data := vals |})) ∅
  = Raise IndexError.
Proof.
  intros Hc Hdiff Hr.
  set (scores := np_transpose _).
  assert (Hshape : shape scores = [c; r]) by reflexivity.
  assert (Hbad : exists i j, (i, j) ∈ cells r c /\ ~ ((i < c)%nat /\ (j < r)%nat)).
  { destruct (decide (r < c)%nat).
    - exists 0%nat, r. split; [apply elem_of_cells|]; lia.
    - exists c, 0%nat. split; [apply elem_of_cells|]; lia. }
  destruct Hbad as (i & j & Hin & Hout).
  destruct (for_each (cells r c) _ ∅) as [d|e] eqn:Hfor.
  - pose proof (for_each_raises _ (store_pairing symbols1 symbols2 scores)
                  ∅ _ Hin) as Hraise.
    rewrite Hfor in Hraise. discriminate Hraise.
    intros s. by apply (store_pairing_out _ _ _ c r).
  - f_equal. apply for_each_cases in Hfor as (s' & x & _ & Hx).
    by apply store_pairing_raises in Hx.
Qed.

(** X15: the parser reads square tables only.  A text whose data lines all
    have as many score tokens as the header has symbols, but whose number
    of data lines is not zero and differs from the number of header
    symbols, is never parsed; if its score tokens are all integers the
    exception is [IndexError]. *)
Theorem dict_from_str_not_square (text : str) :
  Forall (fun row => length row = length (header_symbols text)) (score_rows text) ->
  length (score_rows text) <> 0%nat ->
  length (score_rows text) <> length (header_symbols text) ->
  is_ok (dict_from_str text) = false
  /\ (Forall (Forall (fun tok => is_ok (str_to_int tok) = true)) (score_rows text) ->
      dict_from_str text = Raise IndexError).
Proof.
  intros Hlen Hrows Hdiff.
  set (r := length (score_rows text)) in *.
  set (c := length (header_symbols text)) in *.
  destruct (content_lines text) as [|header data] eqn:Hlines.
  { exfalso. apply Hrows. subst r. unfold score_rows. by rewrite Hlines. }
  assert (Hc : (0 < c)%nat).
  { subst c. unfold header_symbols. rewrite Hlines. simpl.
    assert (Hne : split_ws header <> []).
    { apply (content_line_tokens text). rewrite Hlines. constructor. }
    destruct (split_ws header); [done|]. simpl. lia. }
  assert (Hstages : dict_from_str text =
            let* scores := np_array_astype_int (score_rows text) in
            for_each (cells r c)
              (store_pairing (row_symbols text) (header_symbols text) (np_transpose scores)) ∅).
  { assert (Hcdef : c = length (split_ws header)).
    { subst c. unfold header_symbols. by rewrite Hlines. }
    rewrite dict_from_str_stages, parsed_symbols1. cbn [bind].
    fold (row_symbols text). rewrite length_row_symbols. fold r.
    unfold header_symbols. rewrite Hlines. unfold list_getitem.
    cbn [lookup list_lookup bind hd]. by rewrite <- Hcdef. }
  pose proof (fun vals => store_loop_not_square (row_symbols text) (header_symbols text)
                            r c vals Hc Hdiff Hrows) as Hloop.
  assert (Harray : np_array_astype_int (score_rows text) =
            let* vals := comprehension str_to_int (concat (score_rows text)) in
            Ok {| dtype_of := int64; shape := [r; c]; data := vals |}).
  { apply np_array_astype_int_uniform; [|assumption].
    intros Hnil. apply Hrows. subst r. by rewrite Hnil. }
  rewrite Hstages, Harray. split.
  - destruct (comprehension str_to_int _) as [vals|e]; [|reflexivity].
    cbn [bind]. by rewrite Hloop.
  - intros Htoks.
    destruct (comprehension_all_ok str_to_int (concat (score_rows text)))
      as [vals ->]; [by apply Forall_concat|].
    cbn [bind]. apply Hloop.
Qed.

Lemma dict_from_str_not_square_witness :
  is_ok (dict_from_str wide_text) = false
  /\ (Forall (Forall (fun tok => is_ok (str_to_int tok) = true)) (score_rows wide_text) ->
      dict_from_str wide_text = Raise IndexError).
Proof.
  apply (dict_from_str_not_square wide_text).
  - by_evaluation.
  - by_evaluation.
  - by_evaluation.
Defined.

(** ** The cartesian product and the positional transformation *)

(** X16: [_cartesian_product] lists all combinations of the elements of
    its two arrays, one per row, with the second index running fastest:
    the result has [len(array1) * len(array2)] rows of two columns, and row
    [p * len(array2) + q] holds [array1[p]] and [array2[q]]. *)
Theorem cartesian_product_rows_spec (array1 array2 : list Z) :
  shape (_cartesian_product array1 array2) = [(length array1 * length array2)%nat; 2%nat]
  /\ forall p q x y, array1 !! p = Some x -> array2 !! q = Some y ->
       getitem2 (_cartesian_product array1 array2)
         (Z.of_nat (p * length array2 + q)) 0 = Ok x
       /\ getitem2 (_cartesian_product array1 array2)
            (Z.of_nat (p * length array2 + q)) 1 = Ok y.
Proof.
  unfold _cartesian_product.
  set (r1 := np_repeat array1 (length array2)).
  set (r2 := np_tile array2 (length array1)).
  set (L := (length array1 * length array2)%nat).
  assert (H1 : length r1 = L) by apply length_np_repeat.
  assert (H2 : length r2 = L) by apply length_np_tile.
  set (a := np_array_rows [r1; r2]).
  assert (Hsa : shape a = [2%nat; L]) by (unfold a, np_array_rows; simpl; by rewrite H1).
  assert (Hda : data a = r1 ++ r2) by (unfold a, np_array_rows; simpl; by rewrite app_nil_r).
  assert (Hs : shape (np_transpose a) = [L; 2%nat]) by (by apply np_transpose_shape).
  split; [assumption|].
  intros p q x y Hx Hy.
  pose proof (lookup_lt_Some _ _ _ Hx) as Hp. pose proof (lookup_lt_Some _ _ _ Hy) as Hq.
  assert (Hk : (p * length array2 + q < L)%nat) by (subst L; nia).
  assert (Hl : length (data (np_transpose a)) = (L * 2)%nat).
  { rewrite (np_transpose_data _ _ _ Hsa). apply length_tabulate2. }
  split.
  - pose proof (getitem2_nat _ L 2 _ 0 Hs Hl Hk ltac:(lia)) as Hget.
    change (Z.of_nat 0) with 0 in Hget. rewrite Hget. f_equal.
    rewrite (np_transpose_item a 2 L 0 _ Hsa) by lia.
    unfold item. rewrite Hda. simpl. rewrite lookup_app_l by lia.
    unfold r1. by rewrite (lookup_np_repeat array1 _ p q x Hx Hq).
  - pose proof (getitem2_nat _ L 2 _ 1 Hs Hl Hk ltac:(lia)) as Hget.
    change (Z.of_nat 1) with 1 in Hget. rewrite Hget. f_equal.
    rewrite (np_transpose_item a 2 L 1 _ Hsa) by lia.
    unfold item. rewrite Hda. rewrite lookup_app_r by lia.
    replace (1 * L + (p * length array2 + q) - length r1)%nat
      with (p * length array2 + q)%nat by lia.
    unfold r2. by rewrite (lookup_np_tile array2 _ p q y Hp Hy).
Qed.

(** X17: [as_positional] indexes the table with every pair of a code of
    the first and a code of the second sequence.  If for some pair of
    positions the two codes are not an index pair of the table, the call
    raises [IndexError]. *)
Theorem as_positional_bad_code (M : SubstitutionMatrix) (sequence1 sequence2 : Sequence)
    (p q : nat) (code1 code2 : Z) :
  well_formed M ->
  code sequence1 !! p = Some code1 -> code sequence2 !! q = Some code2 ->
  ~ (- Z.of_nat (length (_alph1 M)) <= code1 < Z.of_nat (length (_alph1 M))
     /\ - Z.of_nat (length (_alph2 M)) <= code2 < Z.of_nat (length (_alph2 M))) ->
  as_positional M sequence1 sequence2 = Raise IndexError.
Proof.
  intros [_ Hs Hl _] Hc1 Hc2 Hout. unfold as_positional.
  rewrite cartesian_product_rows. unfold getitem_arrays. rewrite zip_repeat_tile.
  pose proof (lookup_lt_Some _ _ _ Hc1) as Hp. pose proof (lookup_lt_Some _ _ _ Hc2) as Hq.
  set (pairs := tabulate2 _ _ _).
  assert (Hin : (code1, code2) ∈ pairs).
  { apply (list_elem_of_lookup_2 _ (p * length (code sequence2) + q)%nat).
    subst pairs. rewrite lookup_tabulate2 by assumption. by rewrite Hc1, Hc2. }
  destruct (comprehension_cases (fun ij : Z * Z => getitem2 (_matrix M) ij.1 ij.2) pairs)
    as [[ys Hys]|(x & e & _ & Hx & ->)].
  - pose proof (comprehension_raises
                    (fun ij : Z * Z => getitem2 (_matrix M) ij.1 ij.2) pairs _ Hin) as Hraise.
    rewrite Hys in Hraise. discriminate Hraise. simpl.
    by rewrite (getitem2_out _ _ _ _ _ Hs Hl Hout).
  - apply getitem2_raises in Hx as ->. reflexivity.
Qed.

Lemma as_positional_bad_code_witness :
  as_positional sample_2x3 {| get_alphabet := [sym_A; sym_B; sym_C]; code := [0; 2] |}
    sample_seq2 = Raise IndexError.
Proof.
  apply (as_positional_bad_code sample_2x3 _ _ 1 0 2 2).
  - apply sample_2x3_wf.
  - reflexivity.
  - reflexivity.
  - simpl. lia.
Defined.

Lemma positional_well_formed (M : SubstitutionMatrix) (s1 s2 : Sequence) :
  well_formed M -> no_extreme (_matrix M) ->
  valid_codes (_alph1 M) (code s1) -> valid_codes (_alph2 M) (code s2) ->
  let P := {| _alph1 := get_alphabet (PositionalSequence s1);
              _alph2 := get_alphabet (PositionalSequence s2);
              _matrix := positional_table M (code s1) (code s2) |} in
  well_formed P /\ no_extreme (_matrix P).
Proof.
  intros [Hd Hs Hl Hr] Hno Hv1 Hv2 P.
  assert (Hin : forall p q, (p < length (code s1))%nat -> (q < length (code s2))%nat ->
            entry M (Z.to_nat (default 0 (code s1 !! p))) (Z.to_nat (default 0 (code s2 !! q)))
            ∈ data (_matrix M)).
  { intros p q Hp Hq.
    destruct (valid_codes_lookup _ _ p Hv1 Hp) as (c1 & -> & Hc1).
    destruct (valid_codes_lookup _ _ q Hv2 Hq) as (c2 & -> & Hc2).
    simpl. unfold entry. apply item_elem. rewrite Hl. nia. }
  split; [split|].
  - reflexivity.
  - subst P. simpl. unfold range. by rewrite !length_map, !length_seq.
  - subst P. simpl. unfold range. by rewrite length_tabulate2, !length_map, !length_seq.
  - simpl. apply Forall_tabulate2. intros p q Hp Hq.
    rewrite Forall_forall in Hr. by apply Hr, Hin.
  - unfold no_extreme. simpl. apply Forall_tabulate2. intros p q Hp Hq.
    unfold no_extreme in Hno. rewrite Forall_forall in Hno. by apply Hno, Hin.
Qed.

(** X18: the positional transformation commutes with transposition.  For
    sequences whose codes are codes of the two alphabets: if [M] has the
    transpose [Mt] and [M.as_positional(s1, s2)] returns the matrix [P],
    then [P] has a transpose, and [Mt.as_positional(s2, s1)] returns it,
    with the two positional sequences exchanged. *)
Theorem as_positional_transpose (M Mt P : SubstitutionMatrix)
    (sequence1 sequence2 pos_sequence1 pos_sequence2 : Sequence) :
  well_formed M ->
  valid_codes (_alph1 M) (code sequence1) -> valid_codes (_alph2 M) (code sequence2) ->
  transpose M = Ok Mt ->
  as_positional M sequence1 sequence2 = Ok (P, pos_sequence1, pos_sequence2) ->
  exists Pt, transpose P = Ok Pt
    /\ as_positional Mt sequence2 sequence1 = Ok (Pt, pos_sequence2, pos_sequence1).
Proof.
  intros Hwf Hv1 Hv2 Ht Hpos. pose proof Hwf as [Hd Hs Hl Hr].
  apply (transpose_inv M Mt Hwf) in Ht as [Hno ->].
  rewrite (as_positional_ok M _ _ Hwf Hno Hv1 Hv2) in Hpos.
  injection Hpos as <- <- <-.
  destruct (positional_well_formed M sequence1 sequence2 Hwf Hno Hv1 Hv2) as [HwfP HnoP].
  set (Mt := {| _alph1 := _alph2 M; _alph2 := _alph1 M;
                _matrix := np_transpose (_matrix M) |}).
  assert (Htab : np_transpose (positional_table M (code sequence1) (code sequence2))
                 = positional_table Mt (code sequence2) (code sequence1)).
  { unfold positional_table, np_transpose. cbn [shape dtype_of data]. f_equal.
    apply tabulate2_ext. intros q p Hq Hp.
    unfold item at 1. cbn [data]. rewrite lookup_tabulate2 by assumption.
    destruct (valid_codes_lookup _ _ p Hv1 Hp) as (c1 & -> & Hc1).
    destruct (valid_codes_lookup _ _ q Hv2 Hq) as (c2 & -> & Hc2).
    cbn [default from_option]. unfold entry, Mt. cbn [_matrix _alph1 _alph2]. symmetry.
    apply (np_transpose_item (_matrix M) _ _ (Z.to_nat c1) (Z.to_nat c2) Hs); lia. }
  eexists. split; [exact (transpose_ok _ HwfP HnoP)|].
  rewrite as_positional_ok.
  - cbn [_alph1 _alph2 _matrix]. by rewrite Htab.
  - by apply transpose_well_formed.
  - by apply (np_transpose_no_extreme _ _ _ Hs Hl).
  - assumption.
  - assumption.
Qed.

Lemma as_positional_transpose_witness :
  exists Pt,
    transpose {| _alph1 := [Int 0; Int 1; Int 2]; _alph2 := [Int 0; Int 1];
                 _matrix := {| dtype_of := int32; shape := [3%nat; 2%nat];
                               data := [6; 4; 3; 1; 6; 4] |} |} = Ok Pt
    /\ as_positional
         {| _alph1 := [sym_A; sym_B; sym_C]; _alph2 := [sym_A; sym_B];
            _matrix := {| dtype_of := int32; shape := [3%nat; 2%nat];
                          data := [1; 4; 2; 5; 3; 6] |} |}
         sample_seq2 sample_seq1
       = Ok (Pt, PositionalSequence sample_seq2, PositionalSequence sample_seq1).
Proof.
  apply (as_positional_transpose sample_2x3 _ _ sample_seq1 sample_seq2).
  - apply sample_2x3_wf.
  - unfold valid_codes. simpl. repeat constructor; lia.
  - unfold valid_codes. simpl. repeat constructor; lia.
  - vm_compute. reflexivity.
  - vm_compute. reflexivity.
Defined.

(** ** The round trip of a table that is not symmetric *)

(** The loops of the parser on the rendered text of [M], before the
    dictionary is filled. *)
Lemma rendered_stages (M : SubstitutionMatrix) :
  well_formed M ->
  Forall token_symbol (_alph1 M) -> Forall token_symbol (_alph2 M) ->
  Forall no_comment (_alph1 M) ->
  (forall sym, head (_alph2 M) = Some sym -> no_comment sym) ->
  _alph1 M <> [] -> _alph2 M <> [] ->
  dict_from_str (unlines (header_line M :: row_lines M))
  = for_each (cells (length (_alph1 M)) (length (_alph2 M)))
      (store_pairing (map py_str (_alph1 M)) (map py_str (_alph2 M))
         (np_transpose {| dtype_of := int64;
                          shape := [length (_alph1 M); length (_alph2 M)];
                          data := data (_matrix M) |})) ∅.
Proof.
  intros Hwf Htok1 Htok2 Hcom1 Hcom2 Hne1 Hne2.
  rewrite dict_from_str_stages, rendered_score_rows, content_lines_rendered by assumption.
  simpl drop. rewrite drop_0, rendered_symbols1 by assumption. cbn [bind].
  unfold list_getitem. cbn [lookup list_lookup bind].
  rewrite rendered_scores by assumption. cbn [bind].
  rewrite split_ws_strip, split_ws_header_line by assumption.
  by rewrite !length_map.
Qed.

(** X19: what the round trip through the text format returns.  Take a
    matrix that satisfies the class invariant, over two non-empty
    alphabets of string symbols that are single tokens, none of which
    reads as a comment sign at the start of its line.  If the alphabets
    have the same length and no repeated symbol, rendering the matrix,
    parsing the text and rebuilding over the same alphabets gives the
    matrix with the transposed table.  If the alphabets differ in length
    the round trip raises [IndexError]. *)
Theorem roundtrip_outcome (M : SubstitutionMatrix) :
  well_formed M ->
  Forall token_symbol (_alph1 M) -> Forall token_symbol (_alph2 M) ->
  Forall no_comment (_alph1 M) ->
  (forall sym, head (_alph2 M) = Some sym -> no_comment sym) ->
  _alph1 M <> [] -> _alph2 M <> [] ->
  (length (_alph1 M) = length (_alph2 M) -> NoDup (_alph1 M) -> NoDup (_alph2 M) ->
   roundtrip M = Ok {| _alph1 := _alph1 M; _alph2 := _alph2 M;
                       _matrix := np_transpose (_matrix M) |})
  /\ (length (_alph1 M) <> length (_alph2 M) -> roundtrip M = Raise IndexError).
Proof.
  intros Hwf Htok1 Htok2 Hcom1 Hcom2 Hne1 Hne2. pose proof Hwf as [Hd Hs Hl Hr].
  unfold roundtrip. rewrite (str_closed_form M Hwf). cbn [bind].
  rewrite rendered_stages by assumption.
  set (m := length (_alph1 M)) in *. set (n := length (_alph2 M)) in *.
  split.
  - intros Hsq Hnd1 Hnd2.
    set (key := fun ij : nat * nat =>
                  (default (Str []) (_alph1 M !! ij.1), default (Str []) (_alph2 M !! ij.2))).
    set (val := fun ij : nat * nat => entry M ij.2 ij.1).
    rewrite (for_each_pure _ _ (fun (d : matrix_dict_t) ij => <[key ij := val ij]> d)).
    2:{ intros d [i j] Hin. apply elem_of_cells in Hin as [Hi Hj].
        destruct (lookup_lt_is_Some_2 (_alph1 M) i Hi) as [a Ha].
        destruct (lookup_lt_is_Some_2 (_alph2 M) j Hj) as [b Hb].
        unfold store_pairing, list_getitem. cbn [fst snd].
        rewrite !list_lookup_fmap, Ha, Hb. cbn [fmap option_fmap option_map bind].
        rewrite Forall_forall in Htok1, Htok2.
        rewrite (token_symbol_str a) by (apply Htok1; by eapply list_elem_of_lookup_2).
        rewrite (token_symbol_str b) by (apply Htok2; by eapply list_elem_of_lookup_2).
        rewrite (getitem2_nat _ n m i j);
          [|reflexivity|simpl; apply length_tabulate2|lia|lia].
        cbn [bind]. subst key val. cbn [fst snd]. rewrite Ha, Hb. cbn [default from_option].
        do 3 f_equal.
        rewrite (np_transpose_item _ m n j i); [reflexivity|reflexivity|lia|lia]. }
    cbn [bind].
    assert (Hlookup : forall i j t1 t2,
              _alph1 M !! i = Some t1 -> _alph2 M !! j = Some t2 ->
              fold_left (fun (d : matrix_dict_t) ij => <[key ij := val ij]> d)
                (cells m n) (∅ : matrix_dict_t) !! (t1, t2) = Some (entry M j i)).
    { intros i j t1 t2 Hi Hj.
      destruct (fold_insert_is_Some key val (cells m n) ∅ (t1, t2)) as [w Hw].
      { right. exists (i, j). split.
        - apply elem_of_cells. split; by eapply lookup_lt_Some.
        - subst key. cbn [fst snd]. by rewrite Hi, Hj. }
      assert (w = entry M j i) as ->; [|exact Hw].
      apply fold_insert_lookup in Hw as [([i' j'] & Hin & Hkey & Hval)|Hempty];
        [|by rewrite lookup_empty in Hempty].
      apply elem_of_cells in Hin as [Hi' Hj'].
      destruct (lookup_lt_is_Some_2 (_alph1 M) i' Hi') as [u1 Hu1].
      destruct (lookup_lt_is_Some_2 (_alph2 M) j' Hj') as [u2 Hu2].
      subst key val. cbn [fst snd] in Hkey, Hval. rewrite Hu1, Hu2 in Hkey.
      cbn [default from_option] in Hkey. injection Hkey as -> ->.
      assert (i' = i) as -> by exact (NoDup_lookup _ _ _ _ Hnd1 Hu1 Hi).
      assert (j' = j) as -> by exact (NoDup_lookup _ _ _ _ Hnd2 Hu2 Hj).
      by rewrite <- Hval. }
    assert (Hentry : forall i j, (i < m)%nat -> (j < n)%nat -> in_int32 (entry M j i)).
    { intros i j Hi Hj. rewrite Forall_forall in Hr. apply Hr.
      unfold entry. apply item_elem. rewrite Hl. fold m n. nia. }
    rewrite init_dict_ok.
    + do 3 f_equal. fold m n. unfold np_transpose. rewrite Hs. fold m n.
      rewrite Hd. f_equal; [by rewrite Hsq|].
      transitivity (tabulate2 m n (fun i j => entry M j i)).
      * apply tabulate2_ext. intros i j Hi Hj.
        destruct (lookup_lt_is_Some_2 (_alph1 M) i Hi) as [t1 Ht1].
        destruct (lookup_lt_is_Some_2 (_alph2 M) j Hj) as [t2 Ht2].
        unfold pairing_score. rewrite Ht1, Ht2.
        by rewrite (Hlookup _ _ _ _ Ht1 Ht2).
      * unfold entry. fold n. rewrite <- Hsq. reflexivity.
    + intros t1 t2 H1 H2.
      apply list_elem_of_lookup_1 in H1 as [i Hi], H2 as [j Hj].
      exists (entry M j i). split; [by apply Hlookup|].
      apply Hentry; by eapply lookup_lt_Some.
  - intros Hdiff.
    rewrite store_loop_not_square; [reflexivity| |assumption|].
    + subst n. destruct (_alph2 M); [done|simpl; lia].
    + subst m. by destruct (_alph1 M).
Qed.

Lemma roundtrip_outcome_witness :
  (length (_alph1 plain_matrix) = length (_alph2 plain_matrix) ->
   NoDup (_alph1 plain_matrix) -> NoDup (_alph2 plain_matrix) ->
   roundtrip plain_matrix
   = Ok {| _alph1 := _alph1 plain_matrix; _alph2 := _alph2 plain_matrix;
           _matrix := np_transpose (_matrix plain_matrix) |})
  /\ (length (_alph1 plain_matrix) <> length (_alph2 plain_matrix) ->
      roundtrip plain_matrix = Raise IndexError).
Proof.
  apply (roundtrip_outcome plain_matrix).
  - split; [reflexivity|reflexivity|reflexivity|].
    simpl. repeat constructor; by_evaluation.
  - repeat constructor; by apply token_symbol_sample.
  - repeat constructor; by apply token_symbol_sample.
  - repeat constructor; discriminate.
  - intros sym [= <-]. discriminate.
  - discriminate.
  - discriminate.
Defined.

(** ** The class invariant *)

(** X20: every matrix the constructor returns satisfies the class
    invariant: its getters return the two alphabets it was given, its
    shape is their two lengths, and its table is a 32-bit integer table of
    that shape whose scores all fit 32 bits.  (An array argument is taken
    to hold as many elements as its shape says.) *)
Theorem init_establishes_invariant (alphabet1 alphabet2 : Alphabet)
    (arg : score_matrix_arg) (M : SubstitutionMatrix) :
  (forall a, arg = of_ndarray a ->
     length (data a) = (length alphabet1 * length alphabet2)%nat) ->
  __init__ alphabet1 alphabet2 arg = Ok M ->
  well_formed M
  /\ get_alphabet1 M = alphabet1 /\ get_alphabet2 M = alphabet2
  /\ get_shape M = (length alphabet1, length alphabet2)
  /\ shape (score_matrix M) = [length alphabet1; length alphabet2].
Proof.
  intros Hproper Hinit.
  assert (Hwf : well_formed M).
  { destruct arg as [d|a].
    - by apply (init_dict_well_formed alphabet1 alphabet2 d).
    - apply (init_dense_well_formed alphabet1 alphabet2 a); [by apply Hproper|assumption]. }
  assert (Ha : _alph1 M = alphabet1 /\ _alph2 M = alphabet2).
  { destruct arg as [d|a].
    - by apply init_dict_inv in Hinit as [-> _].
    - by apply init_dense_inv in Hinit as (_ & _ & -> & _). }
  destruct Ha as [Ha1 Ha2]. split; [assumption|].
  unfold get_alphabet1, get_alphabet2, get_shape, score_matrix.
  destruct Hwf as [_ Hs _ _]. by rewrite Hs, Ha1, Ha2.
Qed.

Lemma init_establishes_invariant_witness :
  well_formed sample_2x3
  /\ get_alphabet1 sample_2x3 = [sym_A; sym_B]
  /\ get_alphabet2 sample_2x3 = [sym_A; sym_B; sym_C]
  /\ get_shape sample_2x3 = (length [sym_A; sym_B], length [sym_A; sym_B; sym_C])
  /\ shape (score_matrix sample_2x3) = [length [sym_A; sym_B]; length [sym_A; sym_B; sym_C]].
Proof.
  apply (init_establishes_invariant [sym_A; sym_B] [sym_A; sym_B; sym_C]
           (of_ndarray {| dtype_of := int64; shape := [2%nat; 3%nat];
                          data := [1; 2; 3; 4; 5; 6] |})).
  - intros a [= <-]. reflexivity.
  - vm_compute. reflexivity.
Defined.

(** X21: whenever [as_positional] returns, the returned matrix satisfies
    the class invariant, its shape is the pair of the lengths of the two
    sequences, and the two returned sequences are the positional sequences
    of the arguments. *)
Theorem as_positional_invariant (M P : SubstitutionMatrix)
    (sequence1 sequence2 pos_sequence1 pos_sequence2 : Sequence) :
  as_positional M sequence1 sequence2 = Ok (P, pos_sequence1, pos_sequence2) ->
  well_formed P
  /\ get_shape P = (length (code sequence1), length (code sequence2))
  /\ pos_sequence1 = PositionalSequence sequence1
  /\ pos_sequence2 = PositionalSequence sequence2
  /\ get_alphabet1 P = get_alphabet pos_sequence1
  /\ get_alphabet2 P = get_alphabet pos_sequence2.
Proof.
  unfold as_positional. intros H.
  apply bind_ok in H as (picked & Hpicked & H).
  apply bind_ok in H as (table & Htable & H).
  apply bind_ok in H as (P' & HP & H). injection H as <- <- <-.
  unfold reshape in Htable.
  destruct (decide _) as [Hlen|]; [|discriminate]. injection Htable as <-.
  assert (Hwf : well_formed P').
  { eapply init_dense_well_formed; [|exact HP].
    cbn [data]. by rewrite !length_positional_alphabet. }
  apply init_dense_inv in HP as (_ & _ & -> & _).
  split; [assumption|]. unfold get_shape, get_alphabet1, get_alphabet2. cbn [_alph1 _alph2].
  by rewrite !length_positional_alphabet.
Qed.

Lemma as_positional_invariant_witness :
  well_formed {| _alph1 := [Int 0; Int 1; Int 2]; _alph2 := [Int 0; Int 1];
                 _matrix := {| dtype_of := int32; shape := [3%nat; 2%nat];
                               data := [6; 4; 3; 1; 6; 4] |} |}
  /\ get_shape {| _alph1 := [Int 0; Int 1; Int 2]; _alph2 := [Int 0; Int 1];
                  _matrix := {| dtype_of := int32; shape := [3%nat; 2%nat];
                                data := [6; 4; 3; 1; 6; 4] |} |}
     = (length (code sample_seq1), length (code sample_seq2))
  /\ PositionalSequence sample_seq1 = PositionalSequence sample_seq1
  /\ PositionalSequence sample_seq2 = PositionalSequence sample_seq2
  /\ get_alphabet1 {| _alph1 := [Int 0; Int 1; Int 2]; _alph2 := [Int 0; Int 1];
                      _matrix := {| dtype_of := int32; shape := [3%nat; 2%nat];
                                    data := [6; 4; 3; 1; 6; 4] |} |}
     = get_alphabet (PositionalSequence sample_seq1)
  /\ get_alphabet2 {| _alph1 := [Int 0; Int 1; Int 2]; _alph2 := [Int 0; Int 1];
                      _matrix := {| dtype_of := int32; shape := [3%nat; 2%nat];
                                    data := [6; 4; 3; 1; 6; 4] |} |}
     = get_alphabet (PositionalSequence sample_seq2).
Proof.
  apply (as_positional_invariant sample_2x3 _ sample_seq1 sample_seq2).
  vm_compute. reflexivity.
Defined.

(** ** The keys of a parsed dictionary *)

Lemma store_pairing_inv (symbols1 symbols2 : list str) (scores : ndarray)
    (d d' : matrix_dict_t) (ij : nat * nat) :
  store_pairing symbols1 symbols2 scores d ij = Ok d' ->
  exists a b v, symbols1 !! ij.1 = Some a /\ symbols2 !! ij.2 = Some b
                /\ d' = <[(Str a, Str b) := v]> d.
Proof.
  unfold store_pairing, list_getitem. intros H.
  destruct (symbols1 !! ij.1) as [a|]; [|discriminate].
  destruct (symbols2 !! ij.2) as [b|]; [|discriminate]. cbn [bind] in H.
  destruct (getitem2 _ _ _) as [v|]; [|discriminate]. injection H as <-. eauto 6.
Qed.

Lemma store_loop_keys (symbols1 symbols2 : list str) (scores : ndarray)
    (l : list (nat * nat)) (d0 d : matrix_dict_t) (k : symbol * symbol) :
  for_each l (store_pairing symbols1 symbols2 scores) d0 = Ok d ->
  is_Some (d !! k)
  <-> is_Some (d0 !! k)
      \/ exists i j a b, (i, j) ∈ l /\ symbols1 !! i = Some a /\ symbols2 !! j = Some b
                         /\ k = (Str a, Str b).
Proof.
  revert d0. induction l as [|[i j] l IH]; intros d0 Hfor.
  - injection Hfor as <-. split; [by left|].
    intros [H|(i & j & a & b & Hin & _)]; [assumption|by apply elem_of_nil in Hin].
  - simpl in Hfor. apply bind_ok in Hfor as (d1 & Hstep & Hfor).
    apply store_pairing_inv in Hstep as (a & b & v & Ha & Hb & ->). cbn [fst snd] in Ha, Hb.
    rewrite (IH _ Hfor). split.
    + intros [H|(i' & j' & a' & b' & Hin & H)].
      * destruct (decide ((Str a, Str b) = k)) as [<-|Hne].
        -- right. exists i, j, a, b. split; [constructor|auto].
        -- left. by rewrite lookup_insert_ne in H.
      * right. exists i', j', a', b'. split; [by constructor|assumption].
    + intros [H|(i' & j' & a' & b' & Hin & Ha' & Hb' & ->)].
      * left. destruct (decide ((Str a, Str b) = k)) as [<-|Hne].
        -- rewrite lookup_insert_eq. eauto.
        -- by rewrite lookup_insert_ne.
      * apply elem_of_cons in Hin as [[= -> ->]|Hin].
        -- left. rewrite Ha in Ha'. rewrite Hb in Hb'.
           injection Ha' as <-. injection Hb' as <-. rewrite lookup_insert_eq. eauto.
        -- right. exists i', j', a', b'. auto.
Qed.

(** X22: the keys of a parsed dictionary.  Whenever the parser returns a
    dictionary, its keys are exactly the pairs of a row symbol (the first
    token of a data line) and a column symbol (a token of the header
    line), both as strings. *)
Theorem dict_from_str_keys (text : str) (d : matrix_dict_t) (k : symbol * symbol) :
  dict_from_str text = Ok d ->
  is_Some (d !! k)
  <-> exists a b, k = (Str a, Str b) /\ a ∈ row_symbols text /\ b ∈ header_symbols text.
Proof.
  rewrite dict_from_str_stages, parsed_symbols1. cbn [bind]. fold (row_symbols text).
  intros H. apply bind_ok in H as (header & Hheader & H).
  apply bind_ok in H as (scores & _ & H).
  assert (Hh : header_symbols text = split_ws header).
  { unfold header_symbols. unfold list_getitem in Hheader.
    destruct (content_lines text) as [|h t]; [discriminate|].
    simpl in Hheader. by injection Hheader as ->. }
  rewrite <- Hh in H. rewrite (store_loop_keys _ _ _ _ _ _ k H). split.
  - intros [Hempty|(i & j & a & b & _ & Ha & Hb & ->)].
    + rewrite lookup_empty in Hempty. by destruct Hempty.
    + exists a, b. split; [reflexivity|]. split; by eapply list_elem_of_lookup_2.
  - intros (a & b & -> & Ha & Hb). right.
    apply list_elem_of_lookup_1 in Ha as [i Hi], Hb as [j Hj].
    exists i, j, a, b. split; [|auto].
    apply elem_of_cells. split; by eapply lookup_lt_Some.
Qed.

Lemma dict_from_str_keys_witness :
  is_Some (({[ (sym_A, sym_A) := 1; (sym_A, sym_B) := 4;
               (sym_B, sym_A) := 2; (sym_B, sym_B) := 5 ]} : matrix_dict_t)
             !! (sym_B, sym_A))
  <-> exists a b, (sym_B, sym_A) = (Str a, Str b)
                  /\ a ∈ row_symbols extra_tokens_text
                  /\ b ∈ header_symbols extra_tokens_text.
Proof.
  apply (dict_from_str_keys extra_tokens_text). vm_compute. reflexivity.
Defined.

(** ** The Protein Blocks matrix *)

Section ProteinBlocks.

Variable undefined_symbol : symbol.
Variable undefined_mismatch : Z.

Let extend (matrix_dict : matrix_dict_t) (sym : symbol) : matrix_dict_t :=
  if decide (sym = undefined_symbol) then matrix_dict
  else <[(undefined_symbol, sym) := undefined_mismatch]>
         (<[(sym, undefined_symbol) := undefined_mismatch]> matrix_dict).

(** The loop over the alphabet leaves the pairings of two defined symbols
    as they are. *)
Lemma extend_defined (alphabet : Alphabet) (d : matrix_dict_t) (s t : symbol) :
  s <> undefined_symbol -> t <> undefined_symbol ->
  fold_left extend alphabet d !! (s, t) = d !! (s, t).
Proof.
  intros Hs Ht. revert d. induction alphabet as [|x alphabet IH]; intros d; [reflexivity|].
  simpl. rewrite IH. unfold extend. destruct (decide (x = undefined_symbol)); [reflexivity|].
  rewrite !lookup_insert_ne by congruence. reflexivity.
Qed.

(** It gives every defined symbol of the alphabet the mismatch score with
    the undefined symbol, in both orders. *)
Lemma extend_undefined (alphabet : Alphabet) (d : matrix_dict_t) (s : symbol) :
  s <> undefined_symbol ->
  s ∈ alphabet
  \/ (d !! (s, undefined_symbol) = Some undefined_mismatch
      /\ d !! (undefined_symbol, s) = Some undefined_mismatch) ->
  fold_left extend alphabet d !! (s, undefined_symbol) = Some undefined_mismatch
  /\ fold_left extend alphabet d !! (undefined_symbol, s) = Some undefined_mismatch.
Proof.
  intros Hs. revert d. induction alphabet as [|x alphabet IH]; intros d H.
  - destruct H as [H|H]; [by apply elem_of_nil in H|assumption].
  - simpl. apply IH. destruct (decide (x = s)) as [->|Hx].
    + right. unfold extend. rewrite decide_False by assumption.
      rewrite lookup_insert_ne by congruence. by rewrite !lookup_insert_eq.
    + destruct H as [H|H].
      * apply elem_of_cons in H as [H|H]; [congruence|by left].
      * right. unfold extend. destruct (decide (x = undefined_symbol)); [assumption|].
        rewrite !lookup_insert_ne by congruence. assumption.
Qed.

(** It does not store a pairing of the undefined symbol with itself. *)
Lemma extend_both_undefined (alphabet : Alphabet) (d : matrix_dict_t) :
  fold_left extend alphabet d !! (undefined_symbol, undefined_symbol)
  = d !! (undefined_symbol, undefined_symbol).
Proof.
  revert d. induction alphabet as [|x alphabet IH]; intros d; [reflexivity|].
  simpl. rewrite IH. unfold extend. destruct (decide (x = undefined_symbol)); [reflexivity|].
  rewrite !lookup_insert_ne by congruence. reflexivity.
Qed.

(** X23: the Protein Blocks matrix.  If the database text parses into a
    dictionary that has a 32-bit score for every pair of defined symbols of
    the alphabet, and the two scores for the undefined symbol fit 32 bits,
    then the matrix is built, over the alphabet in both places; it gives
    the undefined symbol the match score with itself and the mismatch
    score with every other symbol, in both orders (whatever the database
    says about the undefined symbol), and every pair of defined symbols
    the score of the database. *)
Theorem std_protein_blocks_matrix_scores (pb_text : str) (alphabet : Alphabet)
    (undefined_match : Z) (pb : matrix_dict_t) :
  dict_from_str pb_text = Ok pb ->
  undefined_symbol ∈ alphabet ->
  in_int32 undefined_match -> in_int32 undefined_mismatch ->
  (forall s t, s ∈ alphabet -> t ∈ alphabet ->
     s <> undefined_symbol -> t <> undefined_symbol ->
     exists v, pb !! (s, t) = Some v /\ in_int32 v) ->
  exists M,
    std_protein_blocks_matrix pb_text alphabet undefined_symbol
      undefined_match undefined_mismatch = Ok M
    /\ get_alphabet1 M = alphabet /\ get_alphabet2 M = alphabet
    /\ get_score M undefined_symbol undefined_symbol = Ok undefined_match
    /\ (forall s, s ∈ alphabet -> s <> undefined_symbol ->
          get_score M s undefined_symbol = Ok undefined_mismatch
          /\ get_score M undefined_symbol s = Ok undefined_mismatch)
    /\ (forall s t v, s ∈ alphabet -> t ∈ alphabet ->
          s <> undefined_symbol -> t <> undefined_symbol ->
          pb !! (s, t) = Some v -> get_score M s t = Ok v).
Proof.
  intros Hparse Hin Hmatch Hmismatch Hpb.
  unfold std_protein_blocks_matrix. rewrite Hparse. cbn [bind].
  change (fold_left _ alphabet pb) with (fold_left extend alphabet pb).
  set (D := <[(undefined_symbol, undefined_symbol) := undefined_match]>
              (fold_left extend alphabet pb)).
  assert (Huu : D !! (undefined_symbol, undefined_symbol) = Some undefined_match)
    by apply lookup_insert_eq.
  assert (Hsu : forall s, s ∈ alphabet -> s <> undefined_symbol ->
            D !! (s, undefined_symbol) = Some undefined_mismatch
            /\ D !! (undefined_symbol, s) = Some undefined_mismatch).
  { intros s Hs Hne. subst D. rewrite !lookup_insert_ne by congruence.
    apply extend_undefined; auto. }
  assert (Hst : forall s t, s <> undefined_symbol -> t <> undefined_symbol ->
            D !! (s, t) = pb !! (s, t)).
  { intros s t Hs Ht. subst D. rewrite lookup_insert_ne by congruence.
    by apply extend_defined. }
  assert (Htotal : forall s t, s ∈ alphabet -> t ∈ alphabet ->
            exists v, D !! (s, t) = Some v /\ in_int32 v).
  { intros s t Hs Ht.
    destruct (decide (s = undefined_symbol)) as [->|Hs'],
             (decide (t = undefined_symbol)) as [->|Ht'].
    - eauto.
    - exists undefined_mismatch. split; [by apply Hsu|assumption].
    - exists undefined_mismatch. split; [by apply Hsu|assumption].
    - rewrite Hst by assumption. by apply Hpb. }
  pose proof (init_dict_ok alphabet alphabet D Htotal) as Hinit.
  eexists. split; [exact Hinit|]. split; [reflexivity|]. split; [reflexivity|].
  split; [|split].
  - by apply (init_dict_score _ _ _ _ _ _ _ Hinit).
  - intros s Hs Hne. destruct (Hsu s Hs Hne) as [H1 H2].
    split; by apply (init_dict_score _ _ _ _ _ _ _ Hinit).
  - intros s t v Hs Ht Hs' Ht' Hv.
    apply (init_dict_score _ _ _ _ _ _ _ Hinit); try assumption.
    by rewrite Hst.
Qed.

End ProteinBlocks.

Lemma std_protein_blocks_matrix_scores_witness :
  exists M,
    std_protein_blocks_matrix pb_sample_text [sym_a; sym_b; sym_z] sym_z 200 (-200) = Ok M
    /\ get_alphabet1 M = [sym_a; sym_b; sym_z] /\ get_alphabet2 M = [sym_a; sym_b; sym_z]
    /\ get_score M sym_z sym_z = Ok 200
    /\ (forall s, s ∈ [sym_a; sym_b; sym_z] -> s <> sym_z ->
          get_score M s sym_z = Ok (-200) /\ get_score M sym_z s = Ok (-200))
    /\ (forall s t v, s ∈ [sym_a; sym_b; sym_z] -> t ∈ [sym_a; sym_b; sym_z] ->
          s <> sym_z -> t <> sym_z ->
          pb_sample_dict !! (s, t) = Some v -> get_score M s t = Ok v).
Proof.
  apply (std_protein_blocks_matrix_scores sym_z (-200) pb_sample_text
           [sym_a; sym_b; sym_z] 200 pb_sample_dict).
  - vm_compute. reflexivity.
  - by_evaluation.
  - by_evaluation.
  - by_evaluation.
  - intros s t Hs Ht Hs' Ht'.
    assert (Hcases : forall x, x ∈ [sym_a; sym_b; sym_z] -> x <> sym_z ->
              x = sym_a \/ x = sym_b).
    { intros x Hx Hne. repeat (apply elem_of_cons in Hx as [Hx|Hx]; [auto|]);
        [congruence|by apply elem_of_nil in Hx]. }
    destruct (Hcases s Hs Hs') as [-> | ->], (Hcases t Ht Ht') as [-> | ->];
      eexists; (split; [vm_compute; reflexivity|by_evaluation]).
Defined.

(** ** Whitespace at the end of the lines *)

Lemma lstrip_spaces_app (ws s : str) :
  Forall (fun c => isspace c = true) ws -> lstrip (ws ++ s) = lstrip s.
Proof. induction 1 as [|c ws Hc _ IH]; simpl; [reflexivity|]. by rewrite Hc. Qed.

Lemma lstrip_app (s t : str) :
  lstrip (s ++ t) = match lstrip s with [] => lstrip t | _ => lstrip s ++ t end.
Proof.
  induction s as [|c s IH]; simpl; [by destruct (lstrip t)|].
  destruct (isspace c); [assumption|reflexivity].
Qed.

Lemma rstrip_app_spaces (s ws : str) :
  Forall (fun c => isspace c = true) ws -> rstrip (s ++ ws) = rstrip s.
Proof.
  intros Hws. unfold rstrip. rewrite rev_app_distr, lstrip_spaces_app; [reflexivity|].
  apply Forall_forall. intros c Hc. rewrite Forall_forall in Hws.
  apply Hws. by apply list_elem_of_In, in_rev, list_elem_of_In in Hc.
Qed.

Lemma strip_app_spaces (s ws : str) :
  Forall (fun c => isspace c = true) ws -> strip (s ++ ws) = strip s.
Proof.
  intros Hws. unfold strip. rewrite lstrip_app.
  destruct (lstrip s) as [|c r] eqn:Hs.
  - replace (lstrip ws) with (lstrip (ws ++ [])) by (by rewrite app_nil_r).
    by rewrite lstrip_spaces_app.
  - by apply rstrip_app_spaces.
Qed.

(** X24: whitespace at the end of the lines, such as the carriage return
    of a text with Windows line ends, does not change what is parsed. *)
Theorem dict_from_str_trailing_whitespace (lines : list str) (ws : str) :
  Forall (fun c => isspace c = true) ws -> newline ∉ ws ->
  Forall (fun line => newline ∉ line) lines ->
  dict_from_str (unlines (map (fun line => line ++ ws) lines))
  = dict_from_str (unlines lines).
Proof.
  intros Hws Hnl Hlines. apply dict_from_str_content. unfold content_lines.
  destruct lines as [|l ls]; [reflexivity|].
  rewrite !split_on_unlines; try discriminate; try assumption.
  - f_equal. rewrite map_map. apply map_ext. intros line. by apply strip_app_spaces.
  - apply Forall_fmap. eapply Forall_impl; [exact Hlines|]. simpl.
    intros line Hline Hin. apply elem_of_app in Hin as [Hin|Hin]; auto.
Qed.

Lemma dict_from_str_trailing_whitespace_witness :
  dict_from_str (unlines (map (fun line => line ++ [ascii_of_N 13])
                            [of_string "  A B"; of_string "A 1 2"; of_string "B 3 4"]))
  = dict_from_str (unlines [of_string "  A B"; of_string "A 1 2"; of_string "B 3 4"]).
Proof.
  apply (dict_from_str_trailing_whitespace
           [of_string "  A B"; of_string "A 1 2"; of_string "B 3 4"] [ascii_of_N 13]).
  - repeat constructor.
  - by_evaluation.
  - by_evaluation.
Defined.

(** ** The first pairing the dictionary cannot serve *)

Lemma comprehension_first_raise {A B : Type} (f : A -> result B) (l : list A)
    (k : nat) (x : A) (e : exn) :
  l !! k = Some x -> f x = Raise e ->
  (forall k' y, (k' < k)%nat -> l !! k' = Some y -> is_ok (f y) = true) ->
  comprehension f l = Raise e.
Proof.
  revert k. induction l as [|y l IH]; intros k Hx Hf Hbefore; [done|].
  destruct k as [|k]; simpl in *.
  - injection Hx as ->. by rewrite Hf.
  - pose proof (Hbefore 0%nat y ltac:(lia) eq_refl) as Hy.
    destruct (f y) as [b|]; [|discriminate]. cbn [bind].
    rewrite (IH k Hx Hf); [reflexivity|].
    intros k' z Hk' Hz. apply (Hbefore (S k') z); [lia|assumption].
Qed.

(** X25: the constructor fills the table row by row and stops at the first
    pairing the dictionary cannot serve.  If every pairing before the
    pairing of the [i]-th symbol of alphabet 1 with the [j]-th symbol of
    alphabet 2 (in an earlier row, or earlier in row [i]) has a 32-bit
    score, then a missing entry for that pairing raises [KeyError] for
    exactly that pairing, and a score for it that does not fit 32 bits
    raises [OverflowError]. *)
Theorem init_dict_first_offence (alph1 alph2 : Alphabet) (d : matrix_dict_t)
    (i j : nat) (t1 t2 : symbol) :
  alph1 !! i = Some t1 -> alph2 !! j = Some t2 ->
  (forall i' j' u1 u2, (i' < i)%nat \/ (i' = i /\ (j' < j)%nat) ->
     alph1 !! i' = Some u1 -> alph2 !! j' = Some u2 ->
     exists v, d !! (u1, u2) = Some v /\ in_int32 v) ->
  (d !! (t1, t2) = None ->
   __init__ alph1 alph2 (of_dict d) = Raise (KeyError t1 t2))
  /\ (forall v, d !! (t1, t2) = Some v -> ~ in_int32 v ->
      __init__ alph1 alph2 (of_dict d) = Raise OverflowError).
Proof.
  intros Ht1 Ht2 Hbefore.
  pose proof (lookup_lt_Some _ _ _ Ht1) as Hi. pose proof (lookup_lt_Some _ _ _ Ht2) as Hj.
  assert (Hraise : forall e, stored_value alph1 alph2 d (i, j) = Raise e ->
            __init__ alph1 alph2 (of_dict d) = Raise e).
  { intros e He. rewrite init_dict_spec.
    rewrite (comprehension_first_raise _ _ (i * length alph2 + j) (i, j) e);
      [reflexivity| |assumption|].
    - unfold cells. by apply lookup_tabulate2.
    - intros k' [i' j'] Hk' Hcell. apply lookup_cells in Hcell as (Hi' & Hj' & ->).
      destruct (lookup_lt_is_Some_2 _ _ Hi') as [u1 Hu1].
      destruct (lookup_lt_is_Some_2 _ _ Hj') as [u2 Hu2].
      destruct (Hbefore i' j' u1 u2 ltac:(nia) Hu1 Hu2) as (v & Hv & Hin).
      rewrite (stored_value_at _ _ _ _ _ _ _ Hu1 Hu2), Hv.
      apply in_int32_test in Hin. by rewrite Hin. }
  split.
  - intros Hnone. apply Hraise.
    by rewrite (stored_value_at _ _ _ _ _ _ _ Ht1 Ht2), Hnone.
  - intros v Hv Hout. apply Hraise.
    rewrite (stored_value_at _ _ _ _ _ _ _ Ht1 Ht2), Hv.
    apply in_int32_test_false in Hout. by rewrite Hout.
Qed.

Lemma init_dict_first_offence_witness :
  (partial_dict !! (sym_B, sym_B) = None ->
   __init__ [sym_A; sym_B] [sym_A; sym_B] (of_dict partial_dict)
   = Raise (KeyError sym_B sym_B))
  /\ (forall v, partial_dict !! (sym_B, sym_B) = Some v -> ~ in_int32 v ->
      __init__ [sym_A; sym_B] [sym_A; sym_B] (of_dict partial_dict) = Raise OverflowError).
Proof.
  apply (init_dict_first_offence [sym_A; sym_B] [sym_A; sym_B] partial_dict 1 1).
  - reflexivity.
  - reflexivity.
  - intros i' j' u1 u2 Hlt Hu1 Hu2.
    assert (Hcases : (i' = 0 /\ j' = 0)%nat \/ (i' = 0 /\ j' = 1)%nat
                     \/ (i' = 1 /\ j' = 0)%nat).
    { apply lookup_lt_Some in Hu1, Hu2. simpl in Hu1, Hu2. lia. }
    destruct Hcases as [[-> ->]|[[-> ->]|[-> ->]]];
      injection Hu1 as <-; injection Hu2 as <-;
      eexists; (split; [vm_compute; reflexivity|by_evaluation]).
Defined.

(** ** The positional transformation of a matrix with extreme scores *)

Lemma elem_of_tabulate2_2 {A : Type} (m n : nat) (f : nat -> nat -> A) (i j : nat) :
  (i < m)%nat -> (j < n)%nat -> f i j ∈ tabulate2 m n f.
Proof.
  intros Hi Hj. apply (list_elem_of_lookup_2 _ (i * n + j)%nat). by apply lookup_tabulate2.
Qed.

(** [as_positional] hands the table of the picked scores to the
    constructor. *)
Lemma as_positional_table (M : SubstitutionMatrix) (s1 s2 : Sequence) :
  well_formed M ->
  valid_codes (_alph1 M) (code s1) -> valid_codes (_alph2 M) (code s2) ->
  as_positional M s1 s2 =
    let* pos_matrix :=
      __init__ (get_alphabet (PositionalSequence s1)) (get_alphabet (PositionalSequence s2))
        (of_ndarray (positional_table M (code s1) (code s2))) in
    Ok (pos_matrix, PositionalSequence s1, PositionalSequence s2).
Proof.
  intros [Hdt Hs Hl Hr] Hv1 Hv2. unfold as_positional.
  rewrite cartesian_product_rows. unfold getitem_arrays.
  rewrite zip_repeat_tile.
  set (n := length (_alph2 M)).
  rewrite (comprehension_ok _
             (fun ij => item (_matrix M) (Z.to_nat ij.1 * n + Z.to_nat ij.2))).
  2:{ intros ij Hij. apply elem_of_tabulate2 in Hij as (p & q & Hp & Hq & ->).
      destruct (valid_codes_lookup _ _ p Hv1 Hp) as (c1 & -> & Hc1).
      destruct (valid_codes_lookup _ _ q Hv2 Hq) as (c2 & -> & Hc2).
      simpl. by apply (getitem2_valid _ _ _ c1 c2 Hs Hl). }
  cbn [bind]. rewrite map_tabulate2. unfold reshape. cbn [data].
  rewrite decide_True by apply length_tabulate2. cbn [bind dtype_of].
  by rewrite Hdt.
Qed.

(** X26: the positional transformation of a matrix that may hold extreme
    scores, as a matrix built from a dictionary can.  For sequences whose
    codes are codes of the two alphabets, [as_positional] fails, with the
    constructor's [ValueError], exactly when some pair of a code of the
    first sequence and a code of the second selects a score that is the
    largest or the smallest 32-bit integer; otherwise it returns a matrix
    whose score by code at every pair of positions is the score of the
    original matrix at the codes found there. *)
Theorem as_positional_selected_scores (M : SubstitutionMatrix)
    (sequence1 sequence2 : Sequence) :
  well_formed M ->
  valid_codes (_alph1 M) (code sequence1) -> valid_codes (_alph2 M) (code sequence2) ->
  let extreme_selected :=
    exists p q code1 code2 v,
      code sequence1 !! p = Some code1 /\ code sequence2 !! q = Some code2
      /\ get_score_by_code M code1 code2 = Ok v /\ (v = INT32_MAX \/ v = INT32_MIN) in
  (extreme_selected ->
   as_positional M sequence1 sequence2 = Raise (ValueError ScoresTooLarge))
  /\ (~ extreme_selected ->
      exists P,
        as_positional M sequence1 sequence2
        = Ok (P, PositionalSequence sequence1, PositionalSequence sequence2)
        /\ forall p q code1 code2,
             code sequence1 !! p = Some code1 -> code sequence2 !! q = Some code2 ->
             get_score_by_code P (Z.of_nat p) (Z.of_nat q)
             = get_score_by_code M code1 code2).
Proof.
  intros Hwf Hv1 Hv2 extreme_selected. pose proof Hwf as [Hd Hs Hl Hr].
  rewrite (as_positional_table M _ _ Hwf Hv1 Hv2).
  set (T := positional_table M (code sequence1) (code sequence2)).
  assert (Hscore : forall p q code1 code2,
            code sequence1 !! p = Some code1 -> code sequence2 !! q = Some code2 ->
            get_score_by_code M code1 code2
            = Ok (entry M (Z.to_nat code1) (Z.to_nat code2))
            /\ data T !! (p * length (code sequence2) + q)%nat
               = Some (entry M (Z.to_nat code1) (Z.to_nat code2))).
  { intros p q code1 code2 Hc1 Hc2.
    pose proof (lookup_lt_Some _ _ _ Hc1) as Hp. pose proof (lookup_lt_Some _ _ _ Hc2) as Hq.
    destruct (valid_codes_lookup _ _ p Hv1 Hp) as (c1 & Hc1' & Hr1).
    destruct (valid_codes_lookup _ _ q Hv2 Hq) as (c2 & Hc2' & Hr2).
    rewrite Hc1 in Hc1'. rewrite Hc2 in Hc2'. injection Hc1' as <-. injection Hc2' as <-.
    split.
    - unfold get_score_by_code. by rewrite (getitem2_valid _ _ _ _ _ Hs Hl Hr1 Hr2).
    - subst T. unfold positional_table. cbn [data].
      rewrite lookup_tabulate2 by assumption. by rewrite Hc1, Hc2. }
  assert (Hrange : Forall in_int32 (data T)).
  { subst T. unfold positional_table. cbn [data]. apply Forall_tabulate2. intros p q Hp Hq.
    destruct (valid_codes_lookup _ _ p Hv1 Hp) as (c1 & -> & Hr1).
    destruct (valid_codes_lookup _ _ q Hv2 Hq) as (c2 & -> & Hr2).
    simpl. rewrite Forall_forall in Hr. apply Hr.
    unfold entry. apply item_elem. rewrite Hl. nia. }
  assert (Hshape : shape T = [length (get_alphabet (PositionalSequence sequence1));
                              length (get_alphabet (PositionalSequence sequence2))]).
  { subst T. unfold positional_table. cbn [shape].
    by rewrite !length_positional_alphabet. }
  assert (Hext : extreme_selected <-> ~ no_extreme T).
  { subst extreme_selected. split.
    - intros (p & q & c1 & c2 & v & Hc1 & Hc2 & Hget & Hv) Hno.
      destruct (Hscore p q c1 c2 Hc1 Hc2) as [Hget' Hlook].
      rewrite Hget' in Hget. injection Hget as <-.
      unfold no_extreme in Hno. rewrite Forall_forall in Hno.
      apply list_elem_of_lookup_2, Hno in Hlook. tauto.
    - intros Hno. apply not_Forall_Exists in Hno; [|intros z; simpl; apply _].
      apply Exists_exists in Hno as (z & Hz & Hzext).
      subst T. unfold positional_table in Hz. cbn [data] in Hz.
      apply elem_of_tabulate2 in Hz as (p & q & Hp & Hq & ->).
      destruct (lookup_lt_is_Some_2 _ _ Hp) as [c1 Hc1].
      destruct (lookup_lt_is_Some_2 _ _ Hq) as [c2 Hc2].
      destruct (Hscore p q c1 c2 Hc1 Hc2) as [Hget _].
      exists p, q, c1, c2, (entry M (Z.to_nat c1) (Z.to_nat c2)).
      rewrite Hc1, Hc2 in Hzext. simpl in Hzext.
      repeat (split; [assumption|]).
      destruct (decide (entry M (Z.to_nat c1) (Z.to_nat c2) = INT32_MAX)); [by left|].
      destruct (decide (entry M (Z.to_nat c1) (Z.to_nat c2) = INT32_MIN)); [by right|].
      exfalso. apply Hzext. by split. }
  rewrite init_ndarray_checks; [|assumption|reflexivity].
  rewrite (astype_int32_id T eq_refl Hrange).
  split.
  - intros Hsel. apply Hext in Hsel.
    destruct (np_any_eq T INT32_MAX || np_any_eq T INT32_MIN) eqn:Hany; [reflexivity|].
    by apply no_extreme_any in Hany.
  - intros Hsel. assert (Hno : no_extreme T).
    { destruct (np_any_eq T INT32_MAX || np_any_eq T INT32_MIN) eqn:Hany.
      - exfalso. apply Hsel, Hext. intros Hno. apply no_extreme_any in Hno. congruence.
      - by apply no_extreme_any. }
    apply no_extreme_any in Hno. rewrite Hno. cbn [bind].
    eexists. split; [reflexivity|].
    intros p q code1 code2 Hc1 Hc2.
    destruct (Hscore p q code1 code2 Hc1 Hc2) as [-> Hlook].
    unfold get_score_by_code. cbn [_matrix].
    rewrite (getitem2_nat T (length (code sequence1)) (length (code sequence2)) p q);
      [|reflexivity|apply length_tabulate2|by eapply lookup_lt_Some..].
    unfold item. by rewrite Hlook.
Qed.

Lemma as_positional_selected_scores_witness :
  ((exists p q code1 code2 v,
      code seq_A !! p = Some code1 /\ code seq_A !! q = Some code2
      /\ get_score_by_code extreme_matrix code1 code2 = Ok v
      /\ (v = INT32_MAX \/ v = INT32_MIN)) ->
   as_positional extreme_matrix seq_A seq_A = Raise (ValueError ScoresTooLarge))
  /\ (~ (exists p q code1 code2 v,
           code seq_A !! p = Some code1 /\ code seq_A !! q = Some code2
           /\ get_score_by_code extreme_matrix code1 code2 = Ok v
           /\ (v = INT32_MAX \/ v = INT32_MIN)) ->
      exists P,
        as_positional extreme_matrix seq_A seq_A
        = Ok (P, PositionalSequence seq_A, PositionalSequence seq_A)
        /\ forall p q code1 code2,
             code seq_A !! p = Some code1 -> code seq_A !! q = Some code2 ->
             get_score_by_code P (Z.of_nat p) (Z.of_nat q)
             = get_score_by_code extreme_matrix code1 code2).
Proof.
  apply (as_positional_selected_scores extreme_matrix seq_A seq_A).
  - split; [reflexivity|reflexivity|reflexivity|]. simpl. repeat constructor; by_evaluation.
  - unfold valid_codes. simpl. repeat constructor; lia.
  - unfold valid_codes. simpl. repeat constructor; lia.
Defined.
